(** * Radar-Database-Python: the bounded-concurrency download pipeline

    A shallow embedding of [radar-database.py]: the progress tracker
    ([AsyncDownloadProgress]), the link extraction of
    [fetch_download_links], the single download [download_file] and the
    coordinator [download_files], which runs one task per link under an
    [asyncio.Semaphore].

    The coroutines are written as trees of awaited events; the event loop
    is a step relation that advances one task by one event.  Everything
    outside the program (network, file system errors, the text the
    libraries give their exceptions) is an oracle [world], indexed by the
    position of the task in the link list, so that a run of the program
    against any behaviour of the outside is a run of the model against
    some oracle.  The library functions whose code is not part of the
    program ([urljoin], the HTML parser, [str.strip]) are parameters;
    [os.makedirs] and [posixpath.split] are written out after their
    Python source. *)

From stdpp Require Import base numbers list strings pretty gmap.
From Stdlib Require Import Ascii Lia.

Open Scope string_scope.
Open Scope nat_scope.

(** ** Python values the program handles *)

Definition bytes := list Byte.byte.

(** The exceptions that occur; all of them are subclasses of Python's
    [Exception], which is what [except Exception] in [download_file]
    catches. *)
Inductive exn :=
| ClientError (msg : string)            (* aiohttp: connection failed, timed out *)
| ClientResponseError (status : nat) (message url : string)
                                        (* response.raise_for_status() *)
| OSError (msg : string)                (* permissions, disk full *)
| IsADirectoryError (path : string)
| NotADirectoryError (path : string)
| FileNotFoundError (path : string)
| FileExistsError (path : string)
| ValueError (msg : string)
| IndexError
| KeyError (key : string).

Definition nat_to_string (k : nat) : string := pretty k.

(** The subclasses of [OSError] among them. *)
Definition is_OSError (e : exn) : bool :=
  match e with
  | OSError _ | IsADirectoryError _ | NotADirectoryError _
  | FileNotFoundError _ | FileExistsError _ => true
  | _ => false
  end.

Definition is_FileExistsError (e : exn) : bool :=
  match e with
  | FileExistsError _ => true
  | _ => false
  end.

(** No exception, or one that [os.makedirs] passes over when it comes
    from making the head. *)
Definition quiet (r : option exn) : bool :=
  match r with
  | None => true
  | Some e => is_FileExistsError e
  end.

(** An aiohttp response: its status line has arrived, its body is still to
    be read and reading it may fail. *)
Record response := Response {
  status : nat;
  reason : string;          (* the reason phrase of the status line *)
  real_url : string;        (* the URL the response came from *)
  body : exn + bytes
}.

(** ** String helpers: [str.split], [os.path.join] *)

(** [s.split(sep)] for a one-character separator: never empty. *)
Fixpoint split (sep : ascii) (s : string) : list string :=
  match s with
  | EmptyString => [EmptyString]
  | String c s' =>
      if Ascii.eqb c sep then EmptyString :: split sep s'
      else match split sep s' with
           | [] => [String c EmptyString]
           | w :: ws => String c w :: ws
           end
  end.

Fixpoint endswith_char (c : ascii) (s : string) : bool :=
  match s with
  | EmptyString => false
  | String a EmptyString => Ascii.eqb a c
  | String _ s' => endswith_char c s'
  end.

Definition startswith_char (c : ascii) (s : string) : bool :=
  match s with
  | String a _ => Ascii.eqb a c
  | EmptyString => false
  end.

Definition slash : ascii := "/"%char.

(** [os.path.join(a, b)] of posixpath, for two components. *)
Definition os_path_join (a b : string) : string :=
  if startswith_char slash b then b
  else if bool_decide (a = "") || endswith_char slash a then a +:+ b
  else a +:+ "/" +:+ b.

(** ** Paths: [posixpath.split] *)

(** The text before and after the last separator, if there is one. *)
Fixpoint split_last (s : string) : option (string * string) :=
  match s with
  | EmptyString => None
  | String c s' =>
      match split_last s' with
      | Some (h, t) => Some (String c h, t)
      | None => if Ascii.eqb c slash then Some (EmptyString, s') else None
      end
  end.

Fixpoint all_slashes (s : string) : bool :=
  match s with
  | EmptyString => true
  | String c s' => Ascii.eqb c slash && all_slashes s'
  end.

(** [s.rstrip('/')] *)
Fixpoint rstrip_slashes (s : string) : string :=
  match s with
  | EmptyString => EmptyString
  | String c s' =>
      match rstrip_slashes s' with
      | EmptyString => if Ascii.eqb c slash then EmptyString else String c EmptyString
      | r => String c r
      end
  end.

Definition nonempty (s : string) : bool := negb (bool_decide (s = "")).

(** [posixpath.split(p)]: the head is [p] up to its last slash, without
    its trailing slashes unless it consists of slashes only; the tail is
    what follows the last slash. *)
Definition posixpath_split (p : string) : string * string :=
  match split_last p with
  | None => (EmptyString, p)
  | Some (h, t) =>
      let head := h +:+ "/" in
      (if all_slashes head then head else rstrip_slashes head, t)
  end.

(** The first lines of [os.makedirs]:
    [head, tail = path.split(name)] and, [if not tail], once more on the
    head. *)
Definition makedirs_split (name : string) : string * string :=
  let '(head, tail) := posixpath_split name in
  if bool_decide (tail = "") then posixpath_split head else (head, tail).

(** The directory [os.makedirs(name)] wants to exist before [name]: the
    head, when head and tail are both non-empty. *)
Definition parent_of (name : string) : option string :=
  let '(head, tail) := makedirs_split name in
  if nonempty head && nonempty tail then Some head else None.

(** [d] is a directory on the way to [p]: [p] continues [d] with a
    slash. *)
Definition leads_to (d p : string) : Prop :=
  ∃ rest, p = d +:+ String slash rest.

(** ** The progress bar and the tracker (lines 10-40) *)

(** The part of a [tqdm] bar the program drives. *)
Record tqdm := Tqdm {
  total : nat;
  n : nat;
  postfix : option string;
  disable : bool
}.

(** [tqdm(total=total_files, ...)] *)
Definition tqdm_new (total_files : nat) : tqdm :=
  {| total := total_files; n := 0; postfix := None; disable := false |}.

(** [bar.update(1)]: a closed bar ignores it; nothing compares [n] with
    [total]. *)
Definition tqdm_update (bar : tqdm) : tqdm :=
  if disable bar then bar
  else {| total := total bar; n := n bar + 1; postfix := postfix bar;
          disable := disable bar |}.

(** [bar.set_postfix_str(s)] *)
Definition tqdm_set_postfix_str (s : string) (bar : tqdm) : tqdm :=
  {| total := total bar; n := n bar; postfix := Some s; disable := disable bar |}.

(** [bar.close()] *)
Definition tqdm_close (bar : tqdm) : tqdm :=
  {| total := total bar; n := n bar; postfix := postfix bar; disable := true |}.

Record AsyncDownloadProgress := Tracker {
  progress_bar : tqdm;
  completed : nat;
  lock : bool            (* asyncio.Lock: is it held *)
}.

(** [AsyncDownloadProgress.__init__] *)
Definition AsyncDownloadProgress_init (total_files : nat) : AsyncDownloadProgress :=
  {| progress_bar := tqdm_new total_files; completed := 0; lock := false |}.

(** Python truthiness of the optional [filename] argument: [None] and the
    empty string are false. *)
Definition truthy (filename : option string) : bool :=
  match filename with
  | Some f => negb (bool_decide (f = ""))
  | None => false
  end.

(** The body of [update] under the lock (lines 33-36). *)
Definition update_body (filename : option string) (t : AsyncDownloadProgress)
  : AsyncDownloadProgress :=
  let bar := tqdm_update (progress_bar t) in
  {| progress_bar :=
       if truthy filename
       then tqdm_set_postfix_str ("Last: " +:+ default "" filename) bar
       else bar;
     completed := completed t + 1;
     lock := lock t |}.

(** [AsyncDownloadProgress.close] *)
Definition close (t : AsyncDownloadProgress) : AsyncDownloadProgress :=
  {| progress_bar := tqdm_close (progress_bar t); completed := completed t;
     lock := lock t |}.

(** ** Coroutines *)

(** What a coroutine can await or do on the shared objects.  Each event is
    a point at which the event loop may run another task. *)
Inductive event : Type → Type :=
| SemAcquire : event unit                         (* async with sem: entry *)
| SemRelease : event unit                         (* async with sem: exit *)
| LockAcquire : event unit                        (* async with self.lock: entry *)
| LockRelease : event unit                        (* async with self.lock: exit *)
| TrackerUpdate (filename : option string) : event unit
| SessionGet (url : string) : event (exn + response)
| ResponseRead (r : response) : event (exn + bytes)
| FileOpen (path : string) : event (option exn)
| FileWrite (path : string) (data : bytes) : event (option exn)
| Print (text : string) (e : exn) : event unit.   (* print(f"{text}{e}") *)

Inductive coro (R : Type) : Type :=
| Ret (r : R)
| Raise (e : exn)
| Await {X : Type} (ev : event X) (k : X → coro R).
Arguments Ret {R} r.
Arguments Raise {R} e.
Arguments Await {R X} ev k.

(** Continue a coroutine on both of its exits. *)
Fixpoint on_exit {R S : Type} (c : coro R) (kr : R → coro S) (ke : exn → coro S)
  : coro S :=
  match c with
  | Ret r => kr r
  | Raise e => ke e
  | Await ev k => Await ev (λ x, on_exit (k x) kr ke)
  end.

Global Instance coro_ret : MRet coro := λ R r, Ret r.
Global Instance coro_bind : MBind coro := λ R S f c, on_exit c f Raise.

(** [try: c  except Exception as e: h e] *)
Definition try_except {R} (c : coro R) (h : exn → coro R) : coro R :=
  on_exit c Ret h.

(** [async with <acquire/release>: c]: the exit runs on return and on
    exception alike. *)
Definition async_with {R} (enter leave : event unit) (c : coro R) : coro R :=
  Await enter (λ _,
    on_exit c (λ r, Await leave (λ _, Ret r)) (λ e, Await leave (λ _, Raise e))).

Definition await {X} (ev : event X) : coro X := Await ev Ret.

(** Await an event whose answer is a value or an exception to raise. *)
Definition await_sum {X} (ev : event (exn + X)) : coro X :=
  Await ev (λ a, match a with inl e => Raise e | inr x => Ret x end).

Definition await_err (ev : event (option exn)) : coro unit :=
  Await ev (λ a, match a with Some e => Raise e | None => Ret tt end).

(** [AsyncDownloadProgress.update] (lines 26-36) *)
Definition update (filename : option string) : coro unit :=
  async_with LockAcquire LockRelease (await (TrackerUpdate filename)).

(** [response.raise_for_status()]: aiohttp raises when [status >= 400];
    the exception carries the status, the reason phrase and the URL. *)
Definition raise_for_status (r : response) : coro unit :=
  if bool_decide (400 ≤ status r)%nat
  then Raise (ClientResponseError (status r) (reason r) (real_url r))
  else Ret tt.

(** [l[-1]] *)
Definition index_last (l : list string) : coro string :=
  match last l with
  | Some x => Ret x
  | None => Raise IndexError
  end.

(** [download_file] (lines 66-88).  [session] and [progress_tracker] are
    the objects shared by all tasks; they live in the state the events act
    on. *)
Definition download_file (url output_dir : string) : coro (option string) :=
  try_except
    (response ← await_sum (SessionGet url);
     _ ← raise_for_status response;
     filename ← index_last (split slash url);
     let filepath := os_path_join output_dir filename in
     _ ← (_ ← await_err (FileOpen filepath);
          data ← await_sum (ResponseRead response);
          await_err (FileWrite filepath data));
     _ ← update (Some filename);
     Ret (Some filename))
    (λ e, _ ← await (Print ("Error downloading " +:+ url +:+ ": ") e);
          Ret None).

(** [bounded_download] (lines 108-110) *)
Definition bounded_download (url output_dir : string) : coro (option string) :=
  async_with SemAcquire SemRelease (download_file url output_dir).

(** ** The outside world and the shared state *)

(** The local file system: the directories that exist and the contents of
    the regular files, each under the path it was made with; two
    spellings of one path are two names. *)
Record filesystem := Filesystem {
  dirs : gset string;
  files : gmap string bytes
}.

(** What the outside answers.  The task at position [i] of the link list
    makes at most one request of each kind, so an oracle indexed by [i]
    covers every behaviour of the network and of the disk. *)
Record world := World {
  str : exn → string;                          (* str(e), as the libraries render it *)
  makedirs_error : string → option exn;        (* os.mkdir fails *)
  get_response : nat → string → exn + response; (* session.get(url) *)
  open_error : nat → string → option exn;       (* aiofiles.open(path, 'wb') fails *)
  write_error : nat → string → option exn       (* file.write / close fails *)
}.

(** The objects [download_files] creates and its tasks share. *)
Record state := State {
  sem_value : Z;                          (* asyncio.Semaphore._value *)
  progress_tracker : AsyncDownloadProgress;
  fs : filesystem;
  stdout : list string
}.

Definition set_sem (v : Z) (σ : state) : state :=
  {| sem_value := v; progress_tracker := progress_tracker σ; fs := fs σ;
     stdout := stdout σ |}.

Definition set_tracker (t : AsyncDownloadProgress) (σ : state) : state :=
  {| sem_value := sem_value σ; progress_tracker := t; fs := fs σ;
     stdout := stdout σ |}.

Definition set_lock (b : bool) (t : AsyncDownloadProgress) : AsyncDownloadProgress :=
  {| progress_bar := progress_bar t; completed := completed t; lock := b |}.

Definition write_file (path : string) (data : bytes) (σ : state) : state :=
  {| sem_value := sem_value σ; progress_tracker := progress_tracker σ;
     fs := {| dirs := dirs (fs σ); files := <[path := data]> (files (fs σ)) |};
     stdout := stdout σ |}.

Definition print (line : string) (σ : state) : state :=
  {| sem_value := sem_value σ; progress_tracker := progress_tracker σ;
     fs := fs σ; stdout := stdout σ ++ [line] |}.

(** A download task: a coroutine that returns the file name or [None]. *)
Abbreviation task := (coro (option string)).

(** [os.path.exists], [os.path.isdir]: a path of slashes only is the
    root. *)
Definition is_root (p : string) : bool := nonempty p && all_slashes p.

Definition path_isdir (f : filesystem) (p : string) : bool :=
  is_root p || bool_decide (p ∈ dirs f).

Definition path_isfile (f : filesystem) (p : string) : bool :=
  bool_decide (is_Some (files f !! p)).

Definition path_exists (f : filesystem) (p : string) : bool :=
  path_isdir f p || path_isfile f p.

Definition add_dir (path : string) (f : filesystem) : filesystem :=
  {| dirs := {[path]} ∪ dirs f; files := files f |}.

(** [g] has the directories of [f], maybe more, and the same files; the
    same with the files compared at the paths of at most [m] characters
    only. *)
Definition extends (f g : filesystem) : Prop :=
  dirs f ⊆ dirs g ∧ files g = files f.

Definition extends_upto (m : nat) (f g : filesystem) : Prop :=
  dirs f ⊆ dirs g
  ∧ ∀ p, String.length p ≤ m → files g !! p = files f !! p.

Section Semantics.
Variable w : world.

(** Opening the empty path, or a path that ends in a separator, for
    writing fails whatever the disk holds; otherwise the oracle
    decides. *)
Definition open_wb (i : nat) (path : string) : option exn :=
  if bool_decide (path = "") then Some (FileNotFoundError path)
  else if endswith_char slash path then Some (IsADirectoryError path)
  else open_error w i path.

(** Can the event proceed now?  Only the two acquisitions can block. *)
Definition enabled {X} (ev : event X) (σ : state) : bool :=
  match ev with
  | SemAcquire => bool_decide (0 < sem_value σ)%Z
  | LockAcquire => negb (lock (progress_tracker σ))
  | _ => true
  end.

(** The value the awaiting task [i] resumes with. *)
Definition answer (i : nat) {X} (ev : event X) : X :=
  match ev in event X return X with
  | SemAcquire | SemRelease | LockAcquire | LockRelease => tt
  | TrackerUpdate _ => tt
  | SessionGet url => get_response w i url
  | ResponseRead r => body r
  | FileOpen path => open_wb i path
  | FileWrite path _ => write_error w i path
  | Print _ _ => tt
  end.

(** What the event does to the shared state.  ['wb'] truncates on open;
    a failed write leaves the file as the open left it. *)
Definition effect (i : nat) {X} (ev : event X) (σ : state) : state :=
  match ev with
  | SemAcquire => set_sem (sem_value σ - 1) σ
  | SemRelease => set_sem (sem_value σ + 1) σ
  | LockAcquire => set_tracker (set_lock true (progress_tracker σ)) σ
  | LockRelease => set_tracker (set_lock false (progress_tracker σ)) σ
  | TrackerUpdate filename =>
      set_tracker (update_body filename (progress_tracker σ)) σ
  | SessionGet _ | ResponseRead _ => σ
  | FileOpen path =>
      match open_wb i path with
      | None => write_file path [] σ
      | Some _ => σ
      end
  | FileWrite path data =>
      match write_error w i path with
      | None => write_file path data σ
      | Some _ => σ
      end
  | Print text e => print (text +:+ str w e) σ
  end.

(** One turn of the event loop: some task whose awaited event can
    proceed is resumed. *)
Inductive step : state * list task → state * list task → Prop :=
| step_task σ (ts : list task) i X (ev : event X) k :
    ts !! i = Some (Await ev k) →
    enabled ev σ = true →
    step (σ, ts) (effect i ev σ, <[i := k (answer i ev)]> ts).

Definition steps := rtc step.

(** The same turn as a function of the task chosen. *)
Definition step_at (i : nat) (σ : state) (ts : list task)
  : option (state * list task) :=
  match ts !! i with
  | Some (Await ev k) =>
      if enabled ev σ then Some (effect i ev σ, <[i := k (answer i ev)]> ts)
      else None
  | _ => None
  end.

(** A scheduler that always resumes the first task that can proceed. *)
Fixpoint first_ready (σ : state) (ts : list task) (i : nat) (rest : list task)
  : option (state * list task) :=
  match rest with
  | [] => None
  | _ :: rest' =>
      match step_at i σ ts with
      | Some st => Some st
      | None => first_ready σ ts (S i) rest'
      end
  end.

Definition step_first (σ : state) (ts : list task) : option (state * list task) :=
  first_ready σ ts 0 ts.

Fixpoint run_first (fuel : nat) (σ : state) (ts : list task) : state * list task :=
  match fuel with
  | 0 => (σ, ts)
  | S fuel' =>
      match step_first σ ts with
      | Some (σ', ts') => run_first fuel' σ' ts'
      | None => (σ, ts)
      end
  end.

(** A coroutine run on its own to its end, as task [i]; [None] when it
    blocks. *)
Fixpoint exec (i : nat) {R} (c : coro R) (σ : state) : option ((exn + R) * state) :=
  match c with
  | Ret r => Some (inr r, σ)
  | Raise e => Some (inl e, σ)
  | Await ev k =>
      if enabled ev σ then exec i (k (answer i ev)) (effect i ev σ) else None
  end.

(** ** The coordinator [download_files] (lines 91-119) *)

(** [os.mkdir(name)]: the name must be free and its parent a directory;
    beyond that the oracle decides (permissions, a full disk). *)
Definition mkdir (name : string) (f : filesystem) : exn + filesystem :=
  if path_exists f name then inl (FileExistsError name)
  else
    let create :=
      match makedirs_error w name with
      | Some e => inl e
      | None => inr (add_dir name f)
      end in
    match parent_of name with
    | Some head =>
        if path_isfile f head then inl (NotADirectoryError name)
        else if negb (path_isdir f head) then inl (FileNotFoundError name)
        else create
    | None => create
    end.

(** The end of [os.makedirs(name, exist_ok=True)]:
    [try: mkdir(name)  except OSError: if not path.isdir(name): raise].
    The result is the file system and the exception raised, if any. *)
Definition makedirs_leaf (name : string) (f : filesystem)
  : filesystem * option exn :=
  match mkdir name f with
  | inr f' => (f', None)
  | inl e => if is_OSError e && path_isdir f name then (f, None) else (f, Some e)
  end.

(** After the recursive call: [if tail == curdir: return], the path
    [name] then stands for the directory just made; otherwise on to
    [mkdir]. *)
Definition makedirs_after (name : string) (f : filesystem)
  : filesystem * option exn :=
  if bool_decide ((makedirs_split name).2 = ".") then (add_dir name f, None)
  else makedirs_leaf name f.

(** [os.makedirs(name, exist_ok=True)]: when the head does not exist it
    is made first, by the same function, a [FileExistsError] of that call
    being passed over.  The recursion is on the head, which is shorter
    than the name; [fuel] bounds its depth. *)
Fixpoint makedirs (fuel : nat) (name : string) (f : filesystem)
  : filesystem * option exn :=
  match parent_of name, fuel with
  | Some head, S fuel' =>
      if path_exists f head then makedirs_leaf name f
      else
        let '(f1, r) := makedirs fuel' head f in
        match r with
        | Some e =>
            if is_FileExistsError e then makedirs_after name f1 else (f1, Some e)
        | None => makedirs_after name f1
        end
  | _, _ => makedirs_leaf name f
  end.

(** [os.makedirs(path, exist_ok=True)] as [download_files] calls it. *)
Definition os_makedirs (path : string) (f : filesystem) : exn + filesystem :=
  match makedirs (String.length path) path f with
  | (f', None) => inr f'
  | (_, Some e) => inl e
  end.

(** [asyncio.Semaphore(value)]: the constructor rejects negative values
    only. *)
Definition Semaphore (value : Z) : exn + Z :=
  if bool_decide (value < 0)%Z
  then inl (ValueError "Semaphore initial value must be >= 0")
  else inr value.

Definition output_dir_name (radar year month day : string) : string :=
  radar +:+ "_" +:+ year +:+ "_" +:+ month +:+ "_" +:+ day.

(** Lines 94-113 up to the call of [asyncio.gather]: either an exception
    leaves [download_files] (with the file system as it is then), or the
    tasks are created, one per link. *)
Inductive launched :=
| SetupFailure (e : exn) (f : filesystem)
| Launched (σ : state) (ts : list task).

Definition launch (links : list string) (radar year month day : string)
    (max_concurrent : Z) (f : filesystem) (out : list string) : launched :=
  let output_dir := output_dir_name radar year month day in
  match os_makedirs output_dir f with
  | inl e => SetupFailure e (makedirs (String.length output_dir) output_dir f).1
  | inr f' =>
      let tracker := AsyncDownloadProgress_init (length links) in
      match Semaphore max_concurrent with
      | inl e => SetupFailure e f'
      | inr sem =>
          Launched {| sem_value := sem; progress_tracker := tracker;
                      fs := f'; stdout := out |}
                   ((λ link, bounded_download link output_dir) <$> links)
      end
  end.

(** [asyncio.gather] has every result once every task has returned. *)
Definition returned (c : task) : option (option string) :=
  match c with
  | Ret r => Some r
  | _ => None
  end.

Definition gathered (ts : list task) : option (list (option string)) :=
  mapM returned ts.

(** [[r for r in results if r is not None]] *)
Definition successful (results : list (option string)) : list string :=
  omap id results.

Record outcome := Outcome {
  downloaded : list string;   (* the list returned *)
  final : state               (* the shared objects at the return *)
}.

(** The calls of [download_files]: it raises what the setup raises or
    what a task lets escape, and returns once all tasks have. *)
Inductive download_files (links : list string) (radar year month day : string)
    (max_concurrent : Z) (f : filesystem) (out : list string)
  : exn + outcome → Prop :=
| download_files_setup e f' :
    launch links radar year month day max_concurrent f out = SetupFailure e f' →
    download_files links radar year month day max_concurrent f out (inl e)
| download_files_raise σ0 ts0 σ ts i e :
    launch links radar year month day max_concurrent f out = Launched σ0 ts0 →
    steps (σ0, ts0) (σ, ts) →
    ts !! i = Some (Raise e) →
    download_files links radar year month day max_concurrent f out (inl e)
| download_files_return σ0 ts0 σ ts results :
    launch links radar year month day max_concurrent f out = Launched σ0 ts0 →
    steps (σ0, ts0) (σ, ts) →
    gathered ts = Some results →
    download_files links radar year month day max_concurrent f out
      (inr {| downloaded := successful results;
              final := set_tracker (close (progress_tracker σ)) σ |}).

(** The same call under the first-ready scheduler, with enough fuel. *)
Definition download_files_first (fuel : nat) (links : list string)
    (radar year month day : string) (max_concurrent : Z)
    (f : filesystem) (out : list string) : option (exn + outcome) :=
  match launch links radar year month day max_concurrent f out with
  | SetupFailure e _ => Some (inl e)
  | Launched σ0 ts0 =>
      let '(σ, ts) := run_first fuel σ0 ts0 in
      match gathered ts with
      | Some results =>
          Some (inr {| downloaded := successful results;
                       final := set_tracker (close (progress_tracker σ)) σ |})
      | None => None
      end
  end.

End Semantics.

(** ** What a task does, read off its coroutine *)

Section Analysis.
Variable w : world.

Inductive label := Label (X : Type) (ev : event X).
Global Arguments Label {X} ev.

(** The events task [i] goes through when the oracle answers. *)
Fixpoint trace_of (i : nat) {R} (c : coro R) : list label :=
  match c with
  | Await ev k => Label ev :: trace_of i (k (answer w i ev))
  | _ => []
  end.

(** How task [i] ends. *)
Fixpoint result_of (i : nat) {R} (c : coro R) : exn + R :=
  match c with
  | Ret r => inr r
  | Raise e => inl e
  | Await ev k => result_of i (k (answer w i ev))
  end.

Definition is_update (l : label) : bool :=
  match l with
  | Label (TrackerUpdate _) => true
  | _ => false
  end.

Definition size_of (i : nat) (c : task) : nat := length (trace_of i c).

Definition updates_of (i : nat) (c : task) : nat :=
  length (filter (λ l, is_update l = true) (trace_of i c)).

(** [url.split('/')[-1]] *)
Definition filename_of (url : string) : string :=
  default "" (last (split slash url)).

(** The fetch of task [i] succeeds: a response below 400 whose body
    arrives. *)
Definition fetched (i : nat) (url : string) : option bytes :=
  match get_response w i url with
  | inr r =>
      if bool_decide (400 ≤ status r)%nat then None
      else match body r with
           | inr data => Some data
           | inl _ => None
           end
  | inl _ => None
  end.

(** The write of task [i] succeeds: the file opens and takes the data. *)
Definition written (output_dir : string) (i : nat) (url : string) : bool :=
  let filepath := os_path_join output_dir (filename_of url) in
  bool_decide (open_wb w i filepath = None)
  && bool_decide (write_error w i filepath = None).

Definition succeeds (output_dir : string) (i : nat) (url : string) : bool :=
  bool_decide (is_Some (fetched i url)) && written output_dir i url.

Definition fetch_fails (i : nat) (url : string) : bool :=
  negb (bool_decide (is_Some (fetched i url))).

Definition write_fails (output_dir : string) (i : nat) (url : string) : bool :=
  negb (written output_dir i url).

Definition fails (output_dir : string) (i : nat) (url : string) : bool :=
  fetch_fails i url || write_fails output_dir i url.

End Analysis.

(** Sum of a quantity over the tasks, by position. *)
Definition tally {A} (f : nat → A → nat) (l : list A) : nat :=
  sum_list (imap f l).

Definition indicator (b : bool) : nat := if b then 1 else 0.

(** The number of links whose download fails. *)
Definition failures (w : world) (output_dir : string) (links : list string) : nat :=
  tally (λ i url, indicator (fails w output_dir i url)) links.

(** Where a task stands with respect to the semaphore and the lock:
    outside [async with sem], inside it holding a permit, or inside the
    lock as well. *)
Inductive mode := Idle | Holding | Locked.

Global Instance mode_eq_dec : EqDecision mode.
Proof. solve_decision. Defined.

(** The mode in which an event is awaited, and the mode after it. *)
Definition pre {X} (ev : event X) : mode :=
  match ev with
  | SemAcquire => Idle
  | LockRelease | TrackerUpdate _ => Locked
  | _ => Holding
  end.

Definition post {X} (ev : event X) : mode :=
  match ev with
  | SemRelease => Idle
  | LockAcquire | TrackerUpdate _ => Locked
  | _ => Holding
  end.

Definition mode_of {R} (c : coro R) : mode :=
  match c with
  | Await ev _ => pre ev
  | _ => Idle
  end.

(** A coroutine keeps the discipline of the two [async with] blocks:
    every event is awaited in the mode the previous one leaves. *)
Fixpoint bracketed {R} (c : coro R) : Prop :=
  match c with
  | Await ev k => ∀ x, mode_of (k x) = post ev ∧ bracketed (k x)
  | _ => True
  end.

(** Inside [async with sem]: between the acquisition and the release. *)
Definition in_flight {R} (c : coro R) : bool :=
  match mode_of c with
  | Idle => false
  | _ => true
  end.

(** Inside [async with self.lock]. *)
Definition in_critical {R} (c : coro R) : bool :=
  match mode_of c with
  | Locked => true
  | _ => false
  end.

Definition is_io {X} (ev : event X) : bool :=
  match ev with
  | SessionGet _ | ResponseRead _ | FileOpen _ | FileWrite _ _ => true
  | _ => false
  end.

(** Waiting on the network or on the disk: the fetch/write step proper. *)
Definition fetching_or_writing {R} (c : coro R) : bool :=
  match c with
  | Await ev _ => is_io ev
  | _ => false
  end.

Definition pending {R} (c : coro R) : bool :=
  match c with
  | Await _ _ => true
  | _ => false
  end.

(** How many tasks are inside [async with sem], inside the lock, at the
    fetch/write step. *)
Definition holders (ts : list task) : nat :=
  tally (λ _ c, indicator (in_flight c)) ts.

Definition critical (ts : list task) : nat :=
  tally (λ _ c, indicator (in_critical c)) ts.

Definition active (ts : list task) : nat :=
  tally (λ _ c, indicator (fetching_or_writing c)) ts.

(** The admission invariant of a run under a semaphore created with
    [cap]: the permits handed out and the permits left add up to [cap],
    and the lock is held exactly when one task is inside it. *)
Definition admission (cap : Z) (s : state * list task) : Prop :=
  Forall bracketed s.2
  ∧ (0 ≤ sem_value s.1)%Z
  ∧ (sem_value s.1 + Z.of_nat (holders s.2) = cap)%Z
  ∧ critical s.2 = indicator (lock (progress_tracker s.1)).

(** What [asyncio.gather] collects when the oracle is [w]: per link, the
    file name of a download that succeeds and [None] for one that fails. *)
Definition result_at (w : world) (output_dir : string) (i : nat) (url : string)
  : option string :=
  if succeeds w output_dir i url then Some (filename_of url) else None.

Definition results (w : world) (output_dir : string) (links : list string)
  : list (option string) :=
  imap (result_at w output_dir) links.

(** The bar counts what the tracker counts, for [total_files] files, and
    is open. *)
Definition tracker_ok (total_files : nat) (t : AsyncDownloadProgress) : Prop :=
  n (progress_bar t) = completed t
  ∧ disable (progress_bar t) = false
  ∧ total (progress_bar t) = total_files.

(** Some task can be resumed. *)
Definition can_step (σ : state) (ts : list task) : bool :=
  existsb (λ c, match c with
                | Await ev _ => enabled ev σ
                | _ => false
                end) ts.

(** [update] called [k] times in a row. *)
Fixpoint update_many (k : nat) (filename : option string) : coro unit :=
  match k with
  | 0 => Ret tt
  | S k' => _ ← update filename; update_many k' filename
  end.

(** Does the character occur in the string; the strings joined by it. *)
Fixpoint contains (c : ascii) (s : string) : bool :=
  match s with
  | EmptyString => false
  | String a s' => Ascii.eqb a c || contains c s'
  end.

Fixpoint join (sep : ascii) (l : list string) : string :=
  match l with
  | [] => ""
  | [x] => x
  | x :: l' => x +:+ String sep (join sep l')
  end.

(** ** The final path segment of a URL

    The notion the description of [download_file] uses, after RFC 3986:
    a URL is [scheme ":" "//" authority path "?" query "#" fragment];
    the final path segment is what follows the last slash of the
    path. *)

(** The text before the first occurrence of a character, and the text
    from it on. *)
Fixpoint text_before (c : ascii) (s : string) : string :=
  match s with
  | EmptyString => EmptyString
  | String a s' => if Ascii.eqb a c then EmptyString else String a (text_before c s')
  end.

Fixpoint text_from (c : ascii) (s : string) : string :=
  match s with
  | EmptyString => EmptyString
  | String a s' => if Ascii.eqb a c then s else text_from c s'
  end.

Definition tail_of (s : string) : string :=
  match s with
  | EmptyString => EmptyString
  | String _ s' => s'
  end.

(** A colon before the first slash ends the scheme. *)
Definition without_scheme (u : string) : string :=
  if contains ":" (text_before slash u) then tail_of (text_from ":" u) else u.

(** Two slashes open the authority, which ends at the next slash. *)
Definition without_authority (u : string) : string :=
  match u with
  | String a (String b rest) =>
      if Ascii.eqb a slash && Ascii.eqb b slash then text_from slash rest else u
  | _ => u
  end.

Definition url_path (url : string) : string :=
  without_authority (without_scheme (text_before "?" (text_before "#" url))).

Definition final_path_segment (url : string) : string :=
  default "" (last (split slash (url_path url))).

(** ** Link extraction: [fetch_download_links] (lines 43-63) *)

Set Warnings "-register-all".

(** The parse tree BeautifulSoup hands back: tags with their attribute
    dictionary and contents, and text. *)
Inductive node :=
| Tag (name : string) (attrs : gmap string string) (contents : list node)
| NavigableString (text : string).

(** All nodes below a node, in document order. *)
Fixpoint descendants (nd : node) : list node :=
  match nd with
  | Tag _ _ contents =>
      (fix below (l : list node) : list node :=
         match l with
         | [] => []
         | c :: l' => c :: descendants c ++ below l'
         end) contents
  | NavigableString _ => []
  end.

Definition is_space (c : ascii) : bool :=
  Ascii.eqb c " " || Ascii.eqb c "009" || Ascii.eqb c "010"
  || Ascii.eqb c "011" || Ascii.eqb c "012" || Ascii.eqb c "013".

(** The whitespace-separated words of an attribute value; the value of
    [class] is matched word by word. *)
Fixpoint words_from (cur : string) (s : string) : list string :=
  match s with
  | EmptyString => if bool_decide (cur = "") then [] else [cur]
  | String c s' =>
      if is_space c
      then (if bool_decide (cur = "") then words_from "" s'
            else cur :: words_from "" s')
      else words_from (cur +:+ String c "") s'
  end.

Definition has_class (cls : string) (attrs : gmap string string) : bool :=
  match attrs !! "class" with
  | Some v => bool_decide (v = cls) || bool_decide (cls ∈ words_from "" v)
  | None => false
  end.

Definition tag_named (name : string) (nd : node) : bool :=
  match nd with
  | Tag nm _ _ => bool_decide (nm = name)
  | NavigableString _ => false
  end.

Definition tag_with_class (name cls : string) (nd : node) : bool :=
  match nd with
  | Tag nm attrs _ => bool_decide (nm = name) && has_class cls attrs
  | NavigableString _ => false
  end.

(** [soup.find_all(name, class_=cls)] *)
Definition find_all (name cls : string) (soup : node) : list node :=
  filter (λ nd, tag_with_class name cls nd = true) (descendants soup).

(** [tag.find(name)]: the first such tag below, or [None]. *)
Definition find (name : string) (nd : node) : option node :=
  head (filter (λ d, tag_named name d = true) (descendants nd)).

(** [tag[key]] *)
Definition getitem (key : string) (nd : node) : exn + string :=
  match nd with
  | Tag _ attrs _ =>
      match attrs !! key with
      | Some v => inr v
      | None => inl (KeyError key)
      end
  | NavigableString _ => inl (KeyError key)
  end.

(** The page as the network delivers it to [fetch_download_links]. *)
Record page := Page {
  page_status : nat;
  page_reason : string;
  page_url : string;
  page_text : exn + string
}.

Section Links.
(** The two library functions the extraction calls; each returns or
    raises: [urljoin] raises [ValueError] on a malformed address, the
    parser can reject the markup. *)
Variable urljoin : string → string → exn + string.   (* urllib.parse.urljoin *)
Variable BeautifulSoup : string → exn + node.        (* BeautifulSoup(html, 'html.parser') *)

(** The list comprehension of lines 60-61: containers without an anchor
    are filtered out, the [href] of the first anchor of the others is
    looked up. *)
Fixpoint links_of (url : string) (download_links : list node) : exn + list string :=
  match download_links with
  | [] => inr []
  | link :: rest =>
      match find "a" link with
      | None => links_of url rest
      | Some a =>
          match getitem "href" a with
          | inl e => inl e
          | inr href =>
              match urljoin url href with
              | inl e => inl e
              | inr absolute =>
                  match links_of url rest with
                  | inl e => inl e
                  | inr links => inr (absolute :: links)
                  end
              end
          end
      end
  end.

(** What one container does in the comprehension: it is skipped, it
    yields an address, or it raises. *)
Inductive yield := Skipped | Yields (absolute : string) | Raises (e : exn).

Definition link_of (url : string) (link : node) : yield :=
  match find "a" link with
  | Some a =>
      match getitem "href" a with
      | inr href =>
          match urljoin url href with
          | inr absolute => Yields absolute
          | inl e => Raises e
          end
      | inl e => Raises e
      end
  | None => Skipped
  end.

Definition address_of (y : yield) : option string :=
  match y with
  | Yields absolute => Some absolute
  | _ => None
  end.

(** The first anchor of the container, if it has one, has an [href] that
    [urljoin] accepts. *)
Definition anchor_resolves (url : string) (link : node) : Prop :=
  match find "a" link with
  | Some a => ∃ href absolute,
      getitem "href" a = inr href ∧ urljoin url href = inr absolute
  | None => True
  end.

Definition fetch_download_links (got : exn + page) (url : string)
  : exn + list string :=
  match got with
  | inl e => inl e
  | inr response =>
      if bool_decide (400 ≤ page_status response)%nat
      then inl (ClientResponseError (page_status response) (page_reason response)
                  (page_url response))
      else match page_text response with
           | inl e => inl e
           | inr html =>
               match BeautifulSoup html with
               | inl e => inl e
               | inr soup =>
                   let download_links := find_all "div" "bdpLink" soup in
                   links_of url download_links
               end
           end
  end.
End Links.

(** ** Sample runs *)

Definition sample_data : bytes := [Byte.x1f; Byte.x8b].

Definition sample_links : list string :=
  ["http://h/A.gz"; "http://h/B.gz"; "http://h/C.gz"].

(** A rendering of the exceptions in the style of the libraries. *)
Definition sample_str (e : exn) : string :=
  match e with
  | ClientError msg => msg
  | ClientResponseError status message url =>
      nat_to_string status +:+ ", message='" +:+ message +:+ "', url='" +:+ url +:+ "'"
  | OSError msg => msg
  | IsADirectoryError path => "[Errno 21] Is a directory: '" +:+ path +:+ "'"
  | NotADirectoryError path => "[Errno 20] Not a directory: '" +:+ path +:+ "'"
  | FileNotFoundError path =>
      "[Errno 2] No such file or directory: '" +:+ path +:+ "'"
  | FileExistsError path => "[Errno 17] File exists: '" +:+ path +:+ "'"
  | ValueError msg => msg
  | IndexError => "list index out of range"
  | KeyError key => "'" +:+ key +:+ "'"
  end.

(** Every request is answered and every write goes through. *)
Definition world_ok : world :=
  {| str := sample_str;
     makedirs_error := λ _, None;
     get_response := λ _ url, inr (Response 200 "OK" url (inr sample_data));
     open_error := λ _ _, None;
     write_error := λ _ _, None |}.

(** The same, except that the fetch of the second link fails. *)
Definition world_b_fails : world :=
  {| str := sample_str;
     makedirs_error := λ _, None;
     get_response := λ i url,
       if bool_decide (i = 1) then inl (ClientError "Cannot connect to host")
       else inr (Response 200 "OK" url (inr sample_data));
     open_error := λ _ _, None;
     write_error := λ _ _, None |}.

(** Every request is answered, but the body of each response breaks off. *)
Definition world_read_fails : world :=
  {| str := sample_str;
     makedirs_error := λ _, None;
     get_response := λ _ url,
       inr (Response 200 "OK" url
              (inl (ClientError "Response payload is not completed")));
     open_error := λ _ _, None;
     write_error := λ _ _, None |}.

Definition empty_fs : filesystem := {| dirs := ∅; files := ∅ |}.

Definition sample_url : string :=
  "https://www.ncdc.noaa.gov/nexradinv/bdp-download.jsp?id=KHTX&yyyy=2025&mm=03&dd=15&product=AAL2".

(** [urljoin] on the links of the sample pages, which are absolute
    paths. *)
Definition sample_urljoin (base href : string) : exn + string :=
  inr ("https://www.ncdc.noaa.gov" +:+ href).

(** A page with one link container whose anchor has no [href]. *)
Definition soup_no_href : node :=
  Tag "[document]" ∅
    [ Tag "div" {[ "class" := "bdpLink" ]}
        [ Tag "a" ∅ [ NavigableString "KHTX20250315_000000_V06" ] ] ].

(** A page with an empty container and a well-formed one. *)
Definition soup_mixed : node :=
  Tag "[document]" ∅
    [ Tag "div" {[ "class" := "bdpLink" ]} [ NavigableString "no file" ];
      Tag "div" {[ "class" := "bdpLink" ]}
        [ Tag "a" {[ "href" := "/data/KHTX20250315_000000_V06" ]} [] ] ].

(** ** Effects of a task on the console and on the disk *)

(** The message of the handler of [download_file] (line 87). *)
Definition error_message (w : world) (url : string) (e : exn) : string :=
  ("Error downloading " +:+ url +:+ ": ") +:+ str w e.

(** The exception a download runs into first, in the order of the source:
    the request, the status, the open, the read of the body, the write. *)
Definition first_error (w : world) (output_dir : string) (i : nat) (url : string)
  : option exn :=
  let filepath := os_path_join output_dir (filename_of url) in
  match get_response w i url with
  | inl e => Some e
  | inr r =>
      if bool_decide (400 ≤ status r)
      then Some (ClientResponseError (status r) (reason r) (real_url r))
      else match open_wb w i filepath with
           | Some e => Some e
           | None =>
               match body r with
               | inl e => Some e
               | inr _ => write_error w i filepath
               end
           end
  end.

(** The file of the download has been opened: the response is below 400
    and the open succeeds. *)
Definition opened (w : world) (output_dir : string) (i : nat) (url : string) : bool :=
  match get_response w i url with
  | inl _ => false
  | inr r =>
      negb (bool_decide (400 ≤ status r))
      && bool_decide (open_wb w i (os_path_join output_dir (filename_of url)) = None)
  end.

(** The lines a task has still to print. *)
Definition printed (w : world) (l : label) : option string :=
  match l with
  | Label (Print text e) => Some (text +:+ str w e)
  | _ => None
  end.

Definition prints_of (w : world) (i : nat) (c : task) : list string :=
  omap (printed w) (trace_of w i c).

(** The messages of a batch, in link order. *)
Definition failure_messages (w : world) (output_dir : string) (links : list string)
  : list string :=
  concat (imap (λ i url, match first_error w output_dir i url with
                         | Some e => [error_message w url e]
                         | None => []
                         end) links).

(** The state once task [i] has gone through all its remaining events,
    the other tasks standing still. *)
Fixpoint finish (w : world) (i : nat) {R} (c : coro R) (σ : state) : state :=
  match c with
  | Await ev k => finish w i (k (answer w i ev)) (effect w i ev σ)
  | _ => σ
  end.

(** What the events of the task for [url] can touch, whatever the answers
    it gets: its own file, its own message, its own file name on the
    tracker. *)
Definition footprint (url output_dir : string) (l : label) : Prop :=
  match l with
  | Label (FileOpen path) | Label (FileWrite path _) =>
      path = os_path_join output_dir (filename_of url)
  | Label (Print text _) => text = "Error downloading " +:+ url +:+ ": "
  | Label (TrackerUpdate filename) => filename = Some (filename_of url)
  | _ => True
  end.

Fixpoint confined (Q : label → Prop) {R} (c : coro R) : Prop :=
  match c with
  | Await ev k => Q (Label ev) ∧ ∀ x, confined Q (k x)
  | _ => True
  end.

Definition tasks_confined (output_dir : string) (links : list string)
    (ts : list task) : Prop :=
  ∀ j c, ts !! j = Some c →
         ∃ url, links !! j = Some url ∧ confined (footprint url output_dir) c.

(** The paths the links of a batch are saved to. *)
Definition target (output_dir url : string) : string :=
  os_path_join output_dir (filename_of url).

(** A task that still has an update of the tracker before it is the task
    of a link that succeeds. *)
Definition tasks_on_path (w : world) (output_dir : string) (links : list string)
    (ts : list task) : Prop :=
  ∀ j c, ts !! j = Some c → 0 < updates_of w j c →
         ∃ url, links !! j = Some url ∧ succeeds w output_dir j url = true.

(** The label of the bar: none as long as nothing has completed, then
    the file name of a link that succeeded. *)
Definition label_ok (w : world) (output_dir : string) (links : list string)
    (t : AsyncDownloadProgress) : Prop :=
  (completed t = 0 ∧ postfix (progress_bar t) = None)
  ∨ (0 < completed t
     ∧ ∃ i url, links !! i = Some url
                ∧ succeeds w output_dir i url = true
                ∧ postfix (progress_bar t) = Some ("Last: " +:+ filename_of url)).

(** ** The entry point [main] (lines 122-139) *)

(** [str.strip()] is a parameter of [main] below.  On text of characters
    below 128, which is what the sample runs type, it removes these: *)
Definition py_space (c : ascii) : bool :=
  is_space c || Ascii.eqb c "028" || Ascii.eqb c "029"
  || Ascii.eqb c "030" || Ascii.eqb c "031".

Fixpoint lstrip (s : string) : string :=
  match s with
  | EmptyString => EmptyString
  | String c s' => if py_space c then lstrip s' else s
  end.

Fixpoint rstrip (s : string) : string :=
  match s with
  | EmptyString => EmptyString
  | String c s' =>
      match rstrip s' with
      | EmptyString => if py_space c then EmptyString else String c EmptyString
      | r => String c r
      end
  end.

Definition ascii_strip (s : string) : string := rstrip (lstrip s).

(** [input(prompt)]: the prompt is written, then a line is read; at the
    end of the input [EOFError] is raised ([None]). *)
Definition input (prompt : string) (stdin out : list string)
  : list string * option (string * list string) :=
  match stdin with
  | [] => ((out ++ [prompt])%list, None)
  | line :: rest => ((out ++ [prompt])%list, Some (line, rest))
  end.

Record answers := Answers {
  radar_site : string;
  months_in : string;
  day_in : string;
  year_in : string
}.

(** Lines 124-127: the four prompts, in the order site, month, day,
    year; [strip] is [str.strip]. *)
Definition read_answers (strip : string → string) (stdin out : list string)
  : list string * option answers :=
  match input "Enter radar site (KHTX): " stdin out with
  | (out1, None) => (out1, None)
  | (out1, Some (l1, stdin1)) =>
      match input "Enter month (03): " stdin1 out1 with
      | (out2, None) => (out2, None)
      | (out2, Some (l2, stdin2)) =>
          match input "Enter day (15): " stdin2 out2 with
          | (out3, None) => (out3, None)
          | (out3, Some (l3, stdin3)) =>
              match input "Enter year (2025): " stdin3 out3 with
              | (out4, None) => (out4, None)
              | (out4, Some (l4, _)) =>
                  (out4, Some {| radar_site := strip l1; months_in := strip l2;
                                 day_in := strip l3; year_in := strip l4 |})
              end
          end
      end
  end.

(** Line 129 *)
Definition source_url (a : answers) : string :=
  "https://www.ncdc.noaa.gov/nexradinv/bdp-download.jsp?id=" +:+ radar_site a
  +:+ "&yyyy=" +:+ year_in a +:+ "&mm=" +:+ months_in a
  +:+ "&dd=" +:+ day_in a +:+ "&product=AAL2".

(** The four prompts, as the console shows them. *)
Definition prompts : list string :=
  [ "Enter radar site (KHTX): "; "Enter month (03): ";
    "Enter day (15): "; "Enter year (2025): " ].

(** How [main] ends: normally or with an exception, and what is on disk
    and on the console then. *)
Inductive main_exn := EOFError | Raised (e : exn).

Record main_end := MainEnd {
  raised : option main_exn;
  main_fs : filesystem;
  main_stdout : list string
}.

Section Main.
Variable w : world.                               (* the downloads *)
Variable page_of : string → exn + page.           (* the request for the page *)
Variable strip : string → string.                 (* str.strip *)
Variable urljoin : string → string → exn + string.
Variable BeautifulSoup : string → exn + node.

Inductive main (stdin : list string) (f : filesystem) (out : list string)
  : main_end → Prop :=
| main_eof out1 :
    read_answers strip stdin out = (out1, None) →
    main stdin f out
      {| raised := Some EOFError; main_fs := f; main_stdout := out1 |}
| main_links_raise out1 a e :
    read_answers strip stdin out = (out1, Some a) →
    fetch_download_links urljoin BeautifulSoup (page_of (source_url a))
      (source_url a) = inl e →
    main stdin f out
      {| raised := Some (Raised e); main_fs := f; main_stdout := out1 |}
| main_setup_raise out1 a download_links e f' :
    read_answers strip stdin out = (out1, Some a) →
    fetch_download_links urljoin BeautifulSoup (page_of (source_url a))
      (source_url a) = inr download_links →
    launch w download_links (radar_site a) (year_in a) (months_in a) (day_in a)
      20 f out1 = SetupFailure e f' →
    main stdin f out
      {| raised := Some (Raised e); main_fs := f'; main_stdout := out1 |}
| main_task_raise out1 a download_links σ0 ts0 σ ts i e :
    read_answers strip stdin out = (out1, Some a) →
    fetch_download_links urljoin BeautifulSoup (page_of (source_url a))
      (source_url a) = inr download_links →
    launch w download_links (radar_site a) (year_in a) (months_in a) (day_in a)
      20 f out1 = Launched σ0 ts0 →
    steps w (σ0, ts0) (σ, ts) →
    ts !! i = Some (Raise e) →
    main stdin f out
      {| raised := Some (Raised e); main_fs := fs σ; main_stdout := stdout σ |}
| main_return out1 a download_links o :
    read_answers strip stdin out = (out1, Some a) →
    fetch_download_links urljoin BeautifulSoup (page_of (source_url a))
      (source_url a) = inr download_links →
    download_files w download_links (radar_site a) (year_in a) (months_in a)
      (day_in a) 20 f out1 (inr o) →
    main stdin f out
      {| raised := None;
         main_fs := fs (final o);
         main_stdout :=
           (stdout (final o)
            ++ [ "Total files downloaded: "
                   +:+ nat_to_string (length (downloaded o));
                 "Files saved in: " +:+ radar_site a +:+ "_" +:+ year_in a
                   +:+ "_" +:+ months_in a +:+ "_" +:+ day_in a ])%list |}.
End Main.

(** The page of the sample runs: two well-formed containers. *)
Definition soup_two_links : node :=
  Tag "[document]" ∅
    [ Tag "div" {[ "class" := "bdpLink" ]}
        [ Tag "a" {[ "href" := "/data/A.gz" ]} [] ];
      Tag "div" {[ "class" := "bdpLink" ]}
        [ Tag "a" {[ "href" := "/data/B.gz" ]} [] ] ].

Definition sample_page_of (url : string) : exn + page :=
  inr (Page 200 "OK" url (inr "<html>two links</html>")).

Definition sample_stdin : list string := [" KHTX "; "03"; "15 "; "2025"].

(** * Properties *)

(** ** Tallies over the task list *)

Lemma tally_nil {A} (f : nat → A → nat) : tally f [] = 0.
Proof. reflexivity. Qed.

Lemma tally_cons {A} (f : nat → A → nat) x l :
  tally f (x :: l) = f 0 x + tally (f ∘ S) l.
Proof. reflexivity. Qed.

Lemma tally_insert {A} (f : nat → A → nat) l i x y :
  l !! i = Some x →
  tally f (<[i := y]> l) + f i x = tally f l + f i y.
Proof.
  revert f i. induction l as [|a l IH]; intros f i Hi; [done|].
  destruct i as [|i]; simpl in *.
  - injection Hi as ->. rewrite !tally_cons. lia.
  - rewrite !tally_cons. specialize (IH (f ∘ S) i Hi). simpl in IH. lia.
Qed.

Lemma tally_pos {A} (f : nat → A → nat) l :
  0 < tally f l → ∃ i x, l !! i = Some x ∧ 0 < f i x.
Proof.
  revert f. induction l as [|a l IH]; intros f H.
  - rewrite tally_nil in H. lia.
  - rewrite tally_cons in H. destruct (decide (0 < f 0 a)) as [Ha|Ha].
    + exists 0, a. done.
    + destruct (IH (f ∘ S)) as (i & x & Hi & Hx); [lia|].
      exists (S i), x. done.
Qed.

Lemma tally_le {A} (f g : nat → A → nat) l :
  (∀ i x, l !! i = Some x → f i x ≤ g i x) → tally f l ≤ tally g l.
Proof.
  revert f g. induction l as [|a l IH]; intros f g H; [done|].
  rewrite !tally_cons. pose proof (H 0 a eq_refl).
  specialize (IH (f ∘ S) (g ∘ S) (λ i x Hi, H (S i) x Hi)). lia.
Qed.

Lemma tally_ext {A} (f g : nat → A → nat) l :
  (∀ i x, l !! i = Some x → f i x = g i x) → tally f l = tally g l.
Proof.
  intros H. apply Nat.le_antisymm; apply tally_le; intros i x Hi;
    rewrite (H i x Hi); done.
Qed.

Lemma tally_fmap {A B} (f : nat → B → nat) (g : A → B) l :
  tally f (g <$> l) = tally (λ i x, f i (g x)) l.
Proof.
  revert f. induction l as [|a l IH]; intros f; [done|].
  rewrite fmap_cons, !tally_cons, IH. done.
Qed.

Lemma tally_bound {A} (f : nat → A → nat) l :
  (∀ i x, f i x ≤ 1) → tally f l ≤ length l.
Proof.
  revert f. induction l as [|a l IH]; intros f H; [done|].
  rewrite tally_cons. simpl. pose proof (H 0 a).
  specialize (IH (f ∘ S) (λ i x, H (S i) x)). lia.
Qed.

(** ** The discipline of the two [async with] blocks *)

Lemma split_nonempty sep s : split sep s ≠ [].
Proof.
  destruct s as [|c s]; simpl; [done|].
  destruct (Ascii.eqb c sep); [done|]. destruct (split sep s); done.
Qed.

Lemma last_split url : last (split slash url) = Some (filename_of url).
Proof.
  unfold filename_of. destruct (last (split slash url)) eqn:E; [done|].
  apply last_None in E. by apply split_nonempty in E.
Qed.

Lemma bounded_download_bracketed url output_dir :
  bracketed (bounded_download url output_dir).
Proof.
  unfold bounded_download, download_file, async_with, try_except, update,
    await_sum, await_err, await, raise_for_status, index_last.
  rewrite last_split. cbn.
  intros []. split; [done|]. intros [e|r]; cbn.
  { split; [done|]. intros []. split; [done|]. intros []. done. }
  case_bool_decide; cbn.
  { split; [done|]. intros []. split; [done|]. intros []. done. }
  split; [done|]. intros [e|]; cbn.
  { split; [done|]. intros []. split; [done|]. intros []. done. }
  split; [done|]. intros [e|data]; cbn.
  { split; [done|]. intros []. split; [done|]. intros []. done. }
  split; [done|]. intros [e|]; cbn.
  { split; [done|]. intros []. split; [done|]. intros []. done. }
  split; [done|]. intros []. split; [done|]. intros []. split; [done|].
  intros []. split; [done|]. intros []. done.
Qed.

Section Runs.
Variable w : world.

Lemma holders_insert (ts : list task) i c c' :
  ts !! i = Some c →
  holders (<[i := c']> ts) + indicator (in_flight c)
  = holders ts + indicator (in_flight c').
Proof.
  intros Hi.
  exact (tally_insert (λ _ c, indicator (in_flight c)) ts i c c' Hi).
Qed.

Lemma critical_insert (ts : list task) i c c' :
  ts !! i = Some c →
  critical (<[i := c']> ts) + indicator (in_critical c)
  = critical ts + indicator (in_critical c').
Proof.
  intros Hi.
  exact (tally_insert (λ _ c, indicator (in_critical c)) ts i c c' Hi).
Qed.

Lemma admission_step cap s s' :
  step w s s' → admission cap s → admission cap s'.
Proof.
  intros Hstep (Hb & Hs & Hc & Hl).
  destruct Hstep as [σ ts i X ev k Hi Hen]. simpl in *.
  pose proof (Forall_lookup_1 _ _ _ _ Hb Hi) as Hbi. simpl in Hbi.
  destruct (Hbi (answer w i ev)) as [Hm Hbk].
  pose proof (holders_insert ts i _ (k (answer w i ev)) Hi) as H1.
  pose proof (critical_insert ts i _ (k (answer w i ev)) Hi) as H2.
  unfold in_flight, in_critical in H1, H2. simpl in H1, H2.
  rewrite Hm in H1, H2.
  split; [by apply Forall_insert|]. simpl.
  destruct (lock (progress_tracker σ)) eqn:Hlock;
    destruct ev; simpl in *; rewrite ?Hlock in *; simpl in *;
    try discriminate; try case_bool_decide; repeat case_match; simpl in *;
    rewrite ?Hlock; simpl; repeat split; try done; try lia.
Qed.

Lemma admission_steps cap s s' :
  steps w s s' → admission cap s → admission cap s'.
Proof. induction 1; eauto using admission_step. Qed.

(** *** What one task does *)

Lemma result_of_bounded_download i url output_dir :
  result_of w i (bounded_download url output_dir)
  = inr (result_at w output_dir i url).
Proof.
  unfold bounded_download, download_file, async_with, try_except, update,
    await_sum, await_err, await, raise_for_status, index_last.
  rewrite last_split.
  unfold result_at, succeeds, written, fetched. cbn.
  destruct (get_response w i url) as [e|r]; cbn; [done|].
  case_bool_decide; cbn; [done|].
  destruct (open_wb w i _) as [e|]; cbn.
  { rewrite andb_false_r. done. }
  destruct (body r) as [e|data]; cbn; [done|].
  destruct (write_error w i _) as [e|]; cbn; done.
Qed.

(** The events of a download that succeeds, in order: admission, the
    request, the file opened, the body read and written, the tracker
    updated under the lock, the permit given back. *)
Lemma trace_of_success i url output_dir r data :
  get_response w i url = inr r →
  status r < 400 →
  body r = inr data →
  written w output_dir i url = true →
  trace_of w i (bounded_download url output_dir)
  = [ Label SemAcquire; Label (SessionGet url);
      Label (FileOpen (os_path_join output_dir (filename_of url)));
      Label (ResponseRead r);
      Label (FileWrite (os_path_join output_dir (filename_of url)) data);
      Label LockAcquire; Label (TrackerUpdate (Some (filename_of url)));
      Label LockRelease; Label SemRelease ].
Proof.
  intros Hget Hst Hbody Hw.
  unfold written in Hw. apply andb_true_iff in Hw as [Ho Hwr].
  apply bool_decide_eq_true in Ho, Hwr.
  unfold bounded_download, download_file, async_with, try_except, update,
    await_sum, await_err, await, raise_for_status, index_last.
  rewrite last_split. cbn. rewrite Hget. cbn.
  rewrite bool_decide_eq_false_2 by lia. cbn.
  rewrite Ho. cbn. rewrite Hbody. cbn. rewrite Hwr. cbn. done.
Qed.

(** A download that fails ends with the message printed and the permit
    given back; the tracker is not among its events. *)
Lemma trace_of_failure i url output_dir :
  succeeds w output_dir i url = false →
  ∃ before e,
    trace_of w i (bounded_download url output_dir)
    = (before
       ++ [ Label (Print ("Error downloading " +:+ url +:+ ": ") e);
            Label SemRelease ])%list
    ∧ Forall (λ l, is_update l = false) before.
Proof.
  unfold succeeds, written, fetched. intros Hs.
  unfold bounded_download, download_file, async_with, try_except, update,
    await_sum, await_err, await, raise_for_status, index_last.
  rewrite last_split. cbn.
  destruct (get_response w i url) as [e|r]; cbn.
  { exists [Label SemAcquire; Label (SessionGet url)], e.
    split; [reflexivity|]. repeat constructor. }
  destruct (bool_decide (400 ≤ status r)) eqn:Hst; cbn.
  { exists [Label SemAcquire; Label (SessionGet url)],
      (ClientResponseError (status r) (reason r) (real_url r)).
    split; [reflexivity|]. repeat constructor. }
  destruct (open_wb w i _) as [e|] eqn:Ho; cbn.
  { eexists [_; _; _], e. split; [reflexivity|]. repeat constructor. }
  destruct (body r) as [e|data]; cbn.
  { eexists [_; _; _; _], e. split; [reflexivity|]. repeat constructor. }
  destruct (write_error w i _) as [e|]; cbn.
  { eexists [_; _; _; _; _], e. split; [reflexivity|]. repeat constructor. }
  exfalso. rewrite bool_decide_eq_true_2 in Hs by eauto. done.
Qed.

Lemma updates_of_bounded_download i url output_dir :
  updates_of w i (bounded_download url output_dir)
  = indicator (succeeds w output_dir i url).
Proof.
  unfold updates_of.
  destruct (succeeds w output_dir i url) eqn:Hs.
  - unfold succeeds in Hs. apply andb_true_iff in Hs as [Hf Hw].
    apply bool_decide_eq_true in Hf as [data Hf]. unfold fetched in Hf.
    destruct (get_response w i url) as [e|r] eqn:Hget; [done|].
    case_bool_decide; [done|].
    destruct (body r) as [e|data'] eqn:Hbody; [done|]. 
    rewrite (trace_of_success i url output_dir r data') by (done || lia).
    reflexivity.
  - destruct (trace_of_failure i url output_dir Hs) as (before & e & -> & Hb).
    rewrite filter_app, length_app. simpl.
    assert (filter (λ l, is_update l = true) before = []) as ->; [|done].
    induction Hb as [|l before Hl Hb IH]; [done|].
    rewrite filter_cons_False; [done|]. rewrite Hl. done.
Qed.

(** *** What every turn of the event loop preserves *)

Lemma imap_insert_stable {A B} (g : nat → A → B) l i x y :
  l !! i = Some x → g i y = g i x → imap g (<[i := y]> l) = imap g l.
Proof.
  revert g i. induction l as [|a l IH]; intros g i Hi Hg; [done|].
  destruct i as [|i]; simpl in *.
  - injection Hi as ->. by rewrite Hg.
  - f_equal. by apply IH.
Qed.

(** The end of each task is fixed from the start: a turn does not
    change how any task will end. *)
Lemma result_of_step s s' :
  step w s s' →
  imap (λ i c, result_of w i c) s'.2 = imap (λ i c, result_of w i c) s.2.
Proof.
  destruct 1 as [σ ts i X ev k Hi Hen]. simpl.
  by apply (imap_insert_stable (λ i c, result_of w i c) ts i (Await ev k)).
Qed.

Lemma result_of_steps s s' :
  steps w s s' →
  imap (λ i c, result_of w i c) s'.2 = imap (λ i c, result_of w i c) s.2.
Proof.
  induction 1 as [|s1 s2 s3 H12 _ IH]; [done|].
  rewrite IH. by apply result_of_step.
Qed.

Lemma size_of_Await i X (ev : event X) k :
  size_of w i (Await ev k) = S (size_of w i (k (answer w i ev))).
Proof. reflexivity. Qed.

Lemma updates_of_Await i X (ev : event X) k :
  updates_of w i (Await ev k)
  = indicator (is_update (Label ev)) + updates_of w i (k (answer w i ev)).
Proof.
  unfold updates_of. cbn [trace_of]. rewrite filter_cons.
  destruct (is_update (Label ev)); case_decide; simpl; done.
Qed.

(** Every turn consumes one event of one task. *)
Lemma size_of_step s s' :
  step w s s' → tally (size_of w) s'.2 + 1 = tally (size_of w) s.2.
Proof.
  destruct 1 as [σ ts i X ev k Hi Hen]. cbn [fst snd].
  pose proof (tally_insert (size_of w) ts i _ (k (answer w i ev)) Hi) as H.
  rewrite size_of_Await in H. lia.
Qed.

(** The tracker counts the updates done; those to come are in the
    tasks. *)
Lemma completed_step s s' :
  step w s s' →
  completed (progress_tracker s'.1) + tally (updates_of w) s'.2
  = completed (progress_tracker s.1) + tally (updates_of w) s.2.
Proof.
  destruct 1 as [σ ts i X ev k Hi Hen]. cbn [fst snd].
  pose proof (tally_insert (updates_of w) ts i _ (k (answer w i ev)) Hi) as H.
  rewrite updates_of_Await in H.
  destruct ev; cbn [effect is_update indicator answer] in *;
    repeat case_match; cbn; lia.
Qed.

Lemma completed_steps s s' :
  steps w s s' →
  completed (progress_tracker s'.1) + tally (updates_of w) s'.2
  = completed (progress_tracker s.1) + tally (updates_of w) s.2.
Proof.
  induction 1 as [|s1 s2 s3 H12 _ IH]; [done|].
  rewrite IH. by apply completed_step.
Qed.

(** No event takes anything off the tracker's count. *)
Lemma completed_mono_step s s' :
  step w s s' →
  completed (progress_tracker s.1) ≤ completed (progress_tracker s'.1).
Proof.
  destruct 1 as [σ ts i X ev k Hi Hen]. simpl.
  destruct ev; simpl; repeat case_match; simpl; lia.
Qed.

Lemma tracker_ok_step total_files s s' :
  step w s s' →
  tracker_ok total_files (progress_tracker s.1) →
  tracker_ok total_files (progress_tracker s'.1).
Proof.
  destruct 1 as [σ ts i X ev k Hi Hen]. simpl.
  unfold tracker_ok. intros (Hn & Hd & Ht).
  destruct ev; simpl; repeat case_match; simpl; try done.
  all: unfold tqdm_update; rewrite Hd; simpl; repeat split; try done; lia.
Qed.

Lemma tracker_ok_steps total_files s s' :
  steps w s s' →
  tracker_ok total_files (progress_tracker s.1) →
  tracker_ok total_files (progress_tracker s'.1).
Proof. induction 1; eauto using tracker_ok_step. Qed.

Lemma length_step s s' : step w s s' → length s'.2 = length s.2.
Proof. destruct 1. simpl. apply length_insert. Qed.

Lemma length_steps s s' : steps w s s' → length s'.2 = length s.2.
Proof.
  induction 1 as [|s1 s2 s3 H12 _ IH]; [done|].
  rewrite IH. by apply length_step.
Qed.

(** *** No deadlock, and every run ends *)

Lemma locked_can_step σ (ts : list task) :
  0 < critical ts → ∃ s', step w (σ, ts) s'.
Proof.
  intros H. apply tally_pos in H as (i & c & Hi & Hc).
  destruct c as [r|e|X ev k]; unfold in_critical in Hc; cbn in Hc;
    try lia.
  assert (enabled ev σ = true) as Hen.
  { destruct ev; cbn in *; try done; lia. }
  eexists. by eapply step_task.
Qed.

Lemma progress cap σ (ts : list task) :
  (0 < cap)%Z →
  admission cap (σ, ts) →
  Exists (λ c, pending c = true) ts →
  ∃ s', step w (σ, ts) s'.
Proof.
  intros Hcap (Hb & Hs & Hc & Hl) Hex. simpl in *.
  assert (lock (progress_tracker σ) = true → ∃ s', step w (σ, ts) s') as Hlocked.
  { intros Hlock. apply locked_can_step. rewrite Hl, Hlock. simpl. lia. }
  apply Exists_exists in Hex as (c & Hin & Hp).
  apply list_elem_of_lookup in Hin as [j Hj].
  destruct c as [r|e|X ev k]; try done.
  destruct (enabled ev σ) eqn:Hen; [eexists; by eapply step_task|].
  destruct ev; simpl in Hen; try done.
  - (* blocked on the semaphore: some task holds a permit *)
    apply bool_decide_eq_false in Hen.
    assert (0 < holders ts) as Hh by lia.
    apply tally_pos in Hh as (i & c & Hi & Hic).
    destruct c as [r|e|X ev k']; unfold in_flight in Hic; cbn in Hic;
      try lia.
    destruct (enabled ev σ) eqn:Hen'; [eexists; by eapply step_task|].
    destruct ev; cbn in Hen', Hic; try done; try lia.
    apply Hlocked. by destruct (lock (progress_tracker σ)).
  - (* blocked on the lock: the task inside it can move *)
    apply Hlocked. by destruct (lock (progress_tracker σ)).
Qed.

Lemma settled_or_pending (ts : list task) :
  Forall (λ c, pending c = false) ts ∨ Exists (λ c, pending c = true) ts.
Proof.
  induction ts as [|c ts [IH|IH]].
  - left. constructor.
  - destruct (pending c) eqn:Hc.
    + right. by left.
    + left. by constructor.
  - right. by right.
Qed.

(** From every state of a run under a positive cap the event loop can
    bring all tasks to their end. *)
Lemma can_finish cap s :
  (0 < cap)%Z →
  admission cap s →
  ∃ s', steps w s s' ∧ Forall (λ c, pending c = false) s'.2.
Proof.
  intros Hcap.
  remember (tally (size_of w) s.2) as m eqn:Hm.
  revert s Hm. induction m as [m IH] using lt_wf_ind. intros [σ ts] Hm Hadm.
  destruct (settled_or_pending ts) as [Hdone|Hex].
  { exists (σ, ts). split; [apply rtc_refl|done]. }
  destruct (progress cap σ ts Hcap Hadm Hex) as [s1 Hstep].
  pose proof (size_of_step _ _ Hstep) as Hsz. simpl in Hsz, Hm.
  destruct (IH (tally (size_of w) s1.2)) with (s := s1)
    as (s' & Hsteps & Hfin); [lia|done|by eapply admission_step|].
  exists s'. split; [|done]. by eapply rtc_l.
Qed.

(** No run is longer than the events its tasks have to go through. *)
Lemma steps_bounded k s s' :
  nsteps (step w) k s s' → k + tally (size_of w) s'.2 = tally (size_of w) s.2.
Proof.
  induction 1 as [|k s1 s2 s3 H12 _ IH]; [done|].
  pose proof (size_of_step _ _ H12). lia.
Qed.

(** *** What [asyncio.gather] collects *)

Lemma gathered_Some (ts : list task) rs :
  gathered ts = Some rs ↔ ts = Ret <$> rs.
Proof.
  unfold gathered. rewrite mapM_Some. split.
  - induction 1 as [|c r ts rs Hc _ IH]; [done|].
    destruct c; simpl in Hc; try done. injection Hc as ->.
    rewrite fmap_cons. by f_equal.
  - intros ->. induction rs as [|r rs IH]; constructor; done.
Qed.

Lemma settled_tasks (ts : list task) rs :
  Forall (λ c, pending c = false) ts →
  imap (λ i c, result_of w i c) ts = inr <$> rs →
  ts = Ret <$> rs.
Proof.
  intros Hdone Heq. apply list_eq. intros j.
  apply (f_equal (λ l, l !! j)) in Heq.
  rewrite list_lookup_imap, !list_lookup_fmap in *.
  destruct (ts !! j) as [c|] eqn:Hj, (rs !! j) as [r|]; simpl in *; try done.
  pose proof (Forall_lookup_1 _ _ _ _ Hdone Hj) as Hc.
  destruct c; simpl in *; congruence.
Qed.

Lemma no_task_raises (ts : list task) rs i e :
  imap (λ i c, result_of w i c) ts = inr <$> rs →
  ts !! i = Some (Raise e) → False.
Proof.
  intros Heq Hi. apply (f_equal (λ l, l !! i)) in Heq.
  rewrite list_lookup_imap, list_lookup_fmap, Hi in Heq.
  destruct (rs !! i); simpl in *; congruence.
Qed.

(** *** The state [download_files] starts its tasks in *)

Lemma launch_Launched links radar year month day cap f out σ0 ts0 :
  launch w links radar year month day cap f out = Launched σ0 ts0 →
  ts0 = (λ link, bounded_download link (output_dir_name radar year month day))
          <$> links
  ∧ sem_value σ0 = cap
  ∧ (0 ≤ cap)%Z
  ∧ progress_tracker σ0 = AsyncDownloadProgress_init (length links)
  ∧ os_makedirs w (output_dir_name radar year month day) f = inr (fs σ0)
  ∧ stdout σ0 = out.
Proof.
  unfold launch, Semaphore.
  destruct (os_makedirs w _ f) as [e|f']; [done|].
  case_bool_decide; [done|]. intros [= <- <-]. simpl.
  repeat split; try done. lia.
Qed.

Lemma tally_const_zero {A} (f : nat → A → nat) l :
  (∀ i x, f i x = 0) → tally f l = 0.
Proof.
  intros H. pose proof (tally_le f (λ _ _, 0) l (λ i x _, Nat.eq_le_incl _ _ (H i x))).
  assert (tally (λ (_ : nat) (_ : A), 0) l = 0); [|lia].
  clear. induction l as [|a l IH]; [done|]. rewrite tally_cons. simpl. exact IH.
Qed.

Lemma initial_admission links output_dir σ0 :
  (0 ≤ sem_value σ0)%Z →
  lock (progress_tracker σ0) = false →
  admission (sem_value σ0)
    (σ0, (λ link, bounded_download link output_dir) <$> links).
Proof.
  intros Hs Hl. unfold admission, holders, critical. simpl.
  rewrite !tally_fmap, !tally_const_zero by done. rewrite Hl. simpl.
  repeat split; try done; try lia.
  apply Forall_fmap, Forall_forall. intros url _.
  apply bounded_download_bracketed.
Qed.

Lemma initial_results links output_dir :
  imap (λ i c, result_of w i c)
    ((λ link, bounded_download link output_dir) <$> links)
  = inr <$> results w output_dir links.
Proof.
  unfold results. rewrite imap_fmap, fmap_imap. apply imap_ext.
  intros i url _. simpl. apply result_of_bounded_download.
Qed.

Lemma initial_updates links output_dir :
  tally (updates_of w) ((λ link, bounded_download link output_dir) <$> links)
  = tally (λ i url, indicator (succeeds w output_dir i url)) links.
Proof.
  rewrite tally_fmap. apply tally_ext. intros i url _.
  apply updates_of_bounded_download.
Qed.

(** *** Counting successes and failures *)

Lemma fails_not_succeeds output_dir i url :
  fails w output_dir i url = negb (succeeds w output_dir i url).
Proof.
  unfold fails, fetch_fails, write_fails, succeeds.
  by rewrite negb_andb.
Qed.

Lemma length_successful_imap (f : nat → string → bool) (g : string → string) l :
  length (successful (imap (λ i u, if f i u then Some (g u) else None) l))
  = tally (λ i u, indicator (f i u)) l.
Proof.
  revert f. induction l as [|u l IH]; intros f; [done|].
  rewrite tally_cons. simpl. unfold successful in *.
  specialize (IH (f ∘ S)). simpl in IH. 
  destruct (f 0 u); simpl; f_equal; exact IH.
Qed.

Lemma length_successful links output_dir :
  length (successful (results w output_dir links))
  = tally (λ i url, indicator (succeeds w output_dir i url)) links.
Proof. apply (length_successful_imap (succeeds w output_dir) filename_of). Qed.

Lemma tally_split (f : nat → string → bool) l :
  tally (λ i u, indicator (f i u)) l + tally (λ i u, indicator (negb (f i u))) l
  = length l.
Proof.
  revert f. induction l as [|u l IH]; intros f; [done|].
  rewrite !tally_cons. specialize (IH (f ∘ S)).
  unfold compose in *. cbv beta in *.
  destruct (f 0 u); cbn [indicator negb length]; lia.
Qed.

Lemma successes_failures links output_dir :
  length (successful (results w output_dir links)) + failures w output_dir links
  = length links.
Proof.
  rewrite length_successful. unfold failures.
  rewrite <- (tally_split (succeeds w output_dir) links). f_equal.
  apply tally_ext. intros i u _. by rewrite fails_not_succeeds.
Qed.

(** *** Runs of [download_files] *)

Section Batch.
Variables (links : list string) (radar year month day : string).
Variables (max_concurrent : Z) (f : filesystem) (out : list string).
Variables (σ0 : state) (ts0 : list task).
Hypothesis Hlaunch :
  launch w links radar year month day max_concurrent f out = Launched σ0 ts0.

Let output_dir := output_dir_name radar year month day.

Lemma run_invariants σ ts :
  steps w (σ0, ts0) (σ, ts) →
  admission max_concurrent (σ, ts)
  ∧ imap (λ i c, result_of w i c) ts = inr <$> results w output_dir links
  ∧ completed (progress_tracker σ) + tally (updates_of w) ts
    = length (successful (results w output_dir links))
  ∧ tracker_ok (length links) (progress_tracker σ)
  ∧ length ts = length links.
Proof.
  intros Hsteps.
  destruct (launch_Launched _ _ _ _ _ _ _ _ _ _ Hlaunch)
    as (Hts & Hsem & Hcap & Htr & _ & _).
  fold output_dir in Hts.
  split; [|split; [|split; [|split]]].
  - eapply admission_steps; [done|]. rewrite Hts, <- Hsem.
    apply initial_admission; [lia|]. by rewrite Htr.
  - pose proof (result_of_steps _ _ Hsteps) as E. cbn [fst snd] in E.
    rewrite E, Hts. apply initial_results.
  - pose proof (completed_steps _ _ Hsteps) as E. cbn [fst snd] in E.
    rewrite E, Hts, Htr, initial_updates, length_successful. done.
  - apply (tracker_ok_steps _ _ _ Hsteps). cbn [fst snd].
    rewrite Htr. done.
  - pose proof (length_steps _ _ Hsteps) as E. cbn [fst snd] in E.
    rewrite E, Hts. apply length_fmap.
Qed.

(** Whatever the schedule, a call that leaves [download_files] returns
    the successful file names in link order, with the tracker having
    counted the successes. *)
Lemma download_files_outcome res :
  download_files w links radar year month day max_concurrent f out res →
  ∃ σ, res = inr {| downloaded := successful (results w output_dir links);
                    final := set_tracker (close (progress_tracker σ)) σ |}
       ∧ steps w (σ0, ts0) (σ, Ret <$> results w output_dir links)
       ∧ completed (progress_tracker σ)
         = length (successful (results w output_dir links))
       ∧ tracker_ok (length links) (progress_tracker σ).
Proof.
  intros Hrun. destruct Hrun as [e f' H|σ0' ts0' σ ts i e H Hsteps Hi
                                |σ0' ts0' σ ts rs H Hsteps Hg].
  - congruence.
  - rewrite Hlaunch in H. injection H as <- <-.
    destruct (run_invariants _ _ Hsteps) as (_ & Hres & _).
    destruct (no_task_raises _ _ _ _ Hres Hi).
  - rewrite Hlaunch in H. injection H as <- <-.
    destruct (run_invariants _ _ Hsteps) as (_ & Hres & Hcnt & Hok & _).
    apply gathered_Some in Hg. subst ts.
    assert (rs = results w output_dir links) as ->.
    { rewrite imap_fmap in Hres.
      assert (imap (λ i, (λ c : task, result_of w i c) ∘ Ret) rs = inr <$> rs) as E.
      { clear. rewrite <- (imap_const inr rs). by apply imap_ext. }
      rewrite E in Hres.
      assert (Inj (=) (=) (@inr exn (option string))) by (intros ?? [=]; done).
      by apply (inj (fmap inr)) in Hres. }
    exists σ. split; [done|]. split; [done|]. split; [|done].
    rewrite tally_fmap, tally_const_zero in Hcnt by done. lia.
Qed.

(** Under a positive cap the call does return. *)
Lemma download_files_returns :
  (0 < max_concurrent)%Z →
  ∃ o, download_files w links radar year month day max_concurrent f out (inr o).
Proof.
  intros Hcap.
  destruct (run_invariants σ0 ts0 (rtc_refl _ _)) as (Hadm & _).
  destruct (can_finish _ _ Hcap Hadm) as ([σ ts] & Hsteps & Hdone).
  destruct (run_invariants _ _ Hsteps) as (_ & Hres & _).
  pose proof (settled_tasks _ _ Hdone Hres) as Hts. simpl in Hts.
  eexists. eapply download_files_return; [exact Hlaunch|exact Hsteps|].
  apply gathered_Some. exact Hts.
Qed.
End Batch.

End Runs.

(** ** The first-ready scheduler is one of the runs *)

Lemma step_at_step w i σ ts s' :
  step_at w i σ ts = Some s' → step w (σ, ts) s'.
Proof.
  unfold step_at. destruct (ts !! i) as [[r|e|X ev k]|] eqn:Hi; try done.
  destruct (enabled ev σ) eqn:Hen; [|done]. intros [= <-].
  by apply step_task.
Qed.

Lemma step_first_step w σ ts s' :
  step_first w σ ts = Some s' → step w (σ, ts) s'.
Proof.
  unfold step_first. generalize 0 as i. generalize ts at 2 as rest.
  induction rest as [|c rest IH]; intros i; simpl; [done|].
  destruct (step_at w i σ ts) as [st|] eqn:Hat.
  - intros [= <-]. by eapply step_at_step.
  - apply IH.
Qed.

Lemma run_first_steps w fuel σ ts :
  steps w (σ, ts) (run_first w fuel σ ts).
Proof.
  revert σ ts. induction fuel as [|fuel IH]; intros σ ts; simpl.
  - apply rtc_refl.
  - destruct (step_first w σ ts) as [[σ' ts']|] eqn:Hs; [|apply rtc_refl].
    eapply rtc_l; [by eapply step_first_step|]. apply IH.
Qed.

Lemma download_files_first_sound w fuel links radar year month day cap f out res :
  download_files_first w fuel links radar year month day cap f out = Some res →
  download_files w links radar year month day cap f out res.
Proof.
  unfold download_files_first.
  destruct (launch w links radar year month day cap f out) as [e f'|σ0 ts0] eqn:Hl.
  - intros [= <-]. by eapply download_files_setup.
  - pose proof (run_first_steps w fuel σ0 ts0) as Hsteps.
    destruct (run_first w fuel σ0 ts0) as [σ ts].
    destruct (gathered ts) as [rs|] eqn:Hg; [|done].
    intros [= <-]. by eapply download_files_return.
Qed.

(** A turn needs a task that can be resumed. *)
Lemma step_can_step w σ ts s' : step w (σ, ts) s' → can_step σ ts = true.
Proof.
  intros Hstep. inversion Hstep as [σ1 ts1 i X ev k Hi Hen]; subst.
  unfold can_step. apply existsb_exists. exists (Await ev k). split; [|done].
  apply list_elem_of_In, list_elem_of_lookup. eauto.
Qed.

Lemma stuck_steps w σ ts s' :
  can_step σ ts = false → steps w (σ, ts) s' → s' = (σ, ts).
Proof.
  intros Hstuck Hsteps. inversion Hsteps as [|s1 s2 s3 Hstep _]; subst; [done|].
  apply step_can_step in Hstep. congruence.
Qed.

(** ** Strings and directories: [os.makedirs] *)

Lemma append_cons c (s t : string) : String c s +:+ t = String c (s +:+ t).
Proof. reflexivity. Qed.

Lemma append_empty_l (t : string) : "" +:+ t = t.
Proof. reflexivity. Qed.

Lemma append_empty_r (s : string) : s +:+ "" = s.
Proof.
  induction s as [|c s IH]; [done|]. by rewrite append_cons, IH.
Qed.

Lemma append_assoc (a b c : string) : (a +:+ b) +:+ c = a +:+ (b +:+ c).
Proof.
  induction a as [|x a IH]; [done|]. by rewrite !append_cons, IH.
Qed.

Lemma length_append (a b : string) :
  String.length (a +:+ b) = String.length a + String.length b.
Proof.
  induction a as [|x a IH]; [done|]. rewrite append_cons. simpl. by rewrite IH.
Qed.

Lemma endswith_char_append c (s : string) :
  endswith_char c (s +:+ String c "") = true.
Proof.
  induction s as [|a s IH].
  - rewrite append_empty_l. simpl. apply Ascii.eqb_refl.
  - rewrite append_cons. simpl.
    destruct (s +:+ String c "") eqn:E; [|done].
    destruct s; discriminate E.
Qed.

(** *** [posixpath.split] *)

Lemma split_last_Some s h t :
  split_last s = Some (h, t) → s = h +:+ String slash t.
Proof.
  revert h t. induction s as [|c s IH]; intros h t; [done|]. simpl.
  destruct (split_last s) as [[h' t']|] eqn:E.
  - intros [= <- <-]. rewrite append_cons. f_equal. by apply IH.
  - destruct (Ascii.eqb c slash) eqn:Hc; [|done].
    intros [= <- <-]. apply Ascii.eqb_eq in Hc as ->. done.
Qed.

Lemma rstrip_slashes_suffix s :
  ∃ z, all_slashes z = true ∧ s = rstrip_slashes s +:+ z.
Proof.
  induction s as [|c s (z & Hz & IH)]; [by exists ""|]. simpl.
  destruct (rstrip_slashes s) as [|a r] eqn:E.
  - rewrite append_empty_l in IH. subst z.
    destruct (Ascii.eqb c slash) eqn:Hc.
    + exists (String c s). simpl. by rewrite Hc, Hz.
    + by exists s.
  - exists z. split; [done|]. rewrite append_cons. by f_equal.
Qed.

Lemma rstrip_slashes_end s : endswith_char slash (rstrip_slashes s) = false.
Proof.
  induction s as [|c s IH]; [done|]. simpl.
  destruct (rstrip_slashes s) as [|a r] eqn:E.
  - destruct (Ascii.eqb c slash) eqn:Hc; simpl; [done|]. done.
  - done.
Qed.

Lemma all_slashes_cons z :
  all_slashes z = true → z = "" ∨ ∃ z', z = String slash z'.
Proof.
  destruct z as [|c z]; [by left|]. simpl.
  intros [Hc _]%andb_true_iff. apply Ascii.eqb_eq in Hc as ->. right. by eexists.
Qed.

Lemma posixpath_split_prefix p head tail :
  posixpath_split p = (head, tail) →
  (∃ rest, p = head +:+ rest)
  ∧ String.length head + String.length tail ≤ String.length p
  ∧ (head = "" ∨ is_root head = true ∨ leads_to head p).
Proof.
  unfold posixpath_split.
  destruct (split_last p) as [[h t]|] eqn:E.
  - apply split_last_Some in E. cbn zeta.
    assert (p = (h +:+ "/") +:+ t) as Hp.
    { rewrite append_assoc. done. }
    destruct (all_slashes (h +:+ "/")) eqn:Ha; intros [= <- <-].
    + split; [by exists t|]. split.
      { rewrite Hp, !length_append. simpl. lia. }
      right; left. unfold is_root, nonempty. rewrite Ha.
      destruct h; done.
    + destruct (rstrip_slashes_suffix (h +:+ "/")) as (z & Hz & Hs).
      split; [|split].
      * exists (z +:+ t). rewrite <- append_assoc, <- Hs. done.
      * rewrite Hp, (length_append (h +:+ "/") t).
        rewrite Hs at 2. rewrite (length_append (rstrip_slashes _) z). lia.
      * right; right.
        destruct (all_slashes_cons z Hz) as [->|[z' ->]].
        { rewrite append_empty_r in Hs.
          pose proof (rstrip_slashes_end (h +:+ "/")) as He.
          rewrite <- Hs in He.
          change (h +:+ "/") with (h +:+ String slash "") in He.
          by rewrite endswith_char_append in He. }
        exists (z' +:+ t).
        rewrite Hp. rewrite Hs at 1. rewrite append_assoc. done.
  - intros [= <- <-]. split; [by exists p|]. split; [simpl; lia|]. by left.
Qed.

Lemma leads_to_prefix a b c :
  leads_to a b → (∃ rest, c = b +:+ rest) → leads_to a c.
Proof.
  intros [r ->] [rest ->]. exists (r +:+ rest).
  rewrite append_assoc. done.
Qed.

Lemma leads_to_trans a b c : leads_to a b → leads_to b c → leads_to a c.
Proof.
  intros Hab [r Hc]. apply (leads_to_prefix a b c Hab). by eexists.
Qed.

Lemma makedirs_split_prefix name head tail :
  makedirs_split name = (head, tail) →
  String.length head + String.length tail ≤ String.length name
  ∧ (head = "" ∨ is_root head = true ∨ leads_to head name).
Proof.
  unfold makedirs_split.
  destruct (posixpath_split name) as [head0 tail0] eqn:E0.
  apply posixpath_split_prefix in E0 as (Hpre0 & Hlen0 & Hh0).
  case_bool_decide as Ht.
  - intros E1. apply posixpath_split_prefix in E1 as (Hpre1 & Hlen1 & Hh1).
    split; [lia|].
    destruct Hh1 as [->|[Hr|Hl]]; [by left|by right; left|].
    right; right. by apply (leads_to_prefix head head0 name).
  - intros [= <- <-]. done.
Qed.

Lemma parent_of_Some name head :
  parent_of name = Some head →
  String.length head < String.length name
  ∧ (is_root head = true ∨ leads_to head name).
Proof.
  unfold parent_of.
  destruct (makedirs_split name) as [h t] eqn:E.
  apply makedirs_split_prefix in E as (Hlen & Hh).
  destruct (nonempty h) eqn:Hn; [|done].
  destruct (nonempty t) eqn:Hn'; [|done].
  intros [= <-]. split.
  - destruct t; [done|]. simpl in Hlen. lia.
  - destruct Hh as [->|[Hr|Hl]]; [done|by left|by right].
Qed.

(** *** The file system grows *)

Lemma extends_refl f : extends f f.
Proof. by split. Qed.

Lemma extends_trans f g h : extends f g → extends g h → extends f h.
Proof. intros [H1 H2] [H3 H4]. split; [by etrans|congruence]. Qed.

Lemma extends_add_dir name f : extends f (add_dir name f).
Proof. split; simpl; [set_solver|done]. Qed.

Lemma add_dir_elem name f : name ∈ dirs f → add_dir name f = f.
Proof.
  intros Hin. destruct f as [ds fl]. unfold add_dir. simpl in *. f_equal.
  apply subseteq_union_1_L. by apply singleton_subseteq_l.
Qed.

Lemma extends_extends_upto m f g : extends f g → extends_upto m f g.
Proof. intros [Hd Hf]. split; [done|]. intros p _. by rewrite Hf. Qed.

Lemma extends_upto_le m m' f g :
  m' ≤ m → extends_upto m f g → extends_upto m' f g.
Proof. intros Hle [Hd Hf]. split; [done|]. intros p Hp. apply Hf. lia. Qed.

Lemma extends_upto_trans m f g h :
  extends f g → extends_upto m g h → extends_upto m f h.
Proof.
  intros [H1 H2] [H3 H4]. split; [by etrans|].
  intros p Hp. by rewrite (H4 p Hp), H2.
Qed.

Lemma path_isdir_extends m f g p :
  extends_upto m f g → path_isdir f p = true → path_isdir g p = true.
Proof.
  intros [Hd _]. unfold path_isdir.
  intros [->|Hp%bool_decide_eq_true]%orb_true_iff; [done|].
  rewrite bool_decide_eq_true_2; [apply orb_true_r|]. by apply Hd.
Qed.

Lemma path_isfile_extends m f g p :
  extends_upto m f g → String.length p ≤ m →
  path_isfile g p = path_isfile f p.
Proof. intros [_ Hf] Hp. unfold path_isfile. by rewrite (Hf p Hp). Qed.

Lemma path_exists_extends m f g p :
  extends_upto m f g → String.length p ≤ m →
  path_exists f p = true → path_exists g p = true.
Proof.
  intros Hfg Hp. unfold path_exists.
  intros [H|H]%orb_true_iff.
  - by rewrite (path_isdir_extends m f g p Hfg H).
  - rewrite (path_isfile_extends m f g p Hfg Hp), H. apply orb_true_r.
Qed.

Lemma path_isdir_exists f p : path_isdir f p = true → path_exists f p = true.
Proof. unfold path_exists. by intros ->. Qed.

Lemma path_isdir_add_dir name f : path_isdir (add_dir name f) name = true.
Proof.
  unfold path_isdir. rewrite (bool_decide_eq_true_2 (name ∈ _)).
  - apply orb_true_r.
  - simpl. set_solver.
Qed.

Section Makedirs.
Variable w : world.

Lemma mkdir_inr name f f' :
  mkdir w name f = inr f' → f' = add_dir name f.
Proof.
  unfold mkdir. destruct (path_exists f name); [done|].
  destruct (parent_of name) as [head|].
  - destruct (path_isfile f head); [done|].
    destruct (negb (path_isdir f head)); [done|].
    destruct (makedirs_error w name); [done|]. by intros [= <-].
  - destruct (makedirs_error w name); [done|]. by intros [= <-].
Qed.

(** What [mkdir] raises on a name that is free is decided by the parent
    and by the oracle, and a [FileExistsError] then comes from the
    oracle. *)
Lemma mkdir_again name f g e :
  mkdir w name f = inl e →
  is_FileExistsError e = true →
  extends_upto (String.length name) f g →
  ∃ e', mkdir w name g = inl e' ∧ is_FileExistsError e' = true.
Proof.
  intros Hm He Hfg. unfold mkdir in *.
  destruct (path_exists g name) eqn:Hg; [by eexists|].
  destruct (path_exists f name) eqn:Hf.
  { by rewrite (path_exists_extends _ f g name Hfg) in Hg. }
  destruct (parent_of name) as [head|] eqn:Hp.
  - apply parent_of_Some in Hp as [Hlen _].
    rewrite (path_isfile_extends _ f g head Hfg) by lia.
    destruct (path_isfile f head); [by injection Hm as <-|].
    destruct (path_isdir f head) eqn:Hd; simpl in Hm; [|by injection Hm as <-].
    rewrite (path_isdir_extends _ f g head Hfg Hd). simpl.
    destruct (makedirs_error w name); [|done]. by eexists.
  - destruct (makedirs_error w name); [|done]. by eexists.
Qed.

Lemma makedirs_leaf_inv name f f1 r :
  makedirs_leaf w name f = (f1, r) →
  (f1 = f ∨ f1 = add_dir name f)
  ∧ (r = None → path_isdir f1 name = true).
Proof.
  unfold makedirs_leaf.
  destruct (mkdir w name f) as [e|f'] eqn:Hm.
  - destruct (is_OSError e && path_isdir f name) eqn:Hs; intros [= <- <-].
    + apply andb_true_iff in Hs as [_ Hs]. split; [by left|done].
    + split; [by left|done].
  - intros [= <- <-]. apply mkdir_inr in Hm as ->.
    split; [by right|]. intros _. apply path_isdir_add_dir.
Qed.

Lemma makedirs_leaf_isdir name g :
  path_isdir g name = true → makedirs_leaf w name g = (g, None).
Proof.
  intros Hd. unfold makedirs_leaf, mkdir.
  rewrite (path_isdir_exists g name Hd). simpl. by rewrite Hd.
Qed.

Lemma makedirs_leaf_again name f f1 r g :
  makedirs_leaf w name f = (f1, r) →
  quiet r = true →
  extends_upto (String.length name) f1 g →
  ∃ r', makedirs_leaf w name g = (g, r') ∧ quiet r' = true
        ∧ (r = None → r' = None).
Proof.
  intros Hl Hq Hg.
  destruct r as [e|].
  - (* a [FileExistsError] that was not passed over *)
    unfold makedirs_leaf in Hl.
    destruct (mkdir w name f) as [e0|f'] eqn:Hm; [|done].
    destruct (is_OSError e0 && path_isdir f name); [done|].
    injection Hl as <- <-.
    destruct (mkdir_again name f g e0 Hm Hq Hg) as (e' & Hm' & He').
    unfold makedirs_leaf. rewrite Hm'.
    destruct (is_OSError e' && path_isdir g name); eexists; (split; [done|]).
    + done.
    + by split.
  - apply makedirs_leaf_inv in Hl as [_ Hd]. specialize (Hd eq_refl).
    exists None. rewrite makedirs_leaf_isdir; [done|].
    by apply (path_isdir_extends (String.length name) f1 g).
Qed.

Lemma makedirs_after_inv name f f1 r :
  makedirs_after w name f = (f1, r) →
  (f1 = f ∨ f1 = add_dir name f)
  ∧ (r = None → path_isdir f1 name = true).
Proof.
  unfold makedirs_after. case_bool_decide.
  - intros [= <- <-]. split; [by right|]. intros _. apply path_isdir_add_dir.
  - apply makedirs_leaf_inv.
Qed.

Lemma makedirs_after_again name f f1 r g :
  makedirs_after w name f = (f1, r) →
  quiet r = true →
  extends_upto (String.length name) f1 g →
  (∃ r', makedirs_after w name g = (g, r') ∧ quiet r' = true
         ∧ (r = None → r' = None))
  ∧ (∃ r', makedirs_leaf w name g = (g, r') ∧ quiet r' = true
           ∧ (r = None → r' = None)).
Proof.
  unfold makedirs_after. case_bool_decide as Ht.
  - intros [= <- <-] _ Hg.
    assert (name ∈ dirs g) as Hin.
    { destruct Hg as [Hd _]. simpl in Hd. set_solver. }
    split.
    + exists None. by rewrite (add_dir_elem name g Hin).
    + exists None. rewrite makedirs_leaf_isdir; [done|].
      unfold path_isdir. rewrite (bool_decide_eq_true_2 _ Hin).
      apply orb_true_r.
  - intros Hl Hq Hg. split; by apply (makedirs_leaf_again name f f1 r g).
Qed.

Lemma makedirs_inv n name f f1 r :
  makedirs w n name f = (f1, r) →
  extends f f1
  ∧ (∀ d, d ∈ dirs f1 → d ∈ dirs f ∨ d = name ∨ leads_to d name)
  ∧ (r = None → path_isdir f1 name = true).
Proof.
  revert name f f1 r. induction n as [|n IH]; intros name f f1 r.
  - assert (makedirs w 0 name f = makedirs_leaf w name f) as ->.
    { simpl. by destruct (parent_of name). }
    intros [[->| ->] Hd]%makedirs_leaf_inv.
    + split; [apply extends_refl|]. split; [by left|done].
    + split; [apply extends_add_dir|]. split; [|done].
      simpl. intros d [->%elem_of_singleton|Hd']%elem_of_union; auto.
  - simpl. destruct (parent_of name) as [head|] eqn:Hp.
    2:{ intros [[->| ->] Hd]%makedirs_leaf_inv.
        + split; [apply extends_refl|]. split; [by left|done].
        + split; [apply extends_add_dir|]. split; [|done].
          simpl. intros d [->%elem_of_singleton|Hd']%elem_of_union; auto. }
    destruct (path_exists f head) eqn:Hex.
    { intros [[->| ->] Hd]%makedirs_leaf_inv.
      + split; [apply extends_refl|]. split; [by left|done].
      + split; [apply extends_add_dir|]. split; [|done].
        simpl. intros d [->%elem_of_singleton|Hd']%elem_of_union; auto. }
    destruct (makedirs w n head f) as [fi ri] eqn:Hin.
    apply IH in Hin as (Hext & Hdirs & _).
    apply parent_of_Some in Hp as [_ Hlead].
    assert (leads_to head name) as Hhead.
    { destruct Hlead as [Hr|Hl]; [|done].
      unfold path_exists, path_isdir in Hex. by rewrite Hr in Hex. }
    assert (∀ d, d ∈ dirs fi → d ∈ dirs f ∨ d = name ∨ leads_to d name) as Hdirs'.
    { intros d Hd. destruct (Hdirs d Hd) as [?|[->|Hl]]; auto.
      right; right. by apply (leads_to_trans d head name). }
    assert (∀ f1 r, makedirs_after w name fi = (f1, r) →
              extends f f1
              ∧ (∀ d, d ∈ dirs f1 → d ∈ dirs f ∨ d = name ∨ leads_to d name)
              ∧ (r = None → path_isdir f1 name = true)) as Hafter.
    { intros g1 r1 [[->| ->] Hd]%makedirs_after_inv.
      - done.
      - split; [|split; [|done]].
        + apply (extends_trans f fi); [done|apply extends_add_dir].
        + simpl. intros d [->%elem_of_singleton|Hd']%elem_of_union; auto. }
    destruct ri as [e|]; [|by apply Hafter].
    destruct (is_FileExistsError e); [by apply Hafter|].
    intros [= <- <-]. done.
Qed.

Lemma makedirs_again n name f f1 r g :
  makedirs w n name f = (f1, r) →
  quiet r = true →
  extends_upto (String.length name) f1 g →
  ∃ r', makedirs w n name g = (g, r') ∧ quiet r' = true
        ∧ (r = None → r' = None).
Proof.
  revert name f f1 r g. induction n as [|n IH]; intros name f f1 r g.
  - assert (∀ f, makedirs w 0 name f = makedirs_leaf w name f) as E.
    { intros f0. simpl. by destruct (parent_of name). }
    rewrite !E. apply makedirs_leaf_again.
  - simpl. destruct (parent_of name) as [head|] eqn:Hp;
      [|apply makedirs_leaf_again].
    destruct (path_exists f head) eqn:Hex.
    { intros Hl Hq Hg.
      assert (extends_upto (String.length name) f g) as Hfg.
      { apply (extends_upto_trans _ f f1); [|done].
        apply makedirs_leaf_inv in Hl as [[->| ->] _];
          [apply extends_refl|apply extends_add_dir]. }
      apply parent_of_Some in Hp as [Hlen _].
      rewrite (path_exists_extends _ f g head Hfg) by (done || lia).
      by apply (makedirs_leaf_again name f f1 r g). }
    destruct (makedirs w n head f) as [fi ri] eqn:Hin.
    intros Hl Hq Hg.
    apply parent_of_Some in Hp as [Hlen _].
    assert (quiet ri = true ∧ makedirs_after w name fi = (f1, r)) as [Hqi Ha].
    { destruct ri as [e|]; [|done]. simpl.
      destruct (is_FileExistsError e) eqn:He; [done|].
      injection Hl as <- <-. simpl in Hq. congruence. }
    assert (extends_upto (String.length head) fi g) as Hig.
    { apply (extends_upto_le (String.length name)); [lia|].
      apply (extends_upto_trans _ fi f1); [|done].
      apply makedirs_after_inv in Ha as [[->| ->] _];
        [apply extends_refl|apply extends_add_dir]. }
    destruct (makedirs_after_again name fi f1 r g Ha Hq Hg) as [Hafter Hleaf].
    destruct (path_exists g head); [done|].
    destruct (IH head f fi ri g Hin Hqi Hig) as (ri' & -> & Hqi' & _).
    destruct ri' as [e'|]; [|done].
    simpl in Hqi'. by rewrite Hqi'.
Qed.

(** The recursion of [os.makedirs] is never cut short: the head is
    shorter than the name, so the length of the name is fuel enough and
    more fuel changes nothing. *)
Lemma makedirs_fuel n m name f :
  String.length name ≤ n → String.length name ≤ m →
  makedirs w n name f = makedirs w m name f.
Proof.
  revert m name f. induction n as [|n IH]; intros m name f Hn Hm.
  - destruct name; [|simpl in Hn; lia].
    destruct m; reflexivity.
  - destruct m as [|m].
    { destruct name; [reflexivity|simpl in Hm; lia]. }
    simpl. destruct (parent_of name) as [head|] eqn:Hp; [|done].
    apply parent_of_Some in Hp as [Hlen _].
    by rewrite (IH m head f) by lia.
Qed.

Lemma os_makedirs_inr path f f' :
  os_makedirs w path f = inr f' →
  extends f f'
  ∧ (∀ d, d ∈ dirs f' → d ∈ dirs f ∨ d = path ∨ leads_to d path)
  ∧ path_isdir f' path = true.
Proof.
  unfold os_makedirs.
  destruct (makedirs w (String.length path) path f) as [f1 [e|]] eqn:Hm; [done|].
  intros [= <-]. apply makedirs_inv in Hm as (H1 & H2 & H3). auto.
Qed.

Lemma os_makedirs_again path f f' g :
  os_makedirs w path f = inr f' →
  extends_upto (String.length path) f' g →
  os_makedirs w path g = inr g.
Proof.
  unfold os_makedirs.
  destruct (makedirs w (String.length path) path f) as [f1 [e|]] eqn:Hm; [done|].
  intros [= <-] Hg.
  destruct (makedirs_again _ _ _ _ _ g Hm eq_refl Hg) as (r' & -> & _ & Hr).
  by rewrite Hr.
Qed.

End Makedirs.

(** ** The claims about the coordinator *)

(** C1. Failures stay inside their task.  Under a positive cap, once the
    setup has gone through, [download_files] returns whatever the network
    and the disk do to the single downloads; every way it can end is a
    normal return (never an exception of a task), and the list returned
    has exactly [N - M] file names, for [N] links of which [M] fail at the
    fetch or at the write.  No state of a run is a dead end: the remaining
    tasks can always be brought to their end. *)
Theorem failures_do_not_escape w links radar year month day max_concurrent f out
    σ0 ts0 :
  (0 < max_concurrent)%Z →
  launch w links radar year month day max_concurrent f out = Launched σ0 ts0 →
  (∃ o, download_files w links radar year month day max_concurrent f out (inr o))
  ∧ (∀ res,
       download_files w links radar year month day max_concurrent f out res →
       ∃ o, res = inr o
            ∧ length (downloaded o)
              = length links
                - failures w (output_dir_name radar year month day) links)
  ∧ (∀ s, steps w (σ0, ts0) s →
          ∃ s', steps w s s' ∧ is_Some (gathered s'.2)).
Proof.
  intros Hcap Hlaunch. split; [|split].
  - by eapply download_files_returns.
  - intros res Hres.
    destruct (download_files_outcome w _ _ _ _ _ _ _ _ _ _ Hlaunch res Hres)
      as (σ & -> & _). eexists. split; [done|]. simpl.
    pose proof (successes_failures w links (output_dir_name radar year month day)).
    lia.
  - intros [σ ts] Hsteps.
    destruct (run_invariants w _ _ _ _ _ _ _ _ _ _ Hlaunch _ _ Hsteps)
      as (Hadm & Hres & _).
    destruct (can_finish w _ _ Hcap Hadm) as ([σ' ts'] & Hsteps' & Hdone).
    exists (σ', ts'). split; [done|]. simpl.
    assert (steps w (σ0, ts0) (σ', ts')) as Hall by (by etrans).
    destruct (run_invariants w _ _ _ _ _ _ _ _ _ _ Hlaunch _ _ Hall)
      as (_ & Hres' & _).
    exists (results w (output_dir_name radar year month day) links).
    apply gathered_Some. by apply (settled_tasks w).
Qed.

Lemma failures_do_not_escape_witness :
  ∃ o, download_files world_b_fails sample_links "KHTX" "2025" "03" "15" 20
         empty_fs [] (inr o).
Proof.
  destruct (launch world_b_fails sample_links "KHTX" "2025" "03" "15" 20
              empty_fs []) as [e f'|σ0 ts0] eqn:Hl; [discriminate Hl|].
  exact (proj1 (failures_do_not_escape world_b_fails sample_links
                  "KHTX" "2025" "03" "15" 20 empty_fs [] σ0 ts0
                  ltac:(lia) Hl)).
Defined.

(** C3. The concurrency cap.  In every state of every run of
    [download_files], the tasks inside [async with sem] are at most
    [max_concurrent], and so are the tasks waiting on a fetch or a write,
    which are among them; the semaphore holds the permits not handed out,
    and a task enters only by acquiring one. *)
Theorem cap_respected w links radar year month day max_concurrent f out
    σ0 ts0 σ ts :
  launch w links radar year month day max_concurrent f out = Launched σ0 ts0 →
  steps w (σ0, ts0) (σ, ts) →
  active ts ≤ holders ts
  ∧ (Z.of_nat (holders ts) ≤ max_concurrent)%Z
  ∧ (Z.of_nat (active ts) ≤ max_concurrent)%Z
  ∧ (sem_value σ = max_concurrent - Z.of_nat (holders ts))%Z
  ∧ (∀ i url, links !! i = Some url →
        ∃ k, ts0 !! i = Some (Await SemAcquire k)).
Proof.
  intros Hlaunch Hsteps.
  destruct (run_invariants w _ _ _ _ _ _ _ _ _ _ Hlaunch _ _ Hsteps)
    as ((_ & Hs & Hc & _) & _). simpl in Hs, Hc.
  assert (active ts ≤ holders ts) as Hle.
  { apply tally_le. intros i c _.
    destruct c as [r|e|X ev k]; [cbn; lia..|]. destruct ev; cbn; lia. }
  repeat split; try lia.
  intros i url Hi.
  destruct (launch_Launched w _ _ _ _ _ _ _ _ _ _ Hlaunch) as (-> & _).
  rewrite list_lookup_fmap, Hi. simpl. unfold bounded_download, async_with.
  eauto.
Qed.

Lemma cap_respected_witness :
  let '(σ, ts) :=
    run_first world_ok 3
      {| sem_value := 2;
         progress_tracker := AsyncDownloadProgress_init 3;
         fs := {| dirs := {["KHTX_2025_03_15"]}; files := ∅ |};
         stdout := [] |}
      ((λ link, bounded_download link "KHTX_2025_03_15") <$> sample_links) in
  (Z.of_nat (holders ts) ≤ 2)%Z ∧ (Z.of_nat (active ts) ≤ 2)%Z.
Proof.
  pose proof (run_first_steps world_ok 3
      {| sem_value := 2;
         progress_tracker := AsyncDownloadProgress_init 3;
         fs := {| dirs := {["KHTX_2025_03_15"]}; files := ∅ |};
         stdout := [] |}
      ((λ link, bounded_download link "KHTX_2025_03_15") <$> sample_links))
    as Hsteps.
  destruct (run_first world_ok 3 _ _) as [σ ts].
  destruct (cap_respected world_ok sample_links "KHTX" "2025" "03" "15" 2
              empty_fs [] _ _ σ ts eq_refl Hsteps) as (_ & H1 & H2 & _).
  split; assumption.
Defined.

(** C4. One task and one result per link.  [download_files] creates
    exactly one task for each of the [N] links, the number of tasks never
    changes, and under a positive cap the call returns; whenever it
    returns, all [N] tasks have returned, each with its own result: the
    successes returned and the failures add up to [N]. *)
Theorem one_result_per_link w links radar year month day max_concurrent f out
    σ0 ts0 :
  (0 < max_concurrent)%Z →
  launch w links radar year month day max_concurrent f out = Launched σ0 ts0 →
  length ts0 = length links
  ∧ (∀ i url, links !! i = Some url →
        ts0 !! i
        = Some (bounded_download url (output_dir_name radar year month day)))
  ∧ (∀ σ ts, steps w (σ0, ts0) (σ, ts) → length ts = length links)
  ∧ (∃ o, download_files w links radar year month day max_concurrent f out (inr o))
  ∧ (∀ o,
       download_files w links radar year month day max_concurrent f out (inr o) →
       ∃ σ rs,
         steps w (σ0, ts0) (σ, Ret <$> rs)
         ∧ length rs = length links
         ∧ downloaded o = successful rs
         ∧ length (downloaded o)
           + failures w (output_dir_name radar year month day) links
           = length links).
Proof.
  intros Hcap Hlaunch.
  destruct (launch_Launched w _ _ _ _ _ _ _ _ _ _ Hlaunch) as (Hts & _).
  split; [|split; [|split; [|split]]].
  - rewrite Hts. apply length_fmap.
  - intros i url Hi. rewrite Hts, list_lookup_fmap, Hi. done.
  - intros σ ts Hsteps.
    by destruct (run_invariants w _ _ _ _ _ _ _ _ _ _ Hlaunch _ _ Hsteps)
      as (_ & _ & _ & _ & ?).
  - by eapply download_files_returns.
  - intros o Ho.
    destruct (download_files_outcome w _ _ _ _ _ _ _ _ _ _ Hlaunch _ Ho)
      as (σ & [= ->] & Hsteps & _).
    exists σ, (results w (output_dir_name radar year month day) links).
    split; [done|]. split; [apply length_imap|]. split; [done|].
    apply successes_failures.
Qed.

Lemma one_result_per_link_witness :
  ∃ o, download_files world_b_fails sample_links "KHTX" "2025" "03" "15" 1
         empty_fs [] (inr o).
Proof.
  destruct (launch world_b_fails sample_links "KHTX" "2025" "03" "15" 1
              empty_fs []) as [e f'|σ0 ts0] eqn:Hl; [discriminate Hl|].
  destruct (one_result_per_link world_b_fails sample_links
              "KHTX" "2025" "03" "15" 1 empty_fs [] σ0 ts0 ltac:(lia) Hl)
    as (_ & _ & _ & H & _).
  exact H.
Defined.

(** The successes keep their order when the failures are filtered out. *)
Lemma successful_order (rs : list (option string)) i j a b :
  i < j → rs !! i = Some (Some a) → rs !! j = Some (Some b) →
  ∃ p q, p < q ∧ successful rs !! p = Some a ∧ successful rs !! q = Some b.
Proof.
  intros Hij Hi Hj. unfold successful.
  rewrite <- (take_drop_middle rs i (Some a) Hi).
  assert (drop (S i) rs !! (j - S i) = Some (Some b)) as Hj'.
  { rewrite lookup_drop. rewrite <- Hj. f_equal. lia. }
  rewrite <- (take_drop_middle _ _ _ Hj').
  rewrite (cons_middle (Some a)), (cons_middle (Some b)).
  rewrite !omap_app.
  change (omap id [Some a]) with [a]. change (omap id [Some b]) with [b].
  set (pre := omap id (take i rs)).
  set (mid := omap id (take (j - S i) (drop (S i) rs))).
  exists (length pre), (length pre + S (length mid)).
  split; [lia|]. split.
  - rewrite lookup_app_r by lia. by rewrite Nat.sub_diag.
  - rewrite lookup_app_r by lia.
    replace (length pre + S (length mid) - length pre) with (S (length mid)) by lia.
    simpl. rewrite lookup_app_r by lia. by rewrite Nat.sub_diag.
Qed.

(** C10. The list returned keeps the order of the links: when the links
    at positions [i < j] both succeed, the file name of the first stands
    before the file name of the second in the list returned. *)
Theorem link_order_preserved w links radar year month day max_concurrent f out
    o i j url_i url_j :
  download_files w links radar year month day max_concurrent f out (inr o) →
  i < j →
  links !! i = Some url_i →
  links !! j = Some url_j →
  succeeds w (output_dir_name radar year month day) i url_i = true →
  succeeds w (output_dir_name radar year month day) j url_j = true →
  ∃ p q, p < q
         ∧ downloaded o !! p = Some (filename_of url_i)
         ∧ downloaded o !! q = Some (filename_of url_j).
Proof.
  intros Ho Hij Hi Hj Hsi Hsj.
  destruct (launch w links radar year month day max_concurrent f out)
    as [e f'|σ0 ts0] eqn:Hlaunch.
  { inversion Ho; congruence. }
  destruct (download_files_outcome w _ _ _ _ _ _ _ _ _ _ Hlaunch _ Ho)
    as (σ & [= ->] & _). simpl.
  apply (successful_order _ i j); [done| |].
  - unfold results. rewrite list_lookup_imap, Hi. simpl.
    unfold result_at. by rewrite Hsi.
  - unfold results. rewrite list_lookup_imap, Hj. simpl.
    unfold result_at. by rewrite Hsj.
Qed.

Lemma link_order_preserved_witness :
  match download_files_first world_b_fails 40 sample_links
          "KHTX" "2025" "03" "15" 20 empty_fs [] with
  | Some (inr o) =>
      ∃ p q, p < q ∧ downloaded o !! p = Some "A.gz"
                   ∧ downloaded o !! q = Some "C.gz"
  | _ => False
  end.
Proof.
  destruct (download_files_first world_b_fails 40 sample_links
              "KHTX" "2025" "03" "15" 20 empty_fs []) as [[e|o]|] eqn:E.
  - vm_compute in E. discriminate E.
  - apply download_files_first_sound in E.
    exact (link_order_preserved world_b_fails sample_links
             "KHTX" "2025" "03" "15" 20 empty_fs [] o 0 2
             "http://h/A.gz" "http://h/C.gz" E ltac:(lia)
             eq_refl eq_refl eq_refl eq_refl).
  - vm_compute in E. discriminate E.
Defined.

(** C2, as the program has it.  A task updates the tracker exactly once
    when its download succeeds, with the file name derived from the link,
    and not at all when it fails; so when [download_files] returns, the
    completed count and the bar stand at the number of successes, out of
    a total of one per link. *)
Theorem completion_recorded_on_success w links radar year month day
    max_concurrent f out o :
  download_files w links radar year month day max_concurrent f out (inr o) →
  (∀ i url, links !! i = Some url →
     let c := bounded_download url (output_dir_name radar year month day) in
     if succeeds w (output_dir_name radar year month day) i url
     then Label (TrackerUpdate (Some (filename_of url))) ∈ trace_of w i c
          ∧ updates_of w i c = 1
     else updates_of w i c = 0)
  ∧ completed (progress_tracker (final o)) = length (downloaded o)
  ∧ n (progress_bar (progress_tracker (final o))) = length (downloaded o)
  ∧ total (progress_bar (progress_tracker (final o))) = length links
  ∧ completed (progress_tracker (final o))
    + failures w (output_dir_name radar year month day) links
    = length links.
Proof.
  intros Ho. split.
  - intros i url _ c. subst c.
    pose proof (updates_of_bounded_download w i url
                  (output_dir_name radar year month day)) as Hu.
    destruct (succeeds w _ i url) eqn:Hs; [|done]. split; [|done].
    unfold succeeds in Hs. apply andb_true_iff in Hs as [Hf Hw].
    apply bool_decide_eq_true in Hf as [data Hf]. unfold fetched in Hf.
    destruct (get_response w i url) as [e|r] eqn:Hget; [done|].
    case_bool_decide; [done|].
    destruct (body r) as [e|data'] eqn:Hbody; [done|].
    rewrite (trace_of_success w i url _ r data') by (done || lia).
    set_solver.
  - destruct (launch w links radar year month day max_concurrent f out)
      as [e f'|σ0 ts0] eqn:Hlaunch.
    { inversion Ho; congruence. }
    destruct (download_files_outcome w _ _ _ _ _ _ _ _ _ _ Hlaunch _ Ho)
      as (σ & [= ->] & _ & Hc & Hn & _ & Ht). simpl.
    pose proof (successes_failures w links (output_dir_name radar year month day)).
    repeat split; try done; lia.
Qed.

Lemma completion_recorded_on_success_witness :
  match download_files_first world_ok 40 sample_links
          "KHTX" "2025" "03" "15" 20 empty_fs [] with
  | Some (inr o) => completed (progress_tracker (final o)) = length (downloaded o)
  | _ => False
  end.
Proof.
  destruct (download_files_first world_ok 40 sample_links
              "KHTX" "2025" "03" "15" 20 empty_fs []) as [[e|o]|] eqn:E.
  - vm_compute in E. discriminate E.
  - apply download_files_first_sound in E.
    exact (proj1 (proj2 (completion_recorded_on_success world_ok sample_links
                           "KHTX" "2025" "03" "15" 20 empty_fs [] o E))).
  - vm_compute in E. discriminate E.
Defined.

(** C2 fails as stated: with links A, B, C and the fetch of B failing,
    [download_files] returns the names of A and C, and every such return
    leaves the tracker at 2 of 3; the failing task goes through no update
    of the tracker. *)
Lemma failed_download_not_counted :
  (∃ o, download_files world_b_fails sample_links "KHTX" "2025" "03" "15" 20
          empty_fs [] (inr o))
  ∧ (∀ o, download_files world_b_fails sample_links "KHTX" "2025" "03" "15" 20
            empty_fs [] (inr o) →
          downloaded o = ["A.gz"; "C.gz"]
          ∧ completed (progress_tracker (final o)) = 2
          ∧ total (progress_bar (progress_tracker (final o))) = 3)
  ∧ filter (λ l, is_update l = true)
      (trace_of world_b_fails 1
         (bounded_download "http://h/B.gz" "KHTX_2025_03_15")) = [].
Proof.
  split; [|split].
  - eapply download_files_returns; [reflexivity|lia].
  - intros o Ho.
    destruct (download_files_outcome world_b_fails sample_links
                "KHTX" "2025" "03" "15" 20 empty_fs [] _ _ eq_refl _ Ho)
      as (σ & [= ->] & _ & Hc & _ & _ & Ht).
    simpl. rewrite Hc, Ht. split; [|split]; reflexivity.
  - reflexivity.
Qed.

(** C5, as the program has it.  [download_files] has no check of its own
    on the cap.  A negative cap is refused by the semaphore constructor
    and an output directory that cannot be created by [os.makedirs]; in
    both cases the exception leaves [download_files] before any task
    exists, and the call can end in no other way. *)
Theorem setup_failure_before_tasks w links radar year month day max_concurrent
    f out :
  (max_concurrent < 0)%Z
  ∨ (∃ e, os_makedirs w (output_dir_name radar year month day) f = inl e) →
  ∃ e f',
    launch w links radar year month day max_concurrent f out = SetupFailure e f'
    ∧ download_files w links radar year month day max_concurrent f out (inl e)
    ∧ (∀ res,
         download_files w links radar year month day max_concurrent f out res →
         res = inl e).
Proof.
  intros Hbad.
  assert (∃ e f', launch w links radar year month day max_concurrent f out
                  = SetupFailure e f') as (e & f' & Hl).
  { unfold launch, Semaphore.
    destruct (os_makedirs w _ f) as [e|f1] eqn:Hmk; [eauto|].
    destruct Hbad as [Hneg|[e He]]; [|done].
    rewrite bool_decide_eq_true_2 by done. eauto. }
  exists e, f'. split; [done|]. split; [by eapply download_files_setup|].
  intros res Hres. inversion Hres; congruence.
Qed.

Lemma setup_failure_before_tasks_witness :
  ∃ e f',
    launch world_ok sample_links "KHTX" "2025" "03" "15" (-1) empty_fs []
    = SetupFailure e f'.
Proof.
  assert (-1 < 0)%Z as Hneg by lia.
  destruct (setup_failure_before_tasks world_ok sample_links
              "KHTX" "2025" "03" "15" (-1) empty_fs []
              (or_introl Hneg)) as (e & f' & H & _).
  exists e, f'. exact H.
Defined.

(** C5 fails as stated: a cap of 0 is not at least 1, yet no exception is
    raised at the setup and the task is created; it then waits for a
    permit for ever, so the call neither returns nor raises. *)
Lemma zero_cap_not_rejected :
  (∃ σ0 k,
     launch world_ok ["http://h/A.gz"] "KHTX" "2025" "03" "15" 0 empty_fs []
     = Launched σ0 [Await SemAcquire k])
  ∧ (∀ res,
       ¬ download_files world_ok ["http://h/A.gz"] "KHTX" "2025" "03" "15" 0
           empty_fs [] res).
Proof.
  split; [eexists _, _; reflexivity|].
  intros res Hres.
  inversion Hres as [e f' Hl|σ0 ts0 σ ts i e Hl Hsteps Hi
                    |σ0 ts0 σ ts rs Hl Hsteps Hg]; subst.
  - discriminate Hl.
  - injection Hl as <- <-.
    apply stuck_steps in Hsteps; [|reflexivity]. injection Hsteps as -> ->.
    destruct i as [|i]; discriminate Hi.
  - injection Hl as <- <-.
    apply stuck_steps in Hsteps; [|reflexivity]. injection Hsteps as -> ->.
    discriminate Hg.
Qed.

(** C6, as amended.  The empty link list.  Once the setup has gone
    through, [download_files] on no links returns the empty list and can
    do nothing else; no task exists, so the event loop makes no turn; the
    tracker keeps the total 0 it was built with and has counted nothing;
    no file is written and no directory is lost; the output directory
    exists, and a directory that is new is the output directory or one of
    the directories on the way to it, which [os.makedirs] makes when they
    are missing. *)
Theorem empty_links w radar year month day max_concurrent f out f' :
  (0 ≤ max_concurrent)%Z →
  os_makedirs w (output_dir_name radar year month day) f = inr f' →
  let σ0 := {| sem_value := max_concurrent;
               progress_tracker := AsyncDownloadProgress_init 0;
               fs := f'; stdout := out |} in
  launch w [] radar year month day max_concurrent f out = Launched σ0 []
  ∧ (∀ s, ¬ step w (σ0, []) s)
  ∧ (∀ res,
       download_files w [] radar year month day max_concurrent f out res
       ↔ res = inr {| downloaded := [];
                      final := set_tracker (close (progress_tracker σ0)) σ0 |})
  ∧ total (progress_bar (progress_tracker σ0)) = 0
  ∧ completed (progress_tracker σ0) = 0
  ∧ files f' = files f
  ∧ dirs f ⊆ dirs f'
  ∧ path_isdir f' (output_dir_name radar year month day) = true
  ∧ (∀ d, d ∈ dirs f' →
          d ∈ dirs f
          ∨ d = output_dir_name radar year month day
          ∨ leads_to d (output_dir_name radar year month day))
  ∧ stdout σ0 = out.
Proof.
  intros Hcap Hmk σ0.
  assert (launch w [] radar year month day max_concurrent f out = Launched σ0 [])
    as Hl.
  { unfold launch, Semaphore. rewrite Hmk.
    rewrite bool_decide_eq_false_2 by lia. done. }
  assert (∀ s, ¬ step w (σ0, []) s) as Hstuck.
  { intros s Hs. apply step_can_step in Hs. done. }
  split; [done|]. split; [done|]. split.
  - intros res. split.
    + intros Hres.
      inversion Hres as [e f1 Hl'|σ1 ts1 σ ts i e Hl' Hsteps Hi
                        |σ1 ts1 σ ts rs Hl' Hsteps Hg]; subst.
      * congruence.
      * rewrite Hl in Hl'. injection Hl' as <- <-.
        apply stuck_steps in Hsteps; [|done]. injection Hsteps as -> ->.
        done.
      * rewrite Hl in Hl'. injection Hl' as <- <-.
        apply stuck_steps in Hsteps; [|done]. injection Hsteps as -> ->.
        injection Hg as <-. done.
    + intros ->.
      by apply (download_files_return w [] radar year month day
                  max_concurrent f out σ0 [] σ0 [] [] Hl (rtc_refl _ _)).
  - apply os_makedirs_inr in Hmk as ([Hd Hf] & Hnew & Hdir). done.
Qed.

Lemma empty_links_witness :
  download_files world_ok [] "KHTX" "2025" "03" "15" 20 empty_fs []
    (inr {| downloaded := [];
            final := {| sem_value := 20;
                        progress_tracker := close (AsyncDownloadProgress_init 0);
                        fs := add_dir "KHTX_2025_03_15" empty_fs;
                        stdout := [] |} |}).
Proof.
  destruct (empty_links world_ok "KHTX" "2025" "03" "15" 20 empty_fs []
              (add_dir "KHTX_2025_03_15" empty_fs)
              ltac:(lia) ltac:(vm_compute; reflexivity)) as (_ & _ & H & _).
  apply H. reflexivity.
Defined.

(** C6 as stated fails when the name of the radar site has a slash in
    it: for the site [a/b] and no links, [download_files] leaves the
    directory [a] behind, which is not there before and is not the output
    directory [a/b_2025_03_15]. *)
Lemma parent_directory_created :
  download_files world_ok [] "a/b" "2025" "03" "15" 20 empty_fs []
    (inr {| downloaded := [];
            final := {| sem_value := 20;
                        progress_tracker := close (AsyncDownloadProgress_init 0);
                        fs := add_dir "a/b_2025_03_15" (add_dir "a" empty_fs);
                        stdout := [] |} |})
  ∧ "a" ∈ dirs (add_dir "a/b_2025_03_15" (add_dir "a" empty_fs))
  ∧ ("a" ∉ dirs empty_fs)
  ∧ "a" ≠ output_dir_name "a/b" "2025" "03" "15".
Proof.
  split; [|split; [|split]].
  - apply (download_files_return world_ok [] "a/b" "2025" "03" "15" 20
             empty_fs []
             {| sem_value := 20;
                progress_tracker := AsyncDownloadProgress_init 0;
                fs := add_dir "a/b_2025_03_15" (add_dir "a" empty_fs);
                stdout := [] |} []
             {| sem_value := 20;
                progress_tracker := AsyncDownloadProgress_init 0;
                fs := add_dir "a/b_2025_03_15" (add_dir "a" empty_fs);
                stdout := [] |} [] []).
    + vm_compute. reflexivity.
    + apply rtc_refl.
    + reflexivity.
  - simpl. set_solver.
  - simpl. set_solver.
  - done.
Qed.

(** ** The file name of a link *)

Lemma split_join sep s : join sep (split sep s) = s.
Proof.
  induction s as [|c s IH]; [done|]. simpl.
  pose proof (split_nonempty sep s) as Hne.
  destruct (Ascii.eqb c sep) eqn:Hc.
  - apply Ascii.eqb_eq in Hc as ->.
    destruct (split sep s) as [|x l]; [done|]. simpl in *.
    by rewrite append_empty_l, IH.
  - destruct (split sep s) as [|x l]; [done|].
    destruct l as [|y l]; simpl in *; rewrite ?append_cons; by rewrite <- IH.
Qed.

Lemma split_no_sep sep s :
  Forall (λ x, contains sep x = false) (split sep s).
Proof.
  induction s as [|c s IH]; simpl; [by repeat constructor|].
  destruct (Ascii.eqb c sep) eqn:Hc; [by constructor|].
  destruct (split sep s) as [|x l].
  { repeat constructor. simpl. by rewrite Hc. }
  inversion IH as [|?? Hx Hl]; subst. constructor; [|done].
  simpl. by rewrite Hc, Hx.
Qed.

Lemma join_last sep l x :
  last l = Some x →
  join sep l = x ∨ ∃ p, join sep l = p +:+ String sep x.
Proof.
  induction l as [|y l IH]; [done|].
  destruct l as [|z l].
  - simpl. intros [= ->]. by left.
  - intros Hl. right. change (last (y :: z :: l)) with (last (z :: l)) in Hl.
    change (join sep (y :: z :: l)) with (y +:+ String sep (join sep (z :: l))).
    destruct (IH Hl) as [->|[p ->]].
    + by exists y.
    + exists (y +:+ String sep p). clear.
      induction y as [|a y IHy]; [done|]. by rewrite !append_cons, IHy.
Qed.

(** The file name is the part of the link after its last slash. *)
Lemma filename_of_spec url :
  contains slash (filename_of url) = false
  ∧ (url = filename_of url ∨ ∃ p, url = p +:+ String slash (filename_of url)).
Proof.
  pose proof (last_split url) as Hlast. split.
  - apply last_Some_elem_of in Hlast.
    by apply (proj1 (Forall_forall _ _) (split_no_sep slash url)) in Hlast.
  - pose proof (join_last slash _ _ Hlast) as H.
    by rewrite split_join in H.
Qed.

Lemma open_wb_empty_name w i output_dir :
  open_wb w i (os_path_join output_dir "") ≠ None.
Proof.
  unfold open_wb, os_path_join. simpl.
  destruct (bool_decide (output_dir = "") || endswith_char slash output_dir)
    eqn:Hd.
  - rewrite append_empty_r. case_bool_decide; [done|].
    apply orb_true_iff in Hd as [Hd|Hd]; [done|]. by rewrite Hd.
  - rewrite (append_empty_r "/").
    change (output_dir +:+ "/") with (output_dir +:+ String slash "").
    rewrite (endswith_char_append slash output_dir). clear Hd.
    by case_bool_decide.
Qed.

Lemma written_filename w output_dir i url :
  written w output_dir i url = true → filename_of url ≠ "".
Proof.
  unfold written. intros [Ho _]%andb_true_iff Hname.
  apply bool_decide_eq_true in Ho. rewrite Hname in Ho.
  by apply open_wb_empty_name in Ho.
Qed.

(** ** The progress tracker *)

Lemma exec_on_exit w i {R S} (c : coro R) (kr : R → coro S) (ke : exn → coro S) σ :
  exec w i (on_exit c kr ke) σ
  = match exec w i c σ with
    | Some (inr r, σ') => exec w i (kr r) σ'
    | Some (inl e, σ') => exec w i (ke e) σ'
    | None => None
    end.
Proof.
  revert σ. induction c as [r|e|X ev k IH]; intros σ; simpl; [done..|].
  destruct (enabled ev σ); [|done]. apply IH.
Qed.

(** What [exec] computes is a run of the event loop in which only task
    [i] is resumed. *)
Lemma exec_steps w i (c : task) σ r σ' (ts : list task) :
  ts !! i = Some c →
  exec w i c σ = Some (r, σ') →
  steps w (σ, ts)
    (σ', <[i := match r with inl e => Raise e | inr x => Ret x end]> ts).
Proof.
  revert σ ts. induction c as [x|e|X ev k IH]; intros σ ts Hi; simpl.
  - intros [= <- <-]. rewrite list_insert_id by done. apply rtc_refl.
  - intros [= <- <-]. rewrite list_insert_id by done. apply rtc_refl.
  - destruct (enabled ev σ) eqn:Hen; [|done]. intros Hex.
    eapply rtc_l; [by apply step_task|].
    pose proof (lookup_lt_Some _ _ _ Hi) as Hlt.
    set (res := match r with inl e => Raise e | inr x => Ret x end).
    assert (<[i := res]> ts = <[i := res]> (<[i := k (answer w i ev)]> ts))
      as -> by (by rewrite list_insert_insert_eq).
    apply (IH (answer w i ev)); [|done]. by apply list_lookup_insert_eq.
Qed.

Lemma exec_update w i filename σ :
  lock (progress_tracker σ) = false →
  exec w i (update filename) σ
  = Some (inr (), set_tracker (update_body filename (progress_tracker σ)) σ).
Proof.
  intros Hlock. unfold update, async_with, await. cbn. rewrite Hlock. cbn.
  destruct σ as [sem [bar cnt lk] fsys out]. simpl in *. subst lk.
  reflexivity.
Qed.

Lemma exec_update_many w i k filename σ :
  lock (progress_tracker σ) = false →
  ∃ σ', exec w i (update_many k filename) σ = Some (inr (), σ')
        ∧ completed (progress_tracker σ') = completed (progress_tracker σ) + k
        ∧ lock (progress_tracker σ') = false
        ∧ total (progress_bar (progress_tracker σ'))
          = total (progress_bar (progress_tracker σ))
        ∧ (disable (progress_bar (progress_tracker σ)) = false →
           n (progress_bar (progress_tracker σ'))
           = n (progress_bar (progress_tracker σ)) + k
           ∧ disable (progress_bar (progress_tracker σ')) = false).
Proof.
  revert σ. induction k as [|k IH]; intros σ Hlock.
  - exists σ. simpl. repeat split; try done; lia.
  - change (update_many (S k) filename)
      with (on_exit (update filename) (λ _, update_many k filename) Raise).
    rewrite exec_on_exit, exec_update by done.
    destruct (IH (set_tracker (update_body filename (progress_tracker σ)) σ))
      as (σ' & Hex & Hc & Hl & Ht & Hn); [done|].
    exists σ'. split; [done|]. simpl in *. rewrite Hc, Ht.
    split; [lia|]. split; [done|]. split.
    { unfold tqdm_update. by repeat case_match. }
    intros Hd. unfold tqdm_update in Hn. rewrite Hd in Hn.
    destruct Hn as [Hn Hd']; [by case_match|]. split; [|done].
    rewrite Hn. case_match; simpl; lia.
Qed.

(** C8. The completed count only grows.  A call of [update] with the
    lock free ends normally and adds exactly one to the count; no turn
    of the event loop, whatever the tasks, lowers the count; in the runs
    of [download_files] at most one task is inside the lock at a time,
    and it is when the lock is held; and [k] calls in a row on a tracker
    built for [total_files] files end normally for every [k], also
    beyond [total_files], leaving count and bar at [k]. *)
Theorem completed_count_grows w :
  (∀ i filename σ,
     lock (progress_tracker σ) = false →
     ∃ σ', exec w i (update filename) σ = Some (inr (), σ')
           ∧ completed (progress_tracker σ') = completed (progress_tracker σ) + 1
           ∧ lock (progress_tracker σ') = false
           ∧ fs σ' = fs σ ∧ stdout σ' = stdout σ ∧ sem_value σ' = sem_value σ)
  ∧ (∀ s s', steps w s s' →
             completed (progress_tracker s.1) ≤ completed (progress_tracker s'.1))
  ∧ (∀ links radar year month day max_concurrent f out σ0 ts0 σ ts,
       launch w links radar year month day max_concurrent f out = Launched σ0 ts0 →
       steps w (σ0, ts0) (σ, ts) →
       critical ts ≤ 1
       ∧ (critical ts = 1 ↔ lock (progress_tracker σ) = true))
  ∧ (∀ i k total_files filename σ,
       progress_tracker σ = AsyncDownloadProgress_init total_files →
       ∃ σ', exec w i (update_many k filename) σ = Some (inr (), σ')
             ∧ completed (progress_tracker σ') = k
             ∧ n (progress_bar (progress_tracker σ')) = k
             ∧ total (progress_bar (progress_tracker σ')) = total_files).
Proof.
  split; [|split; [|split]].
  - intros i filename σ Hlock. eexists. split; [by apply exec_update|].
    simpl. done.
  - intros s s' Hsteps. induction Hsteps as [|s1 s2 s3 H12 _ IH]; [done|].
    pose proof (completed_mono_step w _ _ H12). lia.
  - intros links radar year month day cap f out σ0 ts0 σ ts Hlaunch Hsteps.
    destruct (run_invariants w _ _ _ _ _ _ _ _ _ _ Hlaunch _ _ Hsteps)
      as ((_ & _ & _ & Hl) & _). simpl in Hl. rewrite Hl.
    destruct (lock (progress_tracker σ)); simpl; split; try split; try done; lia.
  - intros i k total_files filename σ Htr.
    destruct (exec_update_many w i k filename σ) as (σ' & Hex & Hc & _ & Ht & Hn).
    { by rewrite Htr. }
    exists σ'. rewrite Htr in *. simpl in *.
    destruct Hn as [Hn _]; [done|]. repeat split; try done; lia.
Qed.

(** ** Link extraction *)

Lemma links_of_skip urljoin url (l1 l2 : list node) link :
  find "a" link = None →
  links_of urljoin url (l1 ++ link :: l2) = links_of urljoin url (l1 ++ l2).
Proof.
  intros Hnone. induction l1 as [|x l1 IH]; simpl.
  - by rewrite Hnone.
  - by rewrite IH.
Qed.

Lemma links_of_well_formed urljoin url (download_links : list node) :
  Forall (anchor_resolves urljoin url) download_links →
  links_of urljoin url download_links
  = inr (omap (λ link, address_of (link_of urljoin url link)) download_links).
Proof.
  induction 1 as [|link rest Hlink _ IH]; [done|]. simpl.
  unfold anchor_resolves in Hlink. unfold link_of at 1.
  destruct (find "a" link) as [a|]; [|done].
  destruct Hlink as (href & absolute & -> & ->). by rewrite IH.
Qed.

Lemma length_omap_link_of urljoin url (download_links : list node) :
  Forall (anchor_resolves urljoin url) download_links →
  length (omap (λ link, address_of (link_of urljoin url link)) download_links)
  = length (filter (λ link, is_Some (find "a" link)) download_links).
Proof.
  induction 1 as [|link rest Hlink _ IH]; [done|].
  change (omap (λ link, address_of (link_of urljoin url link)) (link :: rest))
    with (match address_of (link_of urljoin url link) with
          | Some y => y :: omap (λ link, address_of (link_of urljoin url link)) rest
          | None => omap (λ link, address_of (link_of urljoin url link)) rest
          end).
  unfold anchor_resolves in Hlink. unfold link_of at 1.
  destruct (find "a" link) as [a|] eqn:Ha.
  - destruct Hlink as (href & absolute & -> & ->).
    rewrite filter_cons_True by (rewrite Ha; eauto). simpl. by rewrite IH.
  - rewrite filter_cons_False; [done|]. rewrite Ha. by intros [? ?].
Qed.

(** C9, as amended.  A link container without an anchor is left out,
    wherever it stands.  When the page arrives, the parser accepts it,
    and the first anchor of every container that has one carries an
    [href] that [urljoin] accepts, the extraction returns normally: one
    joined link per container with an anchor, in the order of the page,
    and the empty list when the page has no container. *)
Theorem containers_without_anchor_skipped urljoin BeautifulSoup url
    status reason page_url html soup :
  status < 400 →
  BeautifulSoup html = inr soup →
  Forall (anchor_resolves urljoin url) (find_all "div" "bdpLink" soup) →
  let download_links := find_all "div" "bdpLink" soup in
  let got := inr (Page status reason page_url (inr html)) in
  fetch_download_links urljoin BeautifulSoup got url
  = inr (omap (λ link, address_of (link_of urljoin url link)) download_links)
  ∧ length (omap (λ link, address_of (link_of urljoin url link)) download_links)
    = length (filter (λ link, is_Some (find "a" link)) download_links)
  ∧ (download_links = [] →
     fetch_download_links urljoin BeautifulSoup got url = inr [])
  ∧ (∀ l1 l2 link,
       find "a" link = None →
       links_of urljoin url (l1 ++ link :: l2) = links_of urljoin url (l1 ++ l2)).
Proof.
  intros Hst Hsoup Hwf download_links got.
  assert (fetch_download_links urljoin BeautifulSoup got url
          = inr (omap (λ link, address_of (link_of urljoin url link))
                   download_links)) as Hfetch.
  { unfold fetch_download_links, got. simpl.
    rewrite bool_decide_eq_false_2 by lia. rewrite Hsoup.
    by apply links_of_well_formed. }
  split; [done|]. split; [by apply length_omap_link_of|]. split.
  - intros Hnil. rewrite Hfetch, Hnil. done.
  - intros l1 l2 link. apply links_of_skip.
Qed.

Lemma containers_without_anchor_skipped_witness :
  fetch_download_links sample_urljoin (λ _, inr soup_mixed)
    (inr (Page 200 "OK" sample_url (inr "<div class='bdpLink'>no file</div>")))
    sample_url
  = inr ["https://www.ncdc.noaa.gov/data/KHTX20250315_000000_V06"].
Proof.
  assert (200 < 400) as Hst by lia.
  assert (Forall (anchor_resolves sample_urljoin sample_url)
            (find_all "div" "bdpLink" soup_mixed)) as Hwf.
  { repeat constructor. vm_compute. eauto. }
  exact (proj1 (containers_without_anchor_skipped sample_urljoin
                  (λ _, inr soup_mixed) sample_url 200 "OK" sample_url
                  "<div class='bdpLink'>no file</div>" soup_mixed
                  Hst eq_refl Hwf)).
Defined.

(** C9 fails as stated: a container whose anchor has no [href] is not
    skipped; the lookup of the attribute raises [KeyError] and no list is
    returned. *)
Lemma anchor_without_href_raises :
  find_all "div" "bdpLink" soup_no_href
  = [ Tag "div" {[ "class" := "bdpLink" ]}
        [ Tag "a" ∅ [ NavigableString "KHTX20250315_000000_V06" ] ] ]
  ∧ fetch_download_links sample_urljoin (λ _, inr soup_no_href)
      (inr (Page 200 "OK" sample_url
              (inr "<div class='bdpLink'><a>KHTX20250315_000000_V06</a></div>")))
      sample_url
    = inl (KeyError "href").
Proof. split; vm_compute; reflexivity. Qed.

(** * Further properties of the pipeline *)

(** ** A failed download *)

Lemma first_error_None w output_dir i url :
  first_error w output_dir i url = None ↔ succeeds w output_dir i url = true.
Proof.
  unfold first_error, succeeds, fetched, written.
  assert (∀ b, bool_decide (is_Some (@None bytes)) && b = false) as Hnone.
  { intros b. rewrite bool_decide_eq_false_2; [done|]. by intros [? ?]. }
  destruct (get_response w i url) as [e|r].
  { by rewrite Hnone. }
  destruct (bool_decide (400 ≤ status r)).
  { by rewrite Hnone. }
  destruct (open_wb w i _) as [e|].
  { rewrite (bool_decide_eq_false_2 (Some e = None)) by done.
    by rewrite andb_false_r. }
  destruct (body r) as [e|data].
  { by rewrite Hnone. }
  destruct (write_error w i _) as [e|].
  { rewrite (bool_decide_eq_false_2 (Some e = None)) by done.
    by rewrite !andb_false_r. }
  rewrite !bool_decide_eq_true_2 by eauto. done.
Qed.

(** X1. A download that fails returns [None] after printing exactly one
    line, which names the link and the first exception met; it leaves the
    tracker, the semaphore and the directories as they are, and the files
    too unless its own file had already been opened. *)
Theorem failed_download_reports w i url output_dir σ :
  succeeds w output_dir i url = false →
  ∃ e σ',
    first_error w output_dir i url = Some e
    ∧ exec w i (download_file url output_dir) σ = Some (inr None, σ')
    ∧ stdout σ' = (stdout σ ++ [error_message w url e])%list
    ∧ progress_tracker σ' = progress_tracker σ
    ∧ sem_value σ' = sem_value σ
    ∧ dirs (fs σ') = dirs (fs σ)
    ∧ (opened w output_dir i url = false → fs σ' = fs σ).
Proof.
  intros Hs. apply not_true_iff_false in Hs.
  rewrite <- first_error_None in Hs.
  unfold first_error, opened in *.
  unfold download_file, try_except, update, async_with,
    await_sum, await_err, await, raise_for_status, index_last.
  rewrite last_split. cbn.
  destruct (get_response w i url) as [e|r]; cbn.
  { exists e. eexists. repeat split; reflexivity. }
  destruct (bool_decide (400 ≤ status r)) eqn:Hst; cbn.
  { eexists _, _. repeat split; reflexivity. }
  destruct (open_wb w i _) as [e|] eqn:Ho; cbn.
  { exists e. eexists. rewrite ?Ho. cbn. repeat split; reflexivity. }
  destruct (body r) as [e|data]; cbn.
  { exists e. eexists. rewrite ?Ho. cbn. repeat split; try reflexivity.
    intros Hop. cbn in Hop. done. }
  destruct (write_error w i _) as [e|] eqn:Hw; [|done]. cbn.
  exists e. eexists. rewrite ?Ho, ?Hw. cbn. repeat split; try reflexivity.
  intros Hop. cbn in Hop. done.
Qed.

Lemma failed_download_reports_witness :
  ∃ σ',
    exec world_b_fails 1 (download_file "http://h/B.gz" "KHTX_2025_03_15")
      {| sem_value := 19;
         progress_tracker := AsyncDownloadProgress_init 3;
         fs := {| dirs := {["KHTX_2025_03_15"]}; files := ∅ |};
         stdout := [] |}
    = Some (inr None, σ')
    ∧ stdout σ' = ["Error downloading http://h/B.gz: Cannot connect to host"].
Proof.
  destruct (failed_download_reports world_b_fails 1 "http://h/B.gz"
              "KHTX_2025_03_15"
              {| sem_value := 19;
                 progress_tracker := AsyncDownloadProgress_init 3;
                 fs := {| dirs := {["KHTX_2025_03_15"]}; files := ∅ |};
                 stdout := [] |} eq_refl)
    as (e & σ' & He & Hex & Hout & _).
  exists σ'. split; [exact Hex|]. injection He as <-. exact Hout.
Defined.

(** X2. The file is opened before the body is read.  When the response
    is below 400 and the file opens but reading the body raises, the
    download returns [None] and leaves the file empty, whatever it held
    before. *)
Theorem failed_read_truncates w i url output_dir r e σ :
  get_response w i url = inr r →
  status r < 400 →
  open_wb w i (os_path_join output_dir (filename_of url)) = None →
  body r = inl e →
  ∃ σ',
    exec w i (download_file url output_dir) σ = Some (inr None, σ')
    ∧ files (fs σ')
      = <[os_path_join output_dir (filename_of url) := []]> (files (fs σ))
    ∧ stdout σ' = (stdout σ ++ [error_message w url e])%list
    ∧ progress_tracker σ' = progress_tracker σ.
Proof.
  intros Hget Hst Ho Hbody.
  unfold download_file, try_except, update, async_with,
    await_sum, await_err, await, raise_for_status, index_last.
  rewrite last_split. cbn. rewrite Hget. cbn.
  rewrite bool_decide_eq_false_2 by lia. cbn.
  rewrite Ho. cbn. rewrite Hbody. cbn.
  eexists. repeat split; reflexivity.
Qed.

Lemma failed_read_truncates_witness :
  ∃ σ',
    exec world_read_fails 0 (download_file "http://h/A.gz" "KHTX_2025_03_15")
      {| sem_value := 19;
         progress_tracker := AsyncDownloadProgress_init 1;
         fs := {| dirs := {["KHTX_2025_03_15"]};
                  files := {[ "KHTX_2025_03_15/A.gz" := sample_data ]} |};
         stdout := [] |}
    = Some (inr None, σ')
    ∧ files (fs σ') !! "KHTX_2025_03_15/A.gz" = Some [].
Proof.
  assert (200 < 400) as Hst by lia.
  destruct (failed_read_truncates world_read_fails 0 "http://h/A.gz"
              "KHTX_2025_03_15"
              (Response 200 "OK" "http://h/A.gz"
                 (inl (ClientError "Response payload is not completed")))
              (ClientError "Response payload is not completed")
              {| sem_value := 19;
                 progress_tracker := AsyncDownloadProgress_init 1;
                 fs := {| dirs := {["KHTX_2025_03_15"]};
                          files := {[ "KHTX_2025_03_15/A.gz" := sample_data ]} |};
                 stdout := [] |} eq_refl Hst eq_refl eq_refl)
    as (σ' & Hex & Hfiles & _).
  exists σ'. split; [exact Hex|]. rewrite Hfiles. apply lookup_insert_eq.
Defined.

(** ** What the tasks of a batch can touch *)

Lemma bounded_download_confined url output_dir :
  confined (footprint url output_dir) (bounded_download url output_dir).
Proof.
  unfold bounded_download, download_file, async_with, try_except, update,
    await_sum, await_err, await, raise_for_status, index_last.
  rewrite last_split. cbn.
  split; [done|]. intros []. split; [done|]. intros [e|r]; cbn.
  { split; [done|]. intros []. done. }
  case_bool_decide; cbn.
  { split; [done|]. intros []. done. }
  split; [done|]. intros [e|]; cbn.
  { split; [done|]. intros []. done. }
  split; [done|]. intros [e|data]; cbn.
  { split; [done|]. intros []. done. }
  split; [done|]. intros [e|]; cbn.
  { split; [done|]. intros []. done. }
  split; [done|]. intros []. split; [done|]. intros []. split; [done|].
  intros []. done.
Qed.

Lemma tasks_confined_initial output_dir links :
  tasks_confined output_dir links
    ((λ link, bounded_download link output_dir) <$> links).
Proof.
  intros j c Hj. rewrite list_lookup_fmap in Hj.
  destruct (links !! j) as [url|] eqn:Hl; [|done]. injection Hj as <-.
  exists url. split; [done|]. apply bounded_download_confined.
Qed.

Lemma tasks_confined_step w output_dir links s s' :
  step w s s' →
  tasks_confined output_dir links s.2 → tasks_confined output_dir links s'.2.
Proof.
  destruct 1 as [σ ts i X ev k Hi Hen]. cbn [fst snd]. intros Hconf j c Hj.
  destruct (decide (i = j)) as [<-|Hne].
  - rewrite list_lookup_insert_eq in Hj by (by eapply lookup_lt_Some).
    injection Hj as <-.
    destruct (Hconf i _ Hi) as (url & Hl & _ & Hk). eauto.
  - rewrite list_lookup_insert_ne in Hj by done. eauto.
Qed.

Lemma tasks_confined_steps w output_dir links s s' :
  steps w s s' →
  tasks_confined output_dir links s.2 → tasks_confined output_dir links s'.2.
Proof. induction 1; eauto using tasks_confined_step. Qed.

(** An event of the task for [url] leaves the directories and every
    other path alone. *)
Lemma effect_frame w i X (ev : event X) url output_dir σ p :
  footprint url output_dir (Label ev) →
  dirs (fs (effect w i ev σ)) = dirs (fs σ)
  ∧ (p ≠ target output_dir url →
     files (fs (effect w i ev σ)) !! p = files (fs σ) !! p).
Proof.
  intros Hfoot. destruct ev; cbn in *; repeat case_match; cbn;
    (split; [done|]); intros Hp; try done;
    subst; by rewrite lookup_insert_ne.
Qed.

Lemma dirs_step w output_dir links s s' :
  step w s s' →
  tasks_confined output_dir links s.2 →
  dirs (fs s'.1) = dirs (fs s.1).
Proof.
  destruct 1 as [σ ts i X ev k Hi Hen]. cbn [fst snd]. intros Hconf.
  destruct (Hconf i _ Hi) as (url & _ & Hev & _).
  by apply (effect_frame w i X ev url output_dir σ "").
Qed.

Lemma files_step w output_dir links s s' p :
  step w s s' →
  tasks_confined output_dir links s.2 →
  (∀ j url, links !! j = Some url → p ≠ target output_dir url) →
  files (fs s'.1) !! p = files (fs s.1) !! p.
Proof.
  destruct 1 as [σ ts i X ev k Hi Hen]. cbn [fst snd]. intros Hconf Hp.
  destruct (Hconf i _ Hi) as (url & Hl & Hev & _).
  apply (effect_frame w i X ev url output_dir σ p); eauto.
Qed.

Lemma frame_steps w output_dir links s s' p :
  steps w s s' →
  tasks_confined output_dir links s.2 →
  dirs (fs s'.1) = dirs (fs s.1)
  ∧ ((∀ j url, links !! j = Some url → p ≠ target output_dir url) →
     files (fs s'.1) !! p = files (fs s.1) !! p).
Proof.
  induction 1 as [|s1 s2 s3 H12 _ IH]; [done|]. intros Hconf.
  pose proof (tasks_confined_step _ _ _ _ _ H12 Hconf) as Hconf2.
  destruct (IH Hconf2) as [Hd Hf]. split.
  - rewrite Hd. by eapply dirs_step.
  - intros Hp. rewrite (Hf Hp). by eapply files_step.
Qed.

(** ** The state [download_files] returns in *)

Lemma download_files_return_inv w links radar year month day max_concurrent
    f out o :
  download_files w links radar year month day max_concurrent f out (inr o) →
  ∃ σ0 ts0 σ,
    launch w links radar year month day max_concurrent f out = Launched σ0 ts0
    ∧ steps w (σ0, ts0)
        (σ, Ret <$> results w (output_dir_name radar year month day) links)
    ∧ o = {| downloaded :=
               successful (results w (output_dir_name radar year month day) links);
             final := set_tracker (close (progress_tracker σ)) σ |}.
Proof.
  intros Ho.
  destruct (launch w links radar year month day max_concurrent f out)
    as [e f'|σ0 ts0] eqn:Hlaunch.
  { inversion Ho; congruence. }
  destruct (download_files_outcome w _ _ _ _ _ _ _ _ _ _ Hlaunch _ Ho)
    as (σ & [= ->] & Hsteps & _).
  by exists σ0, ts0, σ.
Qed.

Lemma holders_settled (rs : list (option string)) : holders (Ret <$> rs) = 0.
Proof. unfold holders. rewrite tally_fmap. by apply tally_const_zero. Qed.

Lemma critical_settled (rs : list (option string)) : critical (Ret <$> rs) = 0.
Proof. unfold critical. rewrite tally_fmap. by apply tally_const_zero. Qed.

(** X3. No permit is lost.  When [download_files] returns, the semaphore
    is back at [max_concurrent], the lock of the tracker is free and the
    bar is closed. *)
Theorem permits_returned w links radar year month day max_concurrent f out o :
  download_files w links radar year month day max_concurrent f out (inr o) →
  sem_value (final o) = max_concurrent
  ∧ lock (progress_tracker (final o)) = false
  ∧ disable (progress_bar (progress_tracker (final o))) = true.
Proof.
  intros Ho.
  destruct (download_files_return_inv _ _ _ _ _ _ _ _ _ _ Ho)
    as (σ0 & ts0 & σ & Hlaunch & Hsteps & ->).
  destruct (run_invariants w _ _ _ _ _ _ _ _ _ _ Hlaunch _ _ Hsteps)
    as ((_ & _ & Hc & Hl) & _). cbn [fst snd] in Hc, Hl.
  rewrite holders_settled in Hc. rewrite critical_settled in Hl. simpl.
  split; [lia|]. split; [|done].
  by destruct (lock (progress_tracker σ)).
Qed.

Lemma permits_returned_witness :
  match download_files_first world_b_fails 40 sample_links
          "KHTX" "2025" "03" "15" 2 empty_fs [] with
  | Some (inr o) => sem_value (final o) = 2%Z
  | _ => False
  end.
Proof.
  destruct (download_files_first world_b_fails 40 sample_links
              "KHTX" "2025" "03" "15" 2 empty_fs []) as [[e|o]|] eqn:E.
  - vm_compute in E. discriminate E.
  - apply download_files_first_sound in E.
    exact (proj1 (permits_returned world_b_fails sample_links
                    "KHTX" "2025" "03" "15" 2 empty_fs [] o E)).
  - vm_compute in E. discriminate E.
Defined.

(** X4. The tracker never overshoots.  In every state of a run of
    [download_files] the bar is open, shows the completed count, has one
    unit per link as its total, and the count is at most that total. *)
Theorem completed_within_total w links radar year month day max_concurrent f out
    σ0 ts0 σ ts :
  launch w links radar year month day max_concurrent f out = Launched σ0 ts0 →
  steps w (σ0, ts0) (σ, ts) →
  n (progress_bar (progress_tracker σ)) = completed (progress_tracker σ)
  ∧ disable (progress_bar (progress_tracker σ)) = false
  ∧ total (progress_bar (progress_tracker σ)) = length links
  ∧ completed (progress_tracker σ) ≤ length links.
Proof.
  intros Hlaunch Hsteps.
  destruct (run_invariants w _ _ _ _ _ _ _ _ _ _ Hlaunch _ _ Hsteps)
    as (_ & _ & Hcnt & (Hn & Hd & Ht) & _).
  pose proof (successes_failures w links (output_dir_name radar year month day)).
  repeat split; try done. lia.
Qed.

Lemma completed_within_total_witness :
  let '(σ, ts) :=
    run_first world_ok 12
      {| sem_value := 2;
         progress_tracker := AsyncDownloadProgress_init 3;
         fs := {| dirs := {["KHTX_2025_03_15"]}; files := ∅ |};
         stdout := [] |}
      ((λ link, bounded_download link "KHTX_2025_03_15") <$> sample_links) in
  completed (progress_tracker σ) ≤ 3.
Proof.
  pose proof (run_first_steps world_ok 12
      {| sem_value := 2;
         progress_tracker := AsyncDownloadProgress_init 3;
         fs := {| dirs := {["KHTX_2025_03_15"]}; files := ∅ |};
         stdout := [] |}
      ((λ link, bounded_download link "KHTX_2025_03_15") <$> sample_links))
    as Hsteps.
  destruct (run_first world_ok 12 _ _) as [σ ts].
  destruct (completed_within_total world_ok sample_links "KHTX" "2025" "03" "15"
              2 empty_fs [] _ _ σ ts eq_refl Hsteps) as (_ & _ & _ & H).
  exact H.
Defined.

Lemma frame_at_return w links radar year month day max_concurrent f out o p :
  download_files w links radar year month day max_concurrent f out (inr o) →
  ∃ f', os_makedirs w (output_dir_name radar year month day) f = inr f'
        ∧ dirs (fs (final o)) = dirs f'
        ∧ ((∀ j url, links !! j = Some url →
                     p ≠ target (output_dir_name radar year month day) url) →
           files (fs (final o)) !! p = files f !! p).
Proof.
  intros Ho.
  destruct (download_files_return_inv _ _ _ _ _ _ _ _ _ _ Ho)
    as (σ0 & ts0 & σ & Hlaunch & Hsteps & ->).
  destruct (launch_Launched w _ _ _ _ _ _ _ _ _ _ Hlaunch)
    as (Hts & _ & _ & _ & Hmk & _).
  destruct (frame_steps w (output_dir_name radar year month day) links
              _ _ p Hsteps) as [Hd Hf].
  { cbn [snd]. rewrite Hts. apply tasks_confined_initial. }
  cbn [fst snd] in Hd, Hf. simpl.
  exists (fs σ0). split; [done|]. split; [done|].
  intros Hp. rewrite (Hf Hp).
  apply os_makedirs_inr in Hmk as ([_ ->] & _). done.
Qed.



(** ** What is on disk after a successful download *)

Lemma effect_files_ext w i X (ev : event X) σ σ' p :
  files (fs σ) !! p = files (fs σ') !! p →
  files (fs (effect w i ev σ)) !! p = files (fs (effect w i ev σ')) !! p.
Proof.
  intros Heq. destruct ev; cbn; repeat case_match; cbn; try done;
    rewrite !lookup_insert; by case_decide.
Qed.

Lemma finish_files_ext w i (c : task) σ σ' p :
  files (fs σ) !! p = files (fs σ') !! p →
  files (fs (finish w i c σ)) !! p = files (fs (finish w i c σ')) !! p.
Proof.
  revert σ σ'. induction c as [r|e|X ev k IH]; intros σ σ' Heq; simpl; [done..|].
  apply IH. by apply effect_files_ext.
Qed.

Lemma finish_success w i url output_dir data σ :
  fetched w i url = Some data →
  written w output_dir i url = true →
  files (fs (finish w i (bounded_download url output_dir) σ))
    !! target output_dir url = Some data.
Proof.
  unfold fetched, written, target. intros Hf [Ho Hwr]%andb_true_iff.
  apply bool_decide_eq_true in Ho, Hwr.
  destruct (get_response w i url) as [e|r] eqn:Hget; [done|].
  destruct (bool_decide (400 ≤ status r)) eqn:Hst; [done|].
  destruct (body r) as [e|data'] eqn:Hbody; [done|]. injection Hf as ->.
  unfold bounded_download, download_file, async_with, try_except, update,
    await_sum, await_err, await, raise_for_status, index_last.
  rewrite last_split. cbn. rewrite Hget. cbn. rewrite Hst. cbn.
  rewrite Ho. cbn. rewrite Hbody. cbn. rewrite Hwr. cbn.
  apply lookup_insert_eq.
Qed.

Lemma content_step w output_dir links i url data s s' :
  step w s s' →
  tasks_confined output_dir links s.2 →
  links !! i = Some url →
  (∀ j url', links !! j = Some url' → j ≠ i →
             target output_dir url' ≠ target output_dir url) →
  (∃ c, s.2 !! i = Some c
        ∧ files (fs (finish w i c s.1)) !! target output_dir url = Some data) →
  ∃ c', s'.2 !! i = Some c'
        ∧ files (fs (finish w i c' s'.1)) !! target output_dir url = Some data.
Proof.
  destruct 1 as [σ ts j X ev k Hj Hen]. cbn [fst snd].
  intros Hconf Hi Huniq (c & Hc & Hdata).
  destruct (decide (j = i)) as [->|Hne].
  - rewrite Hj in Hc. injection Hc as <-.
    exists (k (answer w i ev)). split; [|exact Hdata].
    apply list_lookup_insert_eq. by eapply lookup_lt_Some.
  - exists c. split; [by rewrite list_lookup_insert_ne|].
    rewrite <- Hdata. apply finish_files_ext.
    destruct (Hconf j _ Hj) as (url' & Hl & Hev & _).
    apply (effect_frame w j X ev url' output_dir σ). { exact Hev. }
    intros Heq. by apply (Huniq j url' Hl Hne).
Qed.

Lemma content_steps w output_dir links i url data s s' :
  steps w s s' →
  tasks_confined output_dir links s.2 →
  links !! i = Some url →
  (∀ j url', links !! j = Some url' → j ≠ i →
             target output_dir url' ≠ target output_dir url) →
  (∃ c, s.2 !! i = Some c
        ∧ files (fs (finish w i c s.1)) !! target output_dir url = Some data) →
  ∃ c', s'.2 !! i = Some c'
        ∧ files (fs (finish w i c' s'.1)) !! target output_dir url = Some data.
Proof.
  induction 1 as [|s1 s2 s3 H12 _ IH]; [by intros|]. intros Hconf Hi Huniq Hc.
  apply IH; [by eapply tasks_confined_step|done|done|].
  by eapply content_step.
Qed.

(** X6. The bytes are on disk.  When [download_files] returns, a link
    whose fetch and write succeeded, and whose target path is the target
    of no other link, has a file at that path holding the bytes received,
    whatever the order in which the tasks ran. *)
Theorem downloaded_file_on_disk w links radar year month day max_concurrent f out
    o i url data :
  download_files w links radar year month day max_concurrent f out (inr o) →
  links !! i = Some url →
  fetched w i url = Some data →
  written w (output_dir_name radar year month day) i url = true →
  (∀ j url', links !! j = Some url' → j ≠ i →
             target (output_dir_name radar year month day) url'
             ≠ target (output_dir_name radar year month day) url) →
  files (fs (final o)) !! target (output_dir_name radar year month day) url
  = Some data.
Proof.
  intros Ho Hi Hf Hw Huniq.
  destruct (download_files_return_inv _ _ _ _ _ _ _ _ _ _ Ho)
    as (σ0 & ts0 & σ & Hlaunch & Hsteps & ->).
  destruct (launch_Launched w _ _ _ _ _ _ _ _ _ _ Hlaunch) as (Hts & _).
  destruct (content_steps w (output_dir_name radar year month day) links
              i url data _ _ Hsteps) as (c & Hc & Hdata); try done.
  { cbn [snd]. rewrite Hts. apply tasks_confined_initial. }
  { cbn [fst snd]. eexists. split.
    - rewrite Hts, list_lookup_fmap, Hi. done.
    - by apply finish_success. }
  cbn [fst snd] in Hc, Hdata.
  rewrite list_lookup_fmap in Hc.
  destruct (results w _ links !! i) as [r|]; [|done]. injection Hc as <-.
  exact Hdata.
Qed.

Lemma downloaded_file_on_disk_witness :
  match download_files_first world_b_fails 40 sample_links
          "KHTX" "2025" "03" "15" 20 empty_fs [] with
  | Some (inr o) =>
      files (fs (final o)) !! "KHTX_2025_03_15/C.gz" = Some sample_data
  | _ => False
  end.
Proof.
  destruct (download_files_first world_b_fails 40 sample_links
              "KHTX" "2025" "03" "15" 20 empty_fs []) as [[e|o]|] eqn:E.
  - vm_compute in E. discriminate E.
  - apply download_files_first_sound in E.
    refine (downloaded_file_on_disk world_b_fails sample_links
              "KHTX" "2025" "03" "15" 20 empty_fs [] o 2 "http://h/C.gz"
              sample_data E eq_refl eq_refl eq_refl _).
    intros j url' Hj Hne.
    destruct j as [|[|[|j]]]; simpl in Hj; try discriminate Hj;
      try (injection Hj as <-; vm_compute; discriminate).
    by destruct Hne.
  - vm_compute in E. discriminate E.
Defined.

(** ** What a batch prints *)

Lemma prints_of_Await w i X (ev : event X) (k : X → task) :
  prints_of w i (Await ev k)
  = match printed w (Label ev) with
    | Some line => line :: prints_of w i (k (answer w i ev))
    | None => prints_of w i (k (answer w i ev))
    end.
Proof. unfold prints_of. cbn [trace_of]. by destruct ev. Qed.

Lemma stdout_effect w i X (ev : event X) σ :
  stdout (effect w i ev σ)
  = (stdout σ ++ match printed w (Label ev) with
                 | Some line => [line]
                 | None => []
                 end)%list.
Proof.
  destruct ev; cbn; repeat case_match; cbn; by rewrite ?app_nil_r.
Qed.

Lemma concat_imap_insert {A B} (g : nat → A → list B) l i x y m :
  l !! i = Some x →
  g i x = m :: g i y →
  concat (imap g l) ≡ₚ m :: concat (imap g (<[i := y]> l)).
Proof.
  revert g i. induction l as [|a l IH]; intros g i Hi Hg; [done|].
  destruct i as [|i]; simpl in *.
  - injection Hi as ->. by rewrite Hg.
  - rewrite (IH (g ∘ S) i Hi Hg). by rewrite Permutation_middle.
Qed.

Lemma prints_step w (out : list string) (all : list string) s s' :
  step w s s' →
  (∃ extra, stdout s.1 = (out ++ extra)%list
            ∧ (extra ++ concat (imap (prints_of w) s.2))%list ≡ₚ all) →
  ∃ extra', stdout s'.1 = (out ++ extra')%list
            ∧ (extra' ++ concat (imap (prints_of w) s'.2))%list ≡ₚ all.
Proof.
  destruct 1 as [σ ts i X ev k Hi Hen]. cbn [fst snd].
  intros (extra & Hout & Hperm).
  rewrite stdout_effect, Hout.
  pose proof (prints_of_Await w i X ev k) as Hp.
  destruct (printed w (Label ev)) as [line|].
  - exists (extra ++ [line])%list. split; [by rewrite app_assoc|].
    rewrite <- Hperm, <- app_assoc. apply Permutation_app_head. simpl.
    symmetry. by eapply concat_imap_insert.
  - exists extra. split; [by rewrite app_nil_r|].
    by rewrite (imap_insert_stable (prints_of w) ts i (Await ev k)).
Qed.

Lemma prints_steps w (out : list string) (all : list string) s s' :
  steps w s s' →
  (∃ extra, stdout s.1 = (out ++ extra)%list
            ∧ (extra ++ concat (imap (prints_of w) s.2))%list ≡ₚ all) →
  ∃ extra', stdout s'.1 = (out ++ extra')%list
            ∧ (extra' ++ concat (imap (prints_of w) s'.2))%list ≡ₚ all.
Proof. induction 1; eauto using prints_step. Qed.

Lemma prints_of_bounded_download w i url output_dir :
  prints_of w i (bounded_download url output_dir)
  = match first_error w output_dir i url with
    | Some e => [error_message w url e]
    | None => []
    end.
Proof.
  unfold first_error, prints_of.
  unfold bounded_download, download_file, async_with, try_except, update,
    await_sum, await_err, await, raise_for_status, index_last.
  rewrite last_split. cbn.
  destruct (get_response w i url) as [e|r]; cbn; [done|].
  destruct (bool_decide (400 ≤ status r)); cbn; [done|].
  destruct (open_wb w i _) as [e|]; cbn; [done|].
  destruct (body r) as [e|data]; cbn; [done|].
  destruct (write_error w i _) as [e|]; cbn; done.
Qed.

Lemma length_concat_imap {A B} (g : nat → A → list B) l :
  length (concat (imap g l)) = tally (λ i x, length (g i x)) l.
Proof.
  revert g. induction l as [|a l IH]; intros g; [done|].
  rewrite tally_cons. simpl. rewrite length_app. f_equal. apply IH.
Qed.

Lemma concat_imap_nil {A B} (g : nat → A → list B) l :
  (∀ i x, g i x = []) → concat (imap g l) = [].
Proof.
  revert g. induction l as [|a l IH]; intros g Hg; [done|].
  simpl. rewrite Hg. simpl. apply IH. intros i x. apply Hg.
Qed.

Lemma length_failure_messages w output_dir links :
  length (failure_messages w output_dir links) = failures w output_dir links.
Proof.
  unfold failure_messages, failures. rewrite length_concat_imap.
  apply tally_ext. intros i url _. rewrite fails_not_succeeds.
  pose proof (first_error_None w output_dir i url) as H.
  destruct (first_error w output_dir i url) as [e|];
    destruct (succeeds w output_dir i url); simpl; try done.
  - by destruct H as [_ H]; specialize (H eq_refl).
  - by destruct H as [H _]; specialize (H eq_refl).
Qed.

Lemma stdout_at_return w links radar year month day max_concurrent f out o :
  download_files w links radar year month day max_concurrent f out (inr o) →
  ∃ extra,
    stdout (final o) = (out ++ extra)%list
    ∧ extra ≡ₚ failure_messages w (output_dir_name radar year month day) links
    ∧ length extra = failures w (output_dir_name radar year month day) links.
Proof.
  intros Ho.
  destruct (download_files_return_inv _ _ _ _ _ _ _ _ _ _ Ho)
    as (σ0 & ts0 & σ & Hlaunch & Hsteps & ->).
  destruct (launch_Launched w _ _ _ _ _ _ _ _ _ _ Hlaunch)
    as (Hts & _ & _ & _ & _ & Hout).
  destruct (prints_steps w out
              (failure_messages w (output_dir_name radar year month day) links)
              _ _ Hsteps) as (extra & Hstd & Hperm).
  { exists []. cbn [fst snd]. split; [by rewrite app_nil_r|]. simpl.
    rewrite Hts, imap_fmap. unfold failure_messages.
    erewrite imap_ext; [done|].
    intros i url _. simpl. apply prints_of_bounded_download. }
  cbn [fst snd] in Hstd, Hperm.
  assert (concat (imap (prints_of w)
            (Ret <$> results w (output_dir_name radar year month day) links))
          = []) as Hnil.
  { rewrite imap_fmap. by apply concat_imap_nil. }
  rewrite Hnil, app_nil_r in Hperm.
  exists extra. simpl. split; [done|]. split; [done|].
  by rewrite Hperm, length_failure_messages.
Qed.

(** X7. One line per failure.  When [download_files] returns, the
    console holds what it held, followed by the messages of the links
    that failed, one for each failure and in some order: as many lines
    as failures, and no other. *)
Theorem one_message_per_failure w links radar year month day max_concurrent f out
    o :
  download_files w links radar year month day max_concurrent f out (inr o) →
  ∃ extra,
    stdout (final o) = (out ++ extra)%list
    ∧ extra ≡ₚ failure_messages w (output_dir_name radar year month day) links
    ∧ length extra = failures w (output_dir_name radar year month day) links.
Proof. apply stdout_at_return. Qed.

Lemma one_message_per_failure_witness :
  match download_files_first world_b_fails 40 sample_links
          "KHTX" "2025" "03" "15" 20 empty_fs ["Enter year (2025): "] with
  | Some (inr o) =>
      ∃ extra, stdout (final o) = ("Enter year (2025): " :: extra)
               ∧ length extra = 1
  | _ => False
  end.
Proof.
  destruct (download_files_first world_b_fails 40 sample_links
              "KHTX" "2025" "03" "15" 20 empty_fs ["Enter year (2025): "])
    as [[e|o]|] eqn:E.
  - vm_compute in E. discriminate E.
  - apply download_files_first_sound in E.
    destruct (one_message_per_failure world_b_fails sample_links
                "KHTX" "2025" "03" "15" 20 empty_fs ["Enter year (2025): "] o E)
      as (extra & Hout & _ & Hlen).
    exists extra. split; [exact Hout|exact Hlen].
  - vm_compute in E. discriminate E.
Defined.

(** ** Edge cases of the schedule *)

Lemma existsb_fmap_false {A B} (p : B → bool) (g : A → B) (l : list A) :
  (∀ x, p (g x) = false) → existsb p (g <$> l) = false.
Proof.
  intros H. induction l as [|a l IH]; [done|].
  rewrite fmap_cons. cbn [existsb]. rewrite H. exact IH.
Qed.

(** X8. A cap of 0 blocks the batch.  With [max_concurrent = 0], at
    least one link and a setup that goes through, [download_files]
    neither returns nor raises: every task waits for a permit that no
    task holds. *)
Theorem zero_cap_never_ends w links radar year month day f out f' :
  links ≠ [] →
  os_makedirs w (output_dir_name radar year month day) f = inr f' →
  ∀ res, ¬ download_files w links radar year month day 0 f out res.
Proof.
  intros Hne Hmk res Hres.
  assert (∃ σ0, launch w links radar year month day 0 f out
                = Launched σ0 ((λ link, bounded_download link
                                  (output_dir_name radar year month day)) <$> links)
                ∧ sem_value σ0 = 0%Z) as (σ0 & Hlaunch & Hsem).
  { unfold launch. rewrite Hmk. simpl. eauto. }
  assert (can_step σ0 ((λ link, bounded_download link
                          (output_dir_name radar year month day)) <$> links)
          = false) as Hstuck.
  { unfold can_step. apply existsb_fmap_false. intros url. simpl.
    rewrite Hsem. done. }
  inversion Hres as [e f1 Hl|σ1 ts1 σ ts i e Hl Hsteps Hi
                    |σ1 ts1 σ ts rs Hl Hsteps Hg]; subst.
  - congruence.
  - rewrite Hlaunch in Hl. injection Hl as <- <-.
    apply stuck_steps in Hsteps; [|done]. injection Hsteps as -> ->.
    rewrite list_lookup_fmap in Hi.
    destruct (links !! i); discriminate Hi.
  - rewrite Hlaunch in Hl. injection Hl as <- <-.
    apply stuck_steps in Hsteps; [|done]. injection Hsteps as -> ->.
    destruct links as [|url links]; [done|]. discriminate Hg.
Qed.

Lemma zero_cap_never_ends_witness :
  ¬ download_files world_ok sample_links "KHTX" "2025" "03" "15" 0 empty_fs []
      (inr {| downloaded := [];
              final := {| sem_value := 0;
                          progress_tracker := AsyncDownloadProgress_init 3;
                          fs := empty_fs; stdout := [] |} |}).
Proof.
  assert (sample_links ≠ []) as Hne by discriminate.
  exact (zero_cap_never_ends world_ok sample_links "KHTX" "2025" "03" "15"
           empty_fs [] _ Hne eq_refl _).
Defined.



(** ** The entry point *)

Lemma read_answers_short strip stdin out :
  length stdin < 4 →
  read_answers strip stdin out
  = ((out ++ take (S (length stdin)) prompts)%list, None).
Proof.
  intros Hlen. destruct stdin as [|l1 [|l2 [|l3 [|l4 rest]]]];
    simpl in Hlen; try lia; unfold read_answers, input; simpl;
    by rewrite <- ?app_assoc.
Qed.

Lemma read_answers_four strip l1 l2 l3 l4 rest out :
  read_answers strip (l1 :: l2 :: l3 :: l4 :: rest) out
  = ((out ++ prompts)%list,
     Some {| radar_site := strip l1; months_in := strip l2;
             day_in := strip l3; year_in := strip l4 |}).
Proof. unfold read_answers, input. simpl. by rewrite <- !app_assoc. Qed.

(** X11. [main] asks four questions.  With fewer than four lines of
    input it ends with [EOFError] right after the prompt that gets no
    answer, having made no request and touched nothing on disk; it cannot
    end in any other way. *)
Theorem main_needs_four_answers w page_of strip urljoin BeautifulSoup stdin f out :
  length stdin < 4 →
  main w page_of strip urljoin BeautifulSoup stdin f out
    {| raised := Some EOFError; main_fs := f;
       main_stdout := (out ++ take (S (length stdin)) prompts)%list |}
  ∧ ∀ fin, main w page_of strip urljoin BeautifulSoup stdin f out fin →
           fin = {| raised := Some EOFError; main_fs := f;
                    main_stdout := (out ++ take (S (length stdin)) prompts)%list |}.
Proof.
  intros Hlen. pose proof (read_answers_short strip stdin out Hlen) as Hread.
  split; [by apply main_eof|].
  intros fin Hfin. inversion Hfin; subst; congruence.
Qed.

Lemma main_needs_four_answers_witness :
  main world_ok sample_page_of ascii_strip sample_urljoin (λ _, inr soup_two_links)
    ["KHTX"; "03"] empty_fs []
    {| raised := Some EOFError; main_fs := empty_fs;
       main_stdout := [ "Enter radar site (KHTX): "; "Enter month (03): ";
                        "Enter day (15): " ] |}.
Proof.
  assert (length ["KHTX"; "03"] < 4) as Hlen by (simpl; lia).
  exact (proj1 (main_needs_four_answers world_ok sample_page_of ascii_strip sample_urljoin
                  (λ _, inr soup_two_links) ["KHTX"; "03"] empty_fs [] Hlen)).
Defined.

(** X12. An exception of the link extraction ends [main].  When the
    page cannot be fetched or parsed into links, [main] raises the
    exception of [fetch_download_links] after the four prompts; no
    directory is created and nothing is downloaded. *)
Theorem main_stops_without_links w page_of strip urljoin BeautifulSoup
    l1 l2 l3 l4 rest f out e :
  let a := {| radar_site := strip l1; months_in := strip l2;
              day_in := strip l3; year_in := strip l4 |} in
  fetch_download_links urljoin BeautifulSoup (page_of (source_url a))
    (source_url a) = inl e →
  main w page_of strip urljoin BeautifulSoup (l1 :: l2 :: l3 :: l4 :: rest) f out
    {| raised := Some (Raised e); main_fs := f;
       main_stdout := (out ++ prompts)%list |}
  ∧ ∀ fin,
      main w page_of strip urljoin BeautifulSoup (l1 :: l2 :: l3 :: l4 :: rest) f out fin →
      fin = {| raised := Some (Raised e); main_fs := f;
               main_stdout := (out ++ prompts)%list |}.
Proof.
  intros a Hfetch.
  pose proof (read_answers_four strip l1 l2 l3 l4 rest out) as Hread. fold a in Hread.
  split; [by eapply main_links_raise|].
  intros fin Hfin.
  inversion Hfin as [out1 Hr|out1 a' e' Hr Hf|out1 a' dl e' f' Hr Hf
                    |out1 a' dl σ0 ts0 σ ts i e' Hr Hf
                    |out1 a' dl o Hr Hf]; subst;
    rewrite Hread in Hr; try discriminate Hr;
    injection Hr as <- <-; congruence.
Qed.

Lemma main_stops_without_links_witness :
  main world_ok sample_page_of ascii_strip sample_urljoin (λ _, inr soup_no_href)
    sample_stdin empty_fs []
    {| raised := Some (Raised (KeyError "href")); main_fs := empty_fs;
       main_stdout := prompts |}.
Proof.
  exact (proj1 (main_stops_without_links world_ok sample_page_of ascii_strip sample_urljoin
                  (λ _, inr soup_no_href) " KHTX " "03" "15 " "2025" []
                  empty_fs [] (KeyError "href") eq_refl)).
Defined.

(** X13. The report of [main].  With four answers, links extracted and
    an output directory that can be created, [main] ends normally, and
    only so.  The directory is named after the answers as [str.strip]
    leaves them, site, year, month and day in this order, although month
    and day are asked before the year; a directory that is new on disk is
    this one or one on the way to it.  After the prompts the console
    shows one message per failed download, then the number of files
    downloaded, which is the number of links minus the failures, then
    the directory. *)
Theorem main_reports w page_of strip urljoin BeautifulSoup l1 l2 l3 l4 rest f out
    download_links f' :
  let a := {| radar_site := strip l1; months_in := strip l2;
              day_in := strip l3; year_in := strip l4 |} in
  let output_dir := output_dir_name (strip l1) (strip l4) (strip l2) (strip l3) in
  fetch_download_links urljoin BeautifulSoup (page_of (source_url a))
    (source_url a) = inr download_links →
  os_makedirs w output_dir f = inr f' →
  (∃ fin, main w page_of strip urljoin BeautifulSoup (l1 :: l2 :: l3 :: l4 :: rest)
            f out fin)
  ∧ ∀ fin,
      main w page_of strip urljoin BeautifulSoup (l1 :: l2 :: l3 :: l4 :: rest) f out fin →
      raised fin = None
      ∧ dirs f ⊆ dirs (main_fs fin)
      ∧ (∀ d, d ∈ dirs (main_fs fin) →
              d ∈ dirs f ∨ d = output_dir ∨ leads_to d output_dir)
      ∧ ∃ extra,
          main_stdout fin
          = (out ++ prompts ++ extra
             ++ [ "Total files downloaded: "
                    +:+ nat_to_string (length download_links
                                       - failures w output_dir download_links);
                  "Files saved in: " +:+ output_dir ])%list
          ∧ extra ≡ₚ failure_messages w output_dir download_links.
Proof.
  intros a output_dir Hfetch Hmk.
  pose proof (read_answers_four strip l1 l2 l3 l4 rest out) as Hread. fold a in Hread.
  assert (∃ σ0 ts0, launch w download_links (strip l1) (strip l4) (strip l2)
                      (strip l3) 20 f (out ++ prompts)%list = Launched σ0 ts0)
    as (σ0 & ts0 & Hlaunch).
  { unfold launch. fold output_dir. rewrite Hmk. simpl. eauto. }
  split.
  - destruct (download_files_returns w _ _ _ _ _ _ _ _ _ _ Hlaunch) as [o Ho];
      [lia|].
    eexists. by eapply (main_return w page_of strip urljoin BeautifulSoup _ f out _ a).
  - intros fin Hfin.
    inversion Hfin as [out1 Hr|out1 a' e' Hr Hf|out1 a' dl e' f1 Hr Hf Hl
                      |out1 a' dl σ1 ts1 σ ts i e' Hr Hf Hl Hsteps Hi
                      |out1 a' dl o Hr Hf Ho]; subst;
      rewrite Hread in Hr; try discriminate Hr; injection Hr as <- <-.
    + congruence.
    + rewrite Hfetch in Hf. injection Hf as <-. simpl in Hl. congruence.
    + rewrite Hfetch in Hf. injection Hf as <-. simpl in Hl.
      rewrite Hlaunch in Hl. injection Hl as <- <-.
      destruct (run_invariants w _ _ _ _ _ _ _ _ _ _ Hlaunch _ _ Hsteps)
        as (_ & Hres & _).
      destruct (no_task_raises w _ _ _ _ Hres Hi).
    + rewrite Hfetch in Hf. injection Hf as <-. simpl in Ho. simpl.
      split; [done|].
      destruct (frame_at_return w _ _ _ _ _ _ _ _ _ "" Ho)
        as (f1 & Hmk1 & Hd & _).
      apply os_makedirs_inr in Hmk1 as ([Hsub _] & Hnew & _).
      rewrite Hd. split; [exact Hsub|]. split; [exact Hnew|].
      destruct (stdout_at_return w _ _ _ _ _ _ _ _ _ Ho)
        as (extra & Hout & Hperm & Hlen).
      exists extra. split; [|exact Hperm].
      rewrite Hout.
      destruct (download_files_outcome w _ _ _ _ _ _ _ _ _ _ Hlaunch _ Ho)
        as (σ & [= ->] & _). simpl.
      pose proof (successes_failures w download_links output_dir) as Hsf.
      fold output_dir.
      replace (length (successful (results w output_dir download_links)))
        with (length download_links - failures w output_dir download_links)
        by lia.
      by rewrite <- !app_assoc.
Qed.

Lemma main_reports_witness :
  ∃ fin, main world_ok sample_page_of ascii_strip sample_urljoin (λ _, inr soup_two_links)
           sample_stdin empty_fs [] fin.
Proof.
  exact (proj1 (main_reports world_ok sample_page_of ascii_strip sample_urljoin
                  (λ _, inr soup_two_links) " KHTX " "03" "15 " "2025" []
                  empty_fs []
                  [ "https://www.ncdc.noaa.gov/data/A.gz";
                    "https://www.ncdc.noaa.gov/data/B.gz" ]
                  _ eq_refl eq_refl)).
Defined.

(** ** File names and target paths *)

Lemma split_id sep x : contains sep x = false → split sep x = [x].
Proof.
  induction x as [|c x IH]; [done|]. simpl.
  intros [Hc Hx]%orb_false_iff. rewrite Hc, (IH Hx). done.
Qed.

Lemma split_app_sep sep x rest :
  contains sep x = false →
  split sep (x +:+ String sep rest) = x :: split sep rest.
Proof.
  induction x as [|c x IH].
  - intros _. rewrite append_empty_l. simpl. by rewrite Ascii.eqb_refl.
  - intros H. simpl in H. apply orb_false_iff in H as [Hc Hx].
    rewrite append_cons. cbn [split]. rewrite Hc, (IH Hx). done.
Qed.

Lemma split_of_join sep l :
  l ≠ [] → Forall (λ x, contains sep x = false) l → split sep (join sep l) = l.
Proof.
  intros Hne Hall. induction Hall as [|x l Hx Hl IH]; [done|].
  destruct l as [|y l].
  - simpl. by apply split_id.
  - change (join sep (x :: y :: l)) with (x +:+ String sep (join sep (y :: l))).
    rewrite split_app_sep by done. f_equal. by apply IH.
Qed.

Lemma join_snoc sep l x :
  l ≠ [] → join sep (l ++ [x]) = join sep l +:+ String sep x.
Proof.
  induction l as [|y l IH]; [done|]. intros _.
  destruct l as [|z l]; [done|].
  change (join sep ((y :: z :: l) ++ [x]))
    with (y +:+ String sep (join sep ((z :: l) ++ [x]))).
  rewrite IH by done.
  change (join sep (y :: z :: l)) with (y +:+ String sep (join sep (z :: l))).
  generalize (join sep (z :: l)). intros t. clear.
  induction y as [|a y IHy]; [done|]. by rewrite !append_cons, IHy.
Qed.

(** X14. [split] and [join] are inverse of each other.  Joining the
    pieces of [s.split('/')] with slashes gives [s] back, no piece
    contains a slash, and splitting the join of slash-free pieces gives
    the pieces back. *)
Theorem split_round_trip (s : string) :
  join slash (split slash s) = s
  ∧ split slash s ≠ []
  ∧ Forall (λ x, contains slash x = false) (split slash s)
  ∧ (∀ l, l ≠ [] → Forall (λ x, contains slash x = false) l →
          split slash (join slash l) = l).
Proof.
  split; [apply split_join|]. split; [apply split_nonempty|].
  split; [apply split_no_sep|]. apply split_of_join.
Qed.

(** X15. The file name of a link.  For a link that ends in a slash
    followed by a name without slash, the file name is that name,
    whatever stands before; a link without any slash is its own file
    name. *)
Theorem filename_of_last_segment (p name : string) :
  contains slash name = false →
  filename_of (p +:+ String slash name) = name ∧ filename_of name = name.
Proof.
  intros Hname. split.
  - unfold filename_of.
    rewrite <- (split_join slash p).
    rewrite <- join_snoc by apply split_nonempty.
    rewrite split_of_join.
    + by rewrite last_snoc.
    + by destruct (split slash p).
    + apply Forall_app. split; [apply split_no_sep|by constructor].
  - unfold filename_of. by rewrite split_id.
Qed.

Lemma filename_of_last_segment_witness :
  filename_of "https://noaa-nexrad-level2.s3.amazonaws.com/2025/03/15/KHTX/KHTX20250315_000231_V06"
  = "KHTX20250315_000231_V06".
Proof.
  exact (proj1 (filename_of_last_segment
                  "https://noaa-nexrad-level2.s3.amazonaws.com/2025/03/15/KHTX"
                  "KHTX20250315_000231_V06" eq_refl)).
Defined.

Lemma contains_startswith c (s : string) :
  contains c s = false → startswith_char c s = false.
Proof. destruct s; simpl; [done|]. by intros [? _]%orb_false_iff. Qed.

Lemma append_eq_empty (a b : string) : a +:+ b = "" → a = "" ∧ b = "".
Proof. destruct a; [done|]. rewrite append_cons. done. Qed.

Lemma output_dir_name_nonempty radar year month day :
  output_dir_name radar year month day ≠ "".
Proof.
  unfold output_dir_name. intros [_ H]%append_eq_empty. done.
Qed.

Lemma target_shape radar year month day url :
  target (output_dir_name radar year month day) url
  = output_dir_name radar year month day
    +:+ (if endswith_char slash (output_dir_name radar year month day)
         then "" else "/")
    +:+ filename_of url.
Proof.
  pose proof (output_dir_name_nonempty radar year month day) as Hne.
  destruct (filename_of_spec url) as [Hslash _].
  unfold target, os_path_join. rewrite (contains_startswith _ _ Hslash).
  rewrite (bool_decide_eq_false_2 (output_dir_name radar year month day = ""))
    by done.
  simpl. destruct (endswith_char slash _); [|done].
  by rewrite append_empty_l.
Qed.

(** X16. Where a download goes.  The target path of a link is the
    output directory, one slash unless the directory name already ends
    in one, and the file name of the link, which contains no slash: the
    file never lands outside the output directory or below it. *)
Theorem target_in_output_dir radar year month day url :
  let output_dir := output_dir_name radar year month day in
  output_dir ≠ ""
  ∧ contains slash (filename_of url) = false
  ∧ target output_dir url
    = output_dir
      +:+ (if endswith_char slash output_dir then "" else "/")
      +:+ filename_of url.
Proof.
  intros output_dir.
  split; [apply output_dir_name_nonempty|].
  split; [apply filename_of_spec|]. apply target_shape.
Qed.

(** ** A single download *)

Lemma text_before_none c s : contains c s = false → text_before c s = s.
Proof.
  induction s as [|a s IH]; [done|]. simpl.
  intros [-> Hs]%orb_false_iff. by rewrite IH.
Qed.

Lemma text_from_suffix c s : ∃ pre, s = pre +:+ text_from c s.
Proof.
  induction s as [|a s [pre IH]]; [by exists ""|]. simpl.
  destruct (Ascii.eqb a c).
  - by exists "".
  - exists (String a pre). rewrite append_cons. by f_equal.
Qed.

Lemma tail_of_suffix s : ∃ pre, s = pre +:+ tail_of s.
Proof. destruct s as [|a s]; [by exists ""|]. by exists (String a ""). Qed.

Lemma without_scheme_suffix u : ∃ pre, u = pre +:+ without_scheme u.
Proof.
  unfold without_scheme. destruct (contains ":" (text_before slash u)).
  - destruct (text_from_suffix ":" u) as [p1 H1].
    destruct (tail_of_suffix (text_from ":" u)) as [p2 H2].
    exists (p1 +:+ p2). rewrite append_assoc, <- H2. done.
  - by exists "".
Qed.

Lemma without_authority_suffix u : ∃ pre, u = pre +:+ without_authority u.
Proof.
  unfold without_authority.
  destruct u as [|a [|b rest]]; [by exists ""..|].
  destruct (Ascii.eqb a slash && Ascii.eqb b slash); [|by exists ""].
  destruct (text_from_suffix slash rest) as [p H].
  exists (String a (String b p)). rewrite !append_cons. by do 2 f_equal.
Qed.

Lemma filename_of_after_slash (p name : string) :
  contains slash name = false → filename_of (p +:+ String slash name) = name.
Proof.
  intros Hname. unfold filename_of.
  rewrite <- (split_join slash p).
  rewrite <- join_snoc by apply split_nonempty.
  rewrite split_of_join.
  - by rewrite last_snoc.
  - by destruct (split slash p).
  - apply Forall_app. split; [apply split_no_sep|by constructor].
Qed.

Lemma filename_of_suffix (pre p : string) :
  contains slash p = true → filename_of (pre +:+ p) = filename_of p.
Proof.
  intros Hp. destruct (filename_of_spec p) as [Hslash [Heq|[q Heq]]].
  - rewrite <- Heq in Hslash. congruence.
  - rewrite Heq at 1. rewrite <- append_assoc.
    by apply filename_of_after_slash.
Qed.

(** Without query and fragment, and with a slash in the path, the text
    after the last slash of a link is the final segment of its path. *)
Lemma final_path_segment_plain url :
  contains "?" url = false → contains "#" url = false →
  contains slash (url_path url) = true →
  filename_of url = final_path_segment url.
Proof.
  intros Hq Hf Hpath. unfold final_path_segment.
  change (default "" (last (split slash (url_path url))))
    with (filename_of (url_path url)).
  assert (∃ pre, url = pre +:+ url_path url) as [pre Hpre].
  { unfold url_path.
    rewrite (text_before_none "#" url Hf), (text_before_none "?" url Hq).
    destruct (without_scheme_suffix url) as [p1 H1].
    destruct (without_authority_suffix (without_scheme url)) as [p2 H2].
    exists (p1 +:+ p2). rewrite append_assoc, <- H2. done. }
  rewrite Hpre at 1. by apply filename_of_suffix.
Qed.

(** C7, as amended.  A download that succeeds.  When the response
    arrives with a status below 400, its body can be read and the file
    can be opened and written, the task takes as file name the part of
    the link after its last slash, which is the final path segment of
    the link when the link has no query and no fragment and its path has
    a slash; it writes the bytes received to that name in the output
    directory, then updates the tracker with that name and returns it;
    the name is in the list [download_files] returns. *)
Theorem successful_download w i url output_dir r data σ :
  get_response w i url = inr r →
  status r < 400 →
  body r = inr data →
  written w output_dir i url = true →
  lock (progress_tracker σ) = false →
  disable (progress_bar (progress_tracker σ)) = false →
  let filename := filename_of url in
  let filepath := os_path_join output_dir filename in
  (contains slash filename = false
   ∧ (url = filename ∨ ∃ p, url = p +:+ String slash filename)
   ∧ filename ≠ "")
  ∧ (contains "?" url = false → contains "#" url = false →
     contains slash (url_path url) = true →
     filename = final_path_segment url)
  ∧ trace_of w i (download_file url output_dir)
    = [ Label (SessionGet url); Label (FileOpen filepath);
        Label (ResponseRead r); Label (FileWrite filepath data);
        Label LockAcquire; Label (TrackerUpdate (Some filename));
        Label LockRelease ]
  ∧ (∃ σ',
       exec w i (download_file url output_dir) σ = Some (inr (Some filename), σ')
       ∧ files (fs σ') = <[filepath := data]> (files (fs σ))
       ∧ dirs (fs σ') = dirs (fs σ)
       ∧ completed (progress_tracker σ') = completed (progress_tracker σ) + 1
       ∧ n (progress_bar (progress_tracker σ'))
         = n (progress_bar (progress_tracker σ)) + 1
       ∧ postfix (progress_bar (progress_tracker σ'))
         = Some ("Last: " +:+ filename)
       ∧ lock (progress_tracker σ') = false
       ∧ stdout σ' = stdout σ)
  ∧ (∀ links radar year month day max_concurrent f out o,
       output_dir = output_dir_name radar year month day →
       links !! i = Some url →
       download_files w links radar year month day max_concurrent f out (inr o) →
       filename ∈ downloaded o).
Proof.
  intros Hget Hst Hbody Hw Hlock Hopen filename filepath.
  pose proof (written_filename w output_dir i url Hw) as Hname.
  pose proof (filename_of_spec url) as [Hslash Hurl].
  assert (succeeds w output_dir i url = true) as Hsucc.
  { unfold succeeds, fetched. rewrite Hget, Hbody, Hw.
    rewrite (bool_decide_eq_false_2 (400 ≤ status r)) by lia.
    rewrite bool_decide_eq_true_2 by eauto. done. }
  unfold written in Hw. apply andb_true_iff in Hw as [Ho Hwr].
  apply bool_decide_eq_true in Ho, Hwr. fold filename filepath in Ho, Hwr.
  split; [done|]. split; [by apply final_path_segment_plain|]. split; [|split].
  - unfold download_file, try_except, update, async_with,
      await_sum, await_err, await, raise_for_status, index_last.
    rewrite last_split. cbn. rewrite Hget. cbn.
    rewrite bool_decide_eq_false_2 by lia. cbn.
    fold filename filepath. rewrite Ho. cbn. rewrite Hbody. cbn.
    rewrite Hwr. cbn. done.
  - unfold download_file, try_except, update, async_with,
      await_sum, await_err, await, raise_for_status, index_last.
    rewrite last_split. cbn. rewrite Hget. cbn.
    rewrite bool_decide_eq_false_2 by lia. cbn.
    fold filename filepath. rewrite Ho. cbn. rewrite Hbody. cbn.
    rewrite Hwr. cbn. rewrite Hlock. cbn.
    eexists. split; [reflexivity|]. cbn.
    unfold tqdm_update. rewrite Hopen. cbn.
    rewrite bool_decide_eq_false_2 by done. cbn.
    rewrite insert_insert_eq. done.
  - intros links radar year month day cap f out o -> Hi Hdl.
    destruct (launch w links radar year month day cap f out)
      as [e f'|σ0 ts0] eqn:Hlaunch.
    { inversion Hdl; congruence. }
    destruct (download_files_outcome w _ _ _ _ _ _ _ _ _ _ Hlaunch _ Hdl)
      as (σ1 & [= ->] & _). simpl.
    apply list_elem_of_omap. exists (Some filename). split; [|done].
    apply list_elem_of_lookup. exists i.
    unfold results. rewrite list_lookup_imap, Hi. simpl.
    unfold result_at. by rewrite Hsucc.
Qed.

Lemma successful_download_witness :
  trace_of world_ok 0 (download_file "http://h/A.gz" "KHTX_2025_03_15")
  = [ Label (SessionGet "http://h/A.gz");
      Label (FileOpen "KHTX_2025_03_15/A.gz");
      Label (ResponseRead (Response 200 "OK" "http://h/A.gz" (inr sample_data)));
      Label (FileWrite "KHTX_2025_03_15/A.gz" sample_data);
      Label LockAcquire; Label (TrackerUpdate (Some "A.gz"));
      Label LockRelease ].
Proof.
  assert (200 < 400) as Hst by lia.
  exact (proj1 (proj2 (proj2 (successful_download world_ok 0 "http://h/A.gz"
           "KHTX_2025_03_15" (Response 200 "OK" "http://h/A.gz" (inr sample_data))
           sample_data
           {| sem_value := 19;
              progress_tracker := AsyncDownloadProgress_init 3;
              fs := {| dirs := {["KHTX_2025_03_15"]}; files := ∅ |};
              stdout := [] |}
           eq_refl Hst eq_refl eq_refl eq_refl eq_refl)))).
Defined.

(** C7 as stated fails for a link with a query: the download of
    [http://h/A.gz?x=1] succeeds and saves the data under the name
    [A.gz?x=1], the text after the last slash of the link, while the final
    segment of the path of the link is [A.gz]; nothing is saved under that
    name. *)
Lemma query_kept_in_filename :
  let url := "http://h/A.gz?x=1" in
  let σ := {| sem_value := 19;
              progress_tracker := AsyncDownloadProgress_init 1;
              fs := add_dir "KHTX_2025_03_15" empty_fs;
              stdout := [] |} in
  final_path_segment url = "A.gz"
  ∧ filename_of url = "A.gz?x=1"
  ∧ ∃ σ',
      exec world_ok 0 (download_file url "KHTX_2025_03_15") σ
      = Some (inr (Some "A.gz?x=1"), σ')
      ∧ files (fs σ') !! "KHTX_2025_03_15/A.gz?x=1" = Some sample_data
      ∧ files (fs σ') !! "KHTX_2025_03_15/A.gz" = None.
Proof.
  split; [reflexivity|]. split; [reflexivity|].
  eexists. split; [vm_compute; reflexivity|].
  split; vm_compute; reflexivity.
Qed.

(** ** The ways link extraction fails *)

Lemma getitem_raises key nd e : getitem key nd = inl e → e = KeyError key.
Proof.
  destruct nd as [name attrs contents|text]; simpl.
  - destruct (attrs !! key); [done|]. by intros [= <-].
  - by intros [= <-].
Qed.

Lemma link_of_raises urljoin url link e :
  link_of urljoin url link = Raises e
  ↔ ∃ a, find "a" link = Some a
         ∧ ((getitem "href" a = inl e ∧ e = KeyError "href")
            ∨ ∃ href, getitem "href" a = inr href ∧ urljoin url href = inl e).
Proof.
  unfold link_of. destruct (find "a" link) as [a|].
  2:{ split; [done|]. by intros (a & [=] & _). }
  destruct (getitem "href" a) as [e'|href] eqn:Hg.
  - pose proof (getitem_raises _ _ _ Hg) as ->. split.
    + intros [= <-]. exists a. split; [done|]. by left.
    + intros (a' & [= <-] & [[Hg' _]|(href & Hg' & _)]); congruence.
  - destruct (urljoin url href) as [e'|absolute] eqn:Hj.
    + split.
      * intros [= <-]. exists a. split; [done|]. right. by exists href.
      * intros (a' & [= <-] & [[Hg' _]|(href' & Hg' & Hj')]); congruence.
    + split; [done|].
      intros (a' & [= <-] & [[Hg' _]|(href' & Hg' & Hj')]); congruence.
Qed.

Lemma links_of_raises urljoin url (download_links : list node) e :
  links_of urljoin url download_links = inl e
  ↔ ∃ l1 link l2,
      download_links = (l1 ++ link :: l2)%list
      ∧ Forall (anchor_resolves urljoin url) l1
      ∧ link_of urljoin url link = Raises e.
Proof.
  revert e. induction download_links as [|link rest IH]; intros e.
  { simpl. split; [done|]. intros (l1 & lk & l2 & Heq & _).
    by destruct l1. }
  assert (∀ l1 lk l2,
            link :: rest = (l1 ++ lk :: l2)%list →
            (l1 = [] ∧ lk = link ∧ l2 = rest)
            ∨ ∃ l1', l1 = link :: l1' ∧ rest = (l1' ++ lk :: l2)%list) as Hcases.
  { intros [|x l1] lk l2 Heq; simpl in Heq; injection Heq as H1 H2.
    - left. by rewrite H1, H2.
    - right. exists l1. by rewrite H1, H2. }
  cbn [links_of].
  destruct (link_of urljoin url link) as [|absolute|e'] eqn:Hlink.
  - (* skipped *)
    assert (find "a" link = None) as Hnone.
    { unfold link_of in Hlink. destruct (find "a" link) as [a|]; [|done].
      destruct (getitem "href" a) as [?|href]; [done|].
      by destruct (urljoin url href). }
    rewrite Hnone, IH. split.
    + intros (l1 & lk & l2 & -> & Hall & Hr). exists (link :: l1), lk, l2.
      split; [done|]. split; [|done]. constructor; [|done].
      unfold anchor_resolves. by rewrite Hnone.
    + intros (l1 & lk & l2 & Heq & Hall & Hr).
      destruct (Hcases _ _ _ Heq) as [(-> & -> & ->)|(l1' & -> & ->)];
        [congruence|].
      inversion Hall; subst. by exists l1', lk, l2.
  - (* an address *)
    assert (∃ a href, find "a" link = Some a ∧ getitem "href" a = inr href
                      ∧ urljoin url href = inr absolute) as (a & href & Ha & Hg & Hj).
    { unfold link_of in Hlink. destruct (find "a" link) as [a|]; [|done].
      destruct (getitem "href" a) as [?|href] eqn:Hg; [done|].
      destruct (urljoin url href) eqn:Hj; [done|].
      injection Hlink as <-. by exists a, href. }
    rewrite Ha, Hg, Hj. split.
    + destruct (links_of urljoin url rest) as [e'|links] eqn:Hrest; [|done].
      intros [= <-]. destruct (proj1 (IH e') eq_refl)
        as (l1 & lk & l2 & -> & Hall & Hr).
      exists (link :: l1), lk, l2. split; [done|]. split; [|done].
      constructor; [|done]. unfold anchor_resolves. rewrite Ha. eauto.
    + intros (l1 & lk & l2 & Heq & Hall & Hr).
      destruct (Hcases _ _ _ Heq) as [(-> & -> & ->)|(l1' & -> & ->)];
        [congruence|].
      inversion Hall; subst.
      assert (links_of urljoin url (l1' ++ lk :: l2) = inl e) as ->; [|done].
      apply IH. by exists l1', lk, l2.
  - (* an exception *)
    assert (match find "a" link with
            | Some a =>
                match getitem "href" a with
                | inl e => inl e
                | inr href =>
                    match urljoin url href with
                    | inl e => inl e
                    | inr absolute =>
                        match links_of urljoin url rest with
                        | inl e => inl e
                        | inr links => inr (absolute :: links)
                        end
                    end
                end
            | None => links_of urljoin url rest
            end = inl e') as ->.
    { unfold link_of in Hlink. destruct (find "a" link) as [a|]; [|done].
      destruct (getitem "href" a) as [?|href]; [congruence|].
      destruct (urljoin url href); [congruence|done]. }
    split.
    + intros [= <-]. exists [], link, rest. by repeat split.
    + intros (l1 & lk & l2 & Heq & Hall & Hr).
      destruct (Hcases _ _ _ Heq) as [(-> & -> & ->)|(l1' & -> & ->)];
        [congruence|].
      inversion Hall as [|?? Hres _]; subst. exfalso.
      unfold anchor_resolves in Hres. unfold link_of in Hlink.
      destruct (find "a" link) as [a|]; [|done].
      destruct Hres as (href & absolute & Hg & Hj).
      by rewrite Hg, Hj in Hlink.
Qed.

(** X17. The ways [fetch_download_links] can raise.  It raises exactly
    when the request fails, the status is 400 or more, the text cannot
    be read, the parser rejects the page, or, going through the link
    containers in page order, the first one that does not resolve
    raises: its first anchor has no [href] ([KeyError('href')]) or
    [urljoin] rejects the [href].  The exception is the one of that
    step. *)
Theorem fetch_download_links_raises urljoin BeautifulSoup got url e :
  (fetch_download_links urljoin BeautifulSoup got url = inl e
   ↔ got = inl e
     ∨ (∃ response, got = inr response
          ∧ ((400 ≤ page_status response
              ∧ e = ClientResponseError (page_status response)
                      (page_reason response) (page_url response))
             ∨ (page_status response < 400
                ∧ page_text response = inl e)
             ∨ (page_status response < 400
                ∧ ∃ html, page_text response = inr html
                    ∧ (BeautifulSoup html = inl e
                       ∨ ∃ soup l1 link l2,
                           BeautifulSoup html = inr soup
                           ∧ find_all "div" "bdpLink" soup = (l1 ++ link :: l2)%list
                           ∧ Forall (anchor_resolves urljoin url) l1
                           ∧ link_of urljoin url link = Raises e)))))
  ∧ (∀ link,
       link_of urljoin url link = Raises e
       ↔ ∃ a, find "a" link = Some a
              ∧ ((getitem "href" a = inl e ∧ e = KeyError "href")
                 ∨ ∃ href, getitem "href" a = inr href
                           ∧ urljoin url href = inl e)).
Proof.
  split; [|intros link; apply link_of_raises].
  unfold fetch_download_links. destruct got as [e0|response].
  { split; [intros [= ->]; by left|]. intros [[= ->]|(? & [=] & _)]. done. }
  case_bool_decide as Hst.
  { split.
    - intros [= <-]. right. exists response. split; [done|]. left. done.
    - intros [[=]|(r & [= <-] & [[_ ->]|[[? _]|[? _]]])]; [done|lia|lia]. }
  destruct (page_text response) as [e0|html] eqn:Htext.
  { split.
    - intros [= ->]. right. exists response. split; [done|].
      right. left. split; [lia|done].
    - intros [[=]|(r & [= <-] & [[? _]|[[_ Ht]|(_ & h & Ht & _)]])];
        [lia|congruence|congruence]. }
  destruct (BeautifulSoup html) as [e0|soup] eqn:Hsoup.
  { split.
    - intros [= ->]. right. exists response. split; [done|].
      right. right. split; [lia|]. exists html. split; [done|]. left. done.
    - intros [[=]|(r & [= <-] & [[? _]|[[_ Ht]|(_ & h & Ht & Hh)]])];
        [lia|congruence|].
      rewrite Htext in Ht. injection Ht as <-.
      destruct Hh as [Hh|(sp & ? & ? & ? & Hh & _)]; congruence. }
  rewrite links_of_raises. split.
  - intros (l1 & link & l2 & Heq & Hall & Hr). right. exists response.
    split; [done|]. right. right. split; [lia|]. exists html. split; [done|].
    right. by exists soup, l1, link, l2.
  - intros [[=]|(r & [= <-] & [[? _]|[[_ Ht]|(_ & h & Ht & Hh)]])];
      [lia|congruence|].
    rewrite Htext in Ht. injection Ht as <-.
    destruct Hh as [Hh|(sp & l1 & link & l2 & Hsp & Heq & Hall & Hr)];
      [congruence|].
    rewrite Hsoup in Hsp. injection Hsp as <-. by exists l1, link, l2.
Qed.

(** ** The label of the progress bar *)

Lemma tasks_on_path_initial w output_dir links :
  tasks_on_path w output_dir links
    ((λ link, bounded_download link output_dir) <$> links).
Proof.
  intros j c Hj Hu. rewrite list_lookup_fmap in Hj.
  destruct (links !! j) as [url|] eqn:Hl; [|done]. injection Hj as <-.
  rewrite updates_of_bounded_download in Hu.
  exists url. split; [done|].
  destruct (succeeds w output_dir j url); [done|simpl in Hu; lia].
Qed.

Lemma tasks_on_path_step w output_dir links s s' :
  step w s s' →
  tasks_on_path w output_dir links s.2 → tasks_on_path w output_dir links s'.2.
Proof.
  destruct 1 as [σ ts i X ev k Hi Hen]. cbn [fst snd]. intros Hpath j c Hj Hu.
  destruct (decide (i = j)) as [<-|Hne].
  - rewrite list_lookup_insert_eq in Hj by (by eapply lookup_lt_Some).
    injection Hj as <-. apply (Hpath i _ Hi).
    rewrite updates_of_Await. lia.
  - rewrite list_lookup_insert_ne in Hj by done. eauto.
Qed.

Lemma label_step w output_dir links s s' :
  step w s s' →
  tasks_confined output_dir links s.2 →
  tasks_on_path w output_dir links s.2 →
  label_ok w output_dir links (progress_tracker s.1) →
  label_ok w output_dir links (progress_tracker s'.1).
Proof.
  destruct 1 as [σ ts i X ev k Hi Hen]. cbn [fst snd].
  intros Hconf Hpath Hlab.
  destruct (Hconf i _ Hi) as (url & Hl & Hev & _).
  destruct ev; try (cbn; repeat case_match; exact Hlab).
  cbn in Hev. subst filename.
    destruct (Hpath i _ Hi) as (url' & Hl' & Hs).
    { rewrite updates_of_Await. simpl. lia. }
    rewrite Hl in Hl'. injection Hl' as <-.
    assert (filename_of url ≠ "") as Hname.
    { unfold succeeds in Hs. apply andb_true_iff in Hs as [_ Hw].
      by eapply written_filename. }
    right. cbn. split; [lia|]. exists i, url. split; [done|]. split; [done|].
    rewrite bool_decide_eq_false_2 by done. done.
Qed.

Lemma label_steps w output_dir links s s' :
  steps w s s' →
  tasks_confined output_dir links s.2 →
  tasks_on_path w output_dir links s.2 →
  label_ok w output_dir links (progress_tracker s.1) →
  label_ok w output_dir links (progress_tracker s'.1).
Proof.
  induction 1 as [|s1 s2 s3 H12 _ IH]; [done|]. intros Hconf Hpath Hlab.
  apply IH; [by eapply tasks_confined_step|by eapply tasks_on_path_step|].
  by eapply label_step.
Qed.

(** X18. The label left on the bar.  When [download_files] returns,
    the bar has no label if no download succeeded; otherwise its label
    is "Last: " followed by the file name of one of the links that
    succeeded. *)
Theorem label_at_return w links radar year month day max_concurrent f out o :
  download_files w links radar year month day max_concurrent f out (inr o) →
  (downloaded o = []
   ∧ postfix (progress_bar (progress_tracker (final o))) = None)
  ∨ (downloaded o ≠ []
     ∧ ∃ i url,
         links !! i = Some url
         ∧ succeeds w (output_dir_name radar year month day) i url = true
         ∧ filename_of url ∈ downloaded o
         ∧ postfix (progress_bar (progress_tracker (final o)))
           = Some ("Last: " +:+ filename_of url)).
Proof.
  intros Ho.
  destruct (download_files_return_inv _ _ _ _ _ _ _ _ _ _ Ho)
    as (σ0 & ts0 & σ & Hlaunch & Hsteps & Heq).
  destruct (launch_Launched w _ _ _ _ _ _ _ _ _ _ Hlaunch)
    as (Hts & _ & _ & Htr & _).
  destruct (download_files_outcome w _ _ _ _ _ _ _ _ _ _ Hlaunch _ Ho)
    as (σ' & Heq' & _ & Hc & _).
  rewrite Heq in Heq'. injection Heq' as Hfin.
  assert (label_ok w (output_dir_name radar year month day) links
            (progress_tracker σ)) as Hlab.
  { apply (label_steps w _ links _ _ Hsteps); cbn [fst snd].
    - rewrite Hts. apply tasks_confined_initial.
    - rewrite Hts. apply tasks_on_path_initial.
    - rewrite Htr. by left. }
  assert (completed (progress_tracker σ)
          = length (successful (results w (output_dir_name radar year month day)
                                  links))) as Hcnt.
  { destruct (run_invariants w _ _ _ _ _ _ _ _ _ _ Hlaunch _ _ Hsteps)
      as (_ & _ & Hcnt & _).
    rewrite tally_fmap, tally_const_zero in Hcnt by done. lia. }
  subst o. simpl.
  destruct Hlab as [[Hzero Hp]|(Hpos & i & url & Hl & Hs & Hp)].
  - left. split; [|done]. apply length_zero_iff_nil. lia.
  - right. split.
    { intros Hnil. rewrite Hnil in Hcnt. simpl in Hcnt. lia. }
    exists i, url. repeat split; try done.
    apply list_elem_of_omap. exists (Some (filename_of url)). split; [|done].
    apply list_elem_of_lookup. exists i.
    unfold results. rewrite list_lookup_imap, Hl. simpl.
    unfold result_at. by rewrite Hs.
Qed.

Lemma label_at_return_witness :
  match download_files_first world_b_fails 40 sample_links
          "KHTX" "2025" "03" "15" 20 empty_fs [] with
  | Some (inr o) =>
      postfix (progress_bar (progress_tracker (final o))) ≠ None
  | _ => False
  end.
Proof.
  destruct (download_files_first world_b_fails 40 sample_links
              "KHTX" "2025" "03" "15" 20 empty_fs []) as [[e|o]|] eqn:E.
  - vm_compute in E. discriminate E.
  - pose proof E as E'. apply download_files_first_sound in E.
    destruct (label_at_return world_b_fails sample_links
                "KHTX" "2025" "03" "15" 20 empty_fs [] o E)
      as [[Hnil _]|(_ & i & url & _ & _ & _ & Hp)].
    + vm_compute in E'. injection E' as <-. discriminate Hnil.
    + rewrite Hp. discriminate.
  - vm_compute in E. discriminate E.
Defined.

(** ** Running the batch again *)

Lemma target_longer radar year month day url :
  endswith_char slash (output_dir_name radar year month day) = false →
  String.length (output_dir_name radar year month day)
  < String.length (target (output_dir_name radar year month day) url).
Proof.
  intros Hend. rewrite target_shape, Hend, !length_append. simpl. lia.
Qed.

(** X19. The batch can be run again.  After [download_files] has
    returned under a positive cap, with an output directory whose name
    does not end in a slash, a second call on what the first left on
    disk passes the setup again (the directory exists, and no file has
    taken its name), returns, and returns the same list against the same
    outside. *)
Theorem rerun_returns_same w links radar year month day max_concurrent f out o :
  (0 < max_concurrent)%Z →
  endswith_char slash (output_dir_name radar year month day) = false →
  download_files w links radar year month day max_concurrent f out (inr o) →
  os_makedirs w (output_dir_name radar year month day) (fs (final o))
  = inr (fs (final o))
  ∧ (∃ o', download_files w links radar year month day max_concurrent
             (fs (final o)) (stdout (final o)) (inr o'))
  ∧ (∀ res, download_files w links radar year month day max_concurrent
              (fs (final o)) (stdout (final o)) res →
            ∃ o', res = inr o' ∧ downloaded o' = downloaded o).
Proof.
  intros Hcap Hend Ho.
  destruct (download_files_return_inv _ _ _ _ _ _ _ _ _ _ Ho)
    as (σ0 & ts0 & σ & Hlaunch & _ & Heq).
  destruct (launch_Launched w _ _ _ _ _ _ _ _ _ _ Hlaunch)
    as (_ & _ & _ & _ & Hmk & _).
  assert (extends_upto (String.length (output_dir_name radar year month day))
            (fs σ0) (fs (final o))) as Hext.
  { split.
    - destruct (frame_at_return w _ _ _ _ _ _ _ _ _ "" Ho)
        as (f1 & Hmk1 & Hd & _).
      rewrite Hmk in Hmk1. injection Hmk1 as <-. by rewrite Hd.
    - intros p Hp.
      destruct (frame_at_return w _ _ _ _ _ _ _ _ _ p Ho)
        as (f1 & Hmk1 & _ & Hf).
      rewrite Hf.
      + apply os_makedirs_inr in Hmk as ([_ ->] & _). done.
      + intros j url _ ->.
        pose proof (target_longer radar year month day url Hend). lia. }
  assert (os_makedirs w (output_dir_name radar year month day) (fs (final o))
          = inr (fs (final o))) as Hmk2.
  { by apply (os_makedirs_again w _ f (fs σ0)). }
  split; [done|].
  assert (∃ σ1 ts1, launch w links radar year month day max_concurrent
                      (fs (final o)) (stdout (final o)) = Launched σ1 ts1)
    as (σ1 & ts1 & Hlaunch2).
  { unfold launch. rewrite Hmk2. unfold Semaphore.
    rewrite bool_decide_eq_false_2 by lia. eauto. }
  split; [by eapply download_files_returns|].
  intros res Hres.
  destruct (download_files_outcome w _ _ _ _ _ _ _ _ _ _ Hlaunch2 _ Hres)
    as (σ2 & -> & _).
  eexists. split; [done|]. by rewrite Heq.
Qed.

Lemma rerun_returns_same_witness :
  match download_files_first world_b_fails 40 sample_links
          "KHTX" "2025" "03" "15" 20 empty_fs [] with
  | Some (inr o) =>
      ∃ o', download_files world_b_fails sample_links "KHTX" "2025" "03" "15" 20
              (fs (final o)) (stdout (final o)) (inr o')
  | _ => False
  end.
Proof.
  destruct (download_files_first world_b_fails 40 sample_links
              "KHTX" "2025" "03" "15" 20 empty_fs []) as [[e|o]|] eqn:E.
  - vm_compute in E. discriminate E.
  - apply download_files_first_sound in E.
    assert (0 < 20)%Z as Hcap by lia.
    exact (proj1 (proj2 (rerun_returns_same world_b_fails sample_links
                           "KHTX" "2025" "03" "15" 20 empty_fs [] o
                           Hcap eq_refl E))).
  - vm_compute in E. discriminate E.
Defined.
